(** * showdown: the list sub-parser ([src/subParsers/makehtml/list.js])

    A shallow embedding of [makehtml.list] and of the JavaScript string and
    regular-expression primitives it is written with, followed by the
    properties of the transform.

    - JavaScript strings are sequences of UTF-16 code units ([list N]).
    - Regular-expression literals are terms of [regex]; [rmatch] is the
      backtracking semantics of ECMAScript (alternatives in priority order,
      the first one is the match).
    - Event hooks ([globals.converter.dispatch]), the sibling sub-parsers and
      the helpers of [showdown.helper] are parameters of the development:
      functions of the event or the text they are handed, which do not write
      [globals.gListLevel].
    - [globals.gListLevel] is threaded explicitly through a state monad whose
      failure is a JavaScript exception (exhausted call stack, or a method
      called on [undefined] or [null]). *)

From Stdlib Require Import String Ascii.
From Stdlib Require Import List NArith ZArith Lia Bool Arith FunctionalExtensionality.
Import ListNotations.


(** ** JavaScript strings *)

Module Js.

Local Open Scope N_scope.

Definition char := N.
Definition jsstring := list char.

Definition ceqb (a b : char) : bool := N.eqb a b.
Arguments ceqb (a b)%_N.

Fixpoint str_eqb (a b : jsstring) : bool :=
  match a, b with
  | [], [] => true
  | x :: a', y :: b' => ceqb x y && str_eqb a' b'
  | _, _ => false
  end.

(** Literals.  [js "- a\n"] reads a source-style literal: backslash escapes
    [\n], [\t], [\r], [\q] (a double quote), and two-byte UTF-8 sequences
    (the sentinel character U+00A8) become one code unit each. *)
Definition esc (c : N) : N :=
  if N.eqb c 110 then 10 else if N.eqb c 116 then 9
  else if N.eqb c 114 then 13 else if N.eqb c 113 then 34 else c.

Fixpoint decode (bs : list N) : jsstring :=
  match bs with
  | [] => []
  | b :: rest =>
      if N.eqb b 92 then
        match rest with
        | c :: rest' => esc c :: decode rest'
        | [] => [b]
        end
      else if N.leb 194 b && N.leb b 223 then
        match rest with
        | b2 :: rest' => ((b mod 32) * 64 + b2 mod 64) :: decode rest'
        | [] => [b]
        end
      else b :: decode rest
  end.

Definition js (s : string) : jsstring :=
  decode (map N_of_ascii (list_ascii_of_string s)).
Arguments js s%_string.

Definition LF : char := 10.
Definition CR : char := 13.
Definition TAB : char := 9.
Definition SP : char := 32.

(** LineTerminator and WhiteSpace of ECMAScript. *)
Definition is_line_terminator (c : char) : bool :=
  ceqb c 10 || ceqb c 13 || ceqb c 8232%N || ceqb c 8233%N.

Definition is_space (c : char) : bool :=
  (N.leb 9 c && N.leb c 13) || ceqb c 32 || ceqb c 160 || ceqb c 5760%N
  || (N.leb 8192%N c && N.leb c 8202%N) || ceqb c 8232%N || ceqb c 8233%N
  || ceqb c 8239%N || ceqb c 8287%N || ceqb c 12288%N || ceqb c 65279%N.

Definition is_digit (c : char) : bool := N.leb 48 c && N.leb c 57.

(** [String.prototype.trim]. *)
Fixpoint trim_start (s : jsstring) : jsstring :=
  match s with
  | c :: s' => if is_space c then trim_start s' else s
  | [] => []
  end.

Definition trim (s : jsstring) : jsstring :=
  rev (trim_start (rev (trim_start s))).

(** [Array.prototype.join]. *)
Fixpoint join (sep : jsstring) (l : list jsstring) : jsstring :=
  match l with
  | [] => []
  | [a] => a
  | a :: l' => a ++ sep ++ join sep l'
  end.

Fixpoint is_prefix (p s : jsstring) : bool :=
  match p, s with
  | [], _ => true
  | x :: p', y :: s' => ceqb x y && is_prefix p' s'
  | _ :: _, [] => false
  end.

(** [s.replace(pat, rep)] with a string pattern: the first occurrence. *)
Fixpoint replace_str (pat rep s : jsstring) : jsstring :=
  if is_prefix pat s then rep ++ skipn (length pat) s
  else match s with
       | [] => []
       | c :: s' => c :: replace_str pat rep s'
       end.

End Js.

Import Js.

(** ** Regular expressions *)

Module Re.

(** Members of a character class. *)
Inductive citem :=
| CLit (c : char)
| CDigit      (* \d *)
| CSpace      (* \s *)
| CNonSpace.  (* \S *)

Arguments CLit c%_N.

Inductive regex :=
| Eps
| Cls (neg : bool) (items : list citem)   (* [...] and [^...]; a lone char or escape *)
| Dot                                     (* .  *)
| Bol                                     (* ^  *)
| Eol                                     (* $  *)
| Seq (r1 r2 : regex)
| Alt (r1 r2 : regex)
| Rep (min : nat) (max : option nat) (greedy : bool) (r : regex)
| Grp (n : nat) (r : regex)               (* n-th capturing group *)
| Look (positive : bool) (r : regex)      (* (?=r) and (?!r) *)
| Bref (n : nat).                         (* \n *)

Definition in_item (c : char) (i : citem) : bool :=
  match i with
  | CLit d => ceqb c d
  | CDigit => is_digit c
  | CSpace => is_space c
  | CNonSpace => negb (is_space c)
  end.

Definition captures := nat -> option jsstring.
Definition no_captures : captures := fun _ => None.

(** A position in the input: the text before it (reversed), the text after
    it, and the captures so far. *)
Record mstate := MState {
  before : jsstring;
  after : jsstring;
  caps : captures
}.

Definition set_cap (n : nat) (s : jsstring) (c : captures) : captures :=
  fun k => if Nat.eqb k n then Some s else c k.

Definition clear_caps (gs : list nat) (c : captures) : captures :=
  fun k => if existsb (Nat.eqb k) gs then None else c k.

Fixpoint groups_of (r : regex) : list nat :=
  match r with
  | Seq a b | Alt a b => groups_of a ++ groups_of b
  | Rep _ _ _ a | Look _ a => groups_of a
  | Grp n a => n :: groups_of a
  | _ => []
  end.

(** The text consumed from [x] to a later position [y]. *)
Definition between (x y : mstate) : jsstring :=
  rev (firstn (length (before y) - length (before x)) (before y)).

Fixpoint advance (n : nat) (x : mstate) : mstate :=
  match n, after x with
  | S n', c :: s => advance n' (MState (c :: before x) s (caps x))
  | _, _ => x
  end.

Definition at_bol (multiline : bool) (x : mstate) : bool :=
  match before x with
  | [] => true
  | c :: _ => multiline && is_line_terminator c
  end.

Definition at_eol (multiline : bool) (x : mstate) : bool :=
  match after x with
  | [] => true
  | c :: _ => multiline && is_line_terminator c
  end.

(** RepeatMatcher: at most [max] and at least [min] iterations of [step];
    an iteration beyond [min] that consumes nothing is rejected; the
    captures of the groups inside the repeated atom are reset at every
    iteration. *)
Fixpoint rep (step : mstate -> list mstate) (gs : list nat) (greedy : bool)
    (fuel : nat) (min : nat) (max : option nat) (x : mstate) : list mstate :=
  match fuel with
  | O => []
  | S fuel' =>
      match max with
      | Some O => [x]
      | _ =>
          let d := fun y =>
            if Nat.eqb min 0 && Nat.eqb (length (after y)) (length (after x))
            then []
            else rep step gs greedy fuel' (pred min) (option_map pred max) y in
          let iter :=
            flat_map d (step (MState (before x) (after x) (clear_caps gs (caps x)))) in
          if negb (Nat.eqb min 0) then iter
          else if greedy then iter ++ [x] else x :: iter
      end
  end.

(** All the ways [r] matches at [x], best first. *)
Fixpoint rmatch (ml : bool) (r : regex) (x : mstate) : list mstate :=
  match r with
  | Eps => [x]
  | Cls neg items =>
      match after x with
      | c :: _ => if xorb neg (existsb (in_item c) items) then [advance 1 x] else []
      | [] => []
      end
  | Dot =>
      match after x with
      | c :: _ => if is_line_terminator c then [] else [advance 1 x]
      | [] => []
      end
  | Bol => if at_bol ml x then [x] else []
  | Eol => if at_eol ml x then [x] else []
  | Seq a b => flat_map (rmatch ml b) (rmatch ml a x)
  | Alt a b => rmatch ml a x ++ rmatch ml b x
  | Rep min max greedy a =>
      rep (rmatch ml a) (groups_of a) greedy (S (min + length (after x))) min max x
  | Grp n a =>
      map (fun y => MState (before y) (after y) (set_cap n (between x y) (caps y)))
          (rmatch ml a x)
  | Look true a =>
      match rmatch ml a x with
      | y :: _ => [MState (before x) (after x) (caps y)]
      | [] => []
      end
  | Look false a =>
      match rmatch ml a x with
      | [] => [x]
      | _ :: _ => []
      end
  | Bref n =>
      match caps x n with
      | None => [x]
      | Some s => if is_prefix s (after x) then [advance (length s) x] else []
      end
  end.

(** RegExpBuiltinExec from a given position: the first position at or
    after it where the pattern matches, with the best match there. *)
Fixpoint scan (ml : bool) (r : regex) (pre suf : jsstring) : option (mstate * mstate) :=
  let x := MState pre suf no_captures in
  match rmatch ml r x with
  | y :: _ => Some (x, y)
  | [] =>
      match suf with
      | [] => None
      | c :: suf' => scan ml r (c :: pre) suf'
      end
  end.

(** A match as the replace callback sees it. *)
Record mres := MRes {
  m_index : nat;
  m_whole : jsstring;
  m_group : captures
}.

Definition mk_res (x y : mstate) : mres :=
  MRes (length (before x)) (between x y) (caps y).

(** [s.search(re)], [re.test(s)], [s.match(re)] (no [g] flag). *)
Definition exec (ml : bool) (r : regex) (s : jsstring) : option mres :=
  match scan ml r [] s with
  | Some (x, y) => Some (mk_res x y)
  | None => None
  end.

Definition search (ml : bool) (r : regex) (s : jsstring) : option nat :=
  option_map m_index (exec ml r s).

Definition test (ml : bool) (r : regex) (s : jsstring) : bool :=
  match exec ml r s with Some _ => true | None => false end.

(** The matches a [g]-flagged replace visits, each with the unmatched text
    that precedes it, and the unmatched tail.  After an empty match the
    search resumes one code unit further. *)
Fixpoint collect (fuel : nat) (ml : bool) (r : regex) (pend pre suf : jsstring)
  : list (jsstring * mres) * jsstring :=
  match fuel with
  | O => ([], pend ++ suf)
  | S fuel' =>
      match scan ml r pre suf with
      | None => ([], pend ++ suf)
      | Some (x, y) =>
          let gap := pend ++ between (MState pre suf no_captures) x in
          let res := mk_res x y in
          if Nat.eqb (length (after y)) (length (after x)) then
            match after y with
            | [] => ([(gap, res)], [])
            | c :: rest =>
                let '(l, tl) := collect fuel' ml r [c] (c :: before y) rest in
                ((gap, res) :: l, tl)
            end
          else
            let '(l, tl) := collect fuel' ml r [] (before y) (after y) in
            ((gap, res) :: l, tl)
      end
  end.

Definition matches_g (ml : bool) (r : regex) (s : jsstring) :=
  collect (S (length s)) ml r [] [] s.

(** [s.replace(re, f)] without and with the [g] flag, for a pure [f]. *)
Definition replace1 (ml : bool) (r : regex) (f : mres -> jsstring) (s : jsstring) : jsstring :=
  match scan ml r [] s with
  | None => s
  | Some (x, y) => rev (before x) ++ f (mk_res x y) ++ after y
  end.

Definition replace_g (ml : bool) (r : regex) (f : mres -> jsstring) (s : jsstring) : jsstring :=
  let '(l, tl) := matches_g ml r s in
  flat_map (fun gm => fst gm ++ f (snd gm)) l ++ tl.

(** [s.split(re)]: the pattern is tried at each position [q]; a match that
    ends where the current piece started is skipped. *)
Fixpoint split_aux (fuel : nat) (ml : bool) (r : regex) (piece pre suf : jsstring)
  : list jsstring :=
  match fuel with
  | O => [rev piece ++ suf]
  | S fuel' =>
      match suf with
      | [] => [rev piece]
      | c :: suf' =>
          match rmatch ml r (MState pre suf no_captures) with
          | y :: _ =>
              if Nat.eqb (length (after y)) (length suf) && Nat.eqb (length piece) 0
              then split_aux fuel' ml r (c :: piece) (c :: pre) suf'
              else rev piece :: split_aux fuel' ml r [] (before y) (after y)
          | [] => split_aux fuel' ml r (c :: piece) (c :: pre) suf'
          end
      end
  end.

Definition split (ml : bool) (r : regex) (s : jsstring) : list jsstring :=
  match s with
  | [] => match rmatch ml r (MState [] [] no_captures) with
          | _ :: _ => []
          | [] => [[]]
          end
  | _ => split_aux (S (2 * length s)) ml r [] [] s
  end.

(** Pattern building blocks. *)
Definition chr (c : char) : regex := Cls false [CLit c].
Arguments chr c%_N.
Definition set (s : jsstring) : regex := Cls false (map CLit s).
Definition nset (s : jsstring) : regex := Cls true (map CLit s).
Definition star (r : regex) : regex := Rep 0 None true r.
Definition plus (r : regex) : regex := Rep 1 None true r.
Definition plus_lazy (r : regex) : regex := Rep 1 None false r.
Definition opt (r : regex) : regex := Rep 0 (Some 1) true r.
Definition at_least (n : nat) (r : regex) : regex := Rep n None true r.
Definition fromto (n k : nat) (r : regex) : regex := Rep n (Some k) true r.

Fixpoint seq (l : list regex) : regex :=
  match l with
  | [] => Eps
  | [r] => r
  | r :: l' => Seq r (seq l')
  end.

Definition str (s : jsstring) : regex := seq (map chr s).

(** *** What a match consumes (used to state the properties) *)

(** [y] is reached from [x] by consuming [w]. *)
Definition steps (x y : mstate) (w : jsstring) : Prop :=
  after x = w ++ after y /\ before y = rev w ++ before x.

(** Every [Rep] has [min <= max]. *)
Fixpoint wf (r : regex) : bool :=
  match r with
  | Seq a b | Alt a b => wf a && wf b
  | Rep min max _ a =>
      match max with Some k => Nat.leb min k | None => true end && wf a
  | Grp _ a | Look _ a => wf a
  | _ => true
  end.

(** The texts a pattern can consume, whatever the context. *)
Fixpoint shape (r : regex) (w : jsstring) : Prop :=
  match r with
  | Eps | Bol | Eol | Look _ _ => w = []
  | Cls neg items => exists c, w = [c] /\ xorb neg (existsb (in_item c) items) = true
  | Dot => exists c, w = [c] /\ is_line_terminator c = false
  | Seq a b => exists w1 w2, w = w1 ++ w2 /\ shape a w1 /\ shape b w2
  | Alt a b => shape a w \/ shape b w
  | Rep min max _ a =>
      exists ws, w = concat ws /\ Forall (shape a) ws /\ min <= length ws
                 /\ match max with Some k => length ws <= k | None => True end
  | Grp _ a => shape a w
  | Bref _ => True
  end.

End Re.

Import Re.

(** ** The conversion context *)

(** Values of an attribute object handed to [_populateAttributes]. *)
Inductive attr_value :=
| AStr (s : jsstring)
| ABool (b : bool)
| AArr (l : list jsstring)
| ANull.

(** A JavaScript object used as an ordered map: keys in insertion order. *)
Definition object (V : Type) := list (string * V).

Fixpoint obj_get {V} (k : string) (o : object V) : option V :=
  match o with
  | [] => None
  | (k', v) :: o' => if String.eqb k k' then Some v else obj_get k o'
  end.

(** [o[k] = v]: an existing key keeps its place, a new one goes last. *)
Fixpoint obj_set {V} (k : string) (v : V) (o : object V) : object V :=
  match o with
  | [] => [(k, v)]
  | (k', v') :: o' => if String.eqb k k' then (k, v) :: o' else (k', v') :: obj_set k v o'
  end.

Arguments obj_get {V} k%_string o.
Arguments obj_set {V} k%_string v o.

Definition attributes := object attr_value.

(** [showdown.Event] as the sub-parser uses it: [output] is [null] or a
    string, [regexp] is the pattern given to [setRegexp] (the three patterns
    given carry the flags [g] and [m]), [matches] maps names to captured
    texts ([None] is [undefined]).  The options and the globals an event
    also refers to are not shown to the listeners. *)
Record event := Event {
  ev_name : string;
  ev_input : jsstring;
  ev_output : option jsstring;
  ev_regexp : option regex;
  ev_matches : object (option jsstring);
  ev_attributes : attributes
}.

Arguments Event ev_name%_string ev_input ev_output ev_regexp ev_matches ev_attributes.

(** [e.output && e.output !== '']. *)
Definition supplied (o : option jsstring) : option jsstring :=
  match o with
  | Some (c :: s) => Some (c :: s)
  | _ => None
  end.

(** The output of an event where it is turned into a string (appended to,
    or returned from a replace callback): [null] reads [null]. *)
Definition output_string (e : event) : jsstring :=
  match ev_output e with
  | Some s => s
  | None => js "null"
  end.

Record Options := {
  tasklists : bool;
  moreStyling : bool;
  disableForced4SpacesIndentedSublists : bool
}.

(** [globals]: the nesting counter, and (for the proofs only) every value
    it has been given, most recent first. *)
Record globals := Globals {
  gListLevel : Z;
  history : list Z
}.

(** State and failure.  [None] is a thrown exception. *)
Definition M (A : Type) := globals -> option (A * globals).

Definition ret {A} (a : A) : M A := fun g => Some (a, g).
Definition bind {A B} (c : M A) (f : A -> M B) : M B :=
  fun g => match c g with
           | Some (a, g') => f a g'
           | None => None
           end.
Definition throw {A} : M A := fun _ => None.

Notation "x <- c ;; k" := (bind c (fun x => k))
  (at level 61, c at next level, right associativity).

(** Reading a value that must not be [undefined]. *)
Definition defined {A} (o : option A) : M A :=
  match o with
  | Some a => ret a
  | None => throw
  end.

Definition set_level (z : Z) : M unit :=
  fun g => Some (tt, Globals z (z :: history g)).

Definition get_level : M Z := fun g => Some (gListLevel g, g).

(** [s.replace(re, f)] with the [g] flag and an effectful callback: the
    matches are found first, then [f] runs on each in order. *)
Fixpoint replace_each (f : mres -> M jsstring) (l : list (jsstring * mres)) : M jsstring :=
  match l with
  | [] => ret []
  | (gap, m) :: l' =>
      r <- f m ;;
      rest <- replace_each f l' ;;
      ret (gap ++ r ++ rest)
  end.

Definition replace_gM (ml : bool) (r : regex) (f : mres -> M jsstring) (s : jsstring) : M jsstring :=
  let '(l, tl) := matches_g ml r s in
  out <- replace_each f l ;;
  ret (out ++ tl).

(** ** The patterns of list.js *)

Module Rgx.

Definition digit := Cls false [CDigit].
Definition blank := set (js " \t").
(* ([*+-]|\d+[.]) *)
Definition marker := Alt (set (js "*+-")) (Seq (plus digit) (set (js "."))).
(* (?![ \t]*(?:[*+-]|\d+[.])[ \t]+) *)
Definition not_marker_ahead := Look false (seq [star blank; marker; plus blank]).
(* (¨0|\n{2,}(?=\S)(?![ \t]*(?:[*+-]|\d+[.])[ \t]+)) *)
Definition block_end :=
  Alt (str (js "¨0"))
      (seq [at_least 2 (chr LF); Look true (Cls false [CNonSpace]); not_marker_ahead]).

(* /^(( {0,3}([*+-]|\d+[.])[ \t]+)[^\r]+?(¨0|\n{2,}(?=\S)(?![ \t]*(?:[*+-]|\d+[.])[ \t]+)))/gm *)
Definition subListRgx :=
  Seq Bol
      (Grp 1 (seq [Grp 2 (seq [fromto 0 3 (chr SP); Grp 3 marker; plus blank]);
                   plus_lazy (nset (js "\r"));
                   Grp 4 block_end])).

(* /(\n\n|^\n?)(( {0,3}([*+-]|\d+[.])[ \t]+)[^\r]+?(¨0|\n{2,}(?=\S)(?![ \t]*(?:[*+-]|\d+[.])[ \t]+)))/gm *)
Definition mainListRgx :=
  Seq (Grp 1 (Alt (str (js "\n\n")) (Seq Bol (opt (chr LF)))))
      (Grp 2 (seq [Grp 3 (seq [fromto 0 3 (chr SP); Grp 4 marker; plus blank]);
                   plus_lazy (nset (js "\r"));
                   Grp 5 block_end])).

(* /[*+-]/g *)
Definition listTypeRgx := set (js "*+-").

(* /¨0/ *)
Definition sentinelRgx := str (js "¨0").

(* /^[ \t]*\[([xX ])]/m *)
Definition checkboxRgx :=
  seq [Bol; star blank; chr 91%N; Grp 1 (set (js "xX ")); chr 93%N].

(* /\n{2,}$/ *)
Definition trailingBlankRgx := Seq (at_least 2 (chr LF)) Eol.

(* /(\n)?(^ {0,3})([*+-]|\d+[.])[ \t]+((\[([xX ])])?[ \t]*[^\r]+?(\n{1,2}))(?=\n*(¨0| {0,3}([*+-]|\d+[.])[ \t]+))/gm
   and, with disableForced4SpacesIndentedSublists, the same with \2 for the
   indentation inside the lookahead. *)
Definition itemRgx (legacy : bool) :=
  seq [opt (Grp 1 (chr LF));
       Grp 2 (Seq Bol (fromto 0 3 (chr SP)));
       Grp 3 marker;
       plus blank;
       Grp 4 (seq [opt (Grp 5 (seq [chr 91%N; Grp 6 (set (js "xX ")); chr 93%N]));
                   star blank;
                   plus_lazy (nset (js "\r"));
                   Grp 7 (fromto 1 2 (chr LF))]);
       Look true (seq [star (chr LF);
                       Grp 8 (Alt (str (js "¨0"))
                                  (seq [if legacy then Bref 2 else fromto 0 3 (chr SP);
                                        Grp 9 marker;
                                        plus blank]))])].

(* /\n[ \t]*\n(?!¨0)/ *)
Definition paragraphedRgx :=
  seq [chr LF; star blank; chr LF; Look false (str (js "¨0"))].

(* /^([-*+]|\d\.)[ \t]+[\S\n ]*/g *)
Definition leadingMarkerRgx :=
  seq [Bol;
       Grp 1 (Alt (set (js "-*+")) (Seq digit (chr 46%N)));
       plus blank;
       star (Cls false [CNonSpace; CLit LF; CLit SP])].

(* /^#+.+\n.+/ *)
Definition headingThenTextRgx :=
  seq [Bol; plus (chr 35%N); plus Dot; chr LF; plus Dot].

(* /^(#+.+)$/m *)
Definition headingLineRgx :=
  seq [Bol; Grp 1 (Seq (plus (chr 35%N)) (plus Dot)); Eol].

(* /\n{2,}/ *)
Definition blankLineRgx := at_least 2 (chr LF).

(* /^\n+/g and /\n+$/g *)
Definition leadingNewlinesRgx := Seq Bol (plus (chr LF)).
Definition trailingNewlinesRgx := Seq (plus (chr LF)) Eol.

(* /¨([KG])(\d+)\1/g *)
Definition htmlMarkerRgx :=
  seq [chr 168%N; Grp 1 (set (js "KG")); Grp 2 (plus digit); Bref 1].

(* /\S/ *)
Definition nonSpaceRgx := Cls false [CNonSpace].

(* ^ and one group holding the class [ \t] under a star; flag g *)
Definition leadingBlanksRgx := Seq Bol (Grp 1 (star blank)).

(* /\n$/ *)
Definition finalNewlineRgx := Seq (chr LF) Eol.

(* /\n\n+/g *)
Definition doubleNewlineRgx := Seq (chr LF) (plus (chr LF)).

(* /\s+$/ *)
Definition trailingSpaceRgx := Seq (plus (Cls false [CSpace])) Eol.

(* /^ *(\d+)\./ *)
Definition startNumberRgx :=
  seq [Bol; star (chr SP); Grp 1 (plus digit); chr 46%N].

(* /^ ?\d+\.[ \t]/gm and /^ {0,3}\d+\.[ \t]/gm *)
Definition olRgx (legacy : bool) :=
  seq [Bol; if legacy then opt (chr SP) else fromto 0 3 (chr SP);
       plus digit; chr 46%N; blank].

(* /^ ?[*+-][ \t]/gm and /^ {0,3}[*+-][ \t]/gm *)
Definition ulRgx (legacy : bool) :=
  seq [Bol; if legacy then opt (chr SP) else fromto 0 3 (chr SP);
       set (js "*+-"); blank].

End Rgx.

Import Rgx.

(** ** makehtml.list *)

Inductive list_type := Ul | Ol.

Definition tag (t : list_type) : jsstring :=
  match t with
  | Ul => js "ul"
  | Ol => js "ol"
  end.

(* (listType === 'ul') ? 'ol' : 'ul' *)
Definition flip (t : list_type) : list_type :=
  match t with
  | Ul => Ol
  | Ol => Ul
  end.

(* (m.search(listTypeRgx) > -1) ? 'ul' : 'ol' *)
Definition type_of_marker (m : jsstring) : list_type :=
  match search false listTypeRgx m with
  | Some _ => Ul
  | None => Ol
  end.

Definition truthy (o : option jsstring) : bool :=
  match o with
  | Some (_ :: _) => true
  | _ => false
  end.

Definition null_or (o : option jsstring) : attr_value :=
  match o with
  | Some s => AStr s
  | None => ANull
  end.

Definition checkbox_style : jsstring :=
  js "margin: 0px 0.35em 0.25em -1.6em; vertical-align: middle;".

(** What the sub-parser takes from its surroundings: the configuration,
    [globals.converter.dispatch] (the registered listeners applied to an
    event), the sibling sub-parsers (text to text), and the helpers
    [showdown.helper.outdent] and [showdown.helper._populateAttributes].
    Listeners and sibling sub-parsers are taken as functions of what they
    are handed: they leave [globals.gListLevel] as they found it.
    [codeBlock] is handed what the nested call of the list sub-parser
    returned, which is [null] when a listener of its end event says so. *)
Record Env := {
  options : Options;
  dispatch : event -> event;
  githubCodeBlock : jsstring -> jsstring;
  blockquote : jsstring -> jsstring;
  heading : jsstring -> jsstring;
  codeBlock : option jsstring -> jsstring;
  table : jsstring -> jsstring;
  hashHTMLBlocks : jsstring -> jsstring;
  paragraphs : jsstring -> jsstring;
  spanGamut : jsstring -> jsstring;
  outdent : jsstring -> jsstring;
  populateAttributes : attributes -> jsstring
}.

Section List.

Variable env : Env.

(** [showdown.helper.cloneObject] copies an object; values are immutable
    here, so the copy is the value. *)
Definition cloneObject (a : attributes) : attributes := a.

Definition legacy : bool := disableForced4SpacesIndentedSublists (options env).

(** The item pattern [rgx] of [processListItems], as the option leaves it. *)
Definition rgx : regex := itemRgx legacy.

(** Default rendering of the checkbox, from the event's attributes. *)
Definition checkbox_default (attributes : attributes) : jsstring :=
  js "<input" ++ populateAttributes env attributes ++ js ">".

(** The callback of [item.replace(checkboxRgx, ...)]. *)
Definition checkbox (pattern : regex) (item : jsstring) (checked : bool) (m : mres)
  : jsstring :=
  let wm := m_whole m in
  let checkedRaw := m_group m 1 in
  let attributes :=
    [("type", AStr (js "checkbox"));
     ("disabled", ABool true);
     ("style", AStr checkbox_style);
     ("checked", ABool checked)]%string in
  let captureStartEvent :=
    dispatch env (Event "makehtml.list.taskListItem.checkbox.onCapture" item None
                (Some pattern)
                [("_wholeMatch", Some item);
                 ("_tasklistButton", Some wm);
                 ("_taksListButtonChecked", checkedRaw)]%string
                attributes) in
  let otp :=
    match supplied (ev_output captureStartEvent) with
    | Some o => o
    | None => checkbox_default (ev_attributes captureStartEvent)
    end in
  let beforeHashEvent :=
    dispatch env (Event "makehtml.list.taskListItem.checkbox.onHash" otp (Some otp)
                None [] []) in
  output_string beforeHashEvent.

Definition processTaskListItem (pattern : regex) (item : jsstring) (checked : bool)
  : jsstring :=
  replace1 true checkboxRgx (checkbox pattern item checked) item.

(** The copy of the paragraph parser inside the multi-paragraph branch:
    one candidate, then all of them. *)
Definition wrap_graf (str : jsstring) : list jsstring :=
  match search false htmlMarkerRgx str with
  | Some _ => [str]
  | None =>
      match search false nonSpaceRgx str with
      | Some _ =>
          let str := spanGamut env str in
          let str := replace_g false leadingBlanksRgx (fun _ => js "<p>") str in
          [str ++ js "</p>"]
      | None => []
      end
  end.

Definition strip_lines (item : jsstring) : jsstring :=
  let item := replace_g false leadingNewlinesRgx (fun _ => []) item in
  replace_g false trailingNewlinesRgx (fun _ => []) item.

Definition wrap_paragraphs (item : jsstring) : jsstring :=
  let item := strip_lines item in
  let grafs := split false blankLineRgx item in
  let grafsOut := flat_map wrap_graf grafs in
  let item := join (js "\n") grafsOut in
  strip_lines item.

(** ISSUE #312: the marker put before a leading list marker. *)
Definition guard_marker (item : jsstring) : jsstring :=
  replace_g false leadingMarkerRgx (fun m => js "¨A" ++ m_whole m) item.

(** The heading followed by text that no blank line separates. *)
Definition guard_heading (item : jsstring) : jsstring :=
  if test false headingThenTextRgx item
  then replace1 true headingLineRgx
         (fun m => match m_group m 1 with Some g => g | None => [] end ++ js "\n")
         item
  else item.

(* m1 || (item.search(/\n{2,}/) > -1) *)
Definition multi_paragraph (m1 : option jsstring) (item : jsstring) : bool :=
  truthy m1 || match search false blankLineRgx item with
               | Some _ => true
               | None => false
               end.

Definition render_loose (self : jsstring -> M (option jsstring)) (item : jsstring) : M jsstring :=
  let item := githubCodeBlock env item in
  let item := blockquote env item in
  let item := heading env item in
  item <- self item ;;
  let item := codeBlock env item in
  let item := table env item in
  let item := hashHTMLBlocks env item in
  ret (wrap_paragraphs item).

Definition render_tight (self : jsstring -> M (option jsstring)) (isParagraphed : bool)
    (item : jsstring) : M jsstring :=
  item <- self item ;;
  item <- defined item ;;
  let item := replace1 false finalNewlineRgx (fun _ => []) item in
  let item := hashHTMLBlocks env item in
  let item := replace_g false doubleNewlineRgx (fun _ => js "\n\n") item in
  ret (if isParagraphed then paragraphs env item else spanGamut env item).

(** From the marker guard to the removal of the marker: what becomes the
    content of the [<li>]. *)
Definition item_body (self : jsstring -> M (option jsstring)) (isParagraphed : bool)
    (m1 : option jsstring) (item : jsstring) : M jsstring :=
  let item := guard_marker item in
  let item := guard_heading item in
  item <- (if multi_paragraph m1 item
           then render_loose self item
           else render_tight self isParagraphed item) ;;
  ret (replace_str (js "¨A") [] item).

(** The branch of the item callback taken when no hook supplied the item:
    [attributes] and [item] come back from the capture event. *)
Definition item_default (self : jsstring -> M (option jsstring)) (isParagraphed : bool)
    (m1 : option jsstring) (checked : bool) (attributes : attributes)
    (item : jsstring) : M jsstring :=
  let item :=
    if tasklists (options env) then processTaskListItem rgx item checked else item in
  item <- item_body self isParagraphed m1 item ;;
  ret (js "<li" ++ populateAttributes env attributes ++ js ">" ++ item ++ js "</li>\n").

(* checked = (checkedRaw && checkedRaw.trim() !== '') *)
Definition is_checked (checkedRaw : option jsstring) : bool :=
  match checkedRaw with
  | Some (c :: s) => negb (str_eqb (trim (c :: s)) [])
  | _ => false
  end.

Definition task_attributes (checked : bool) : attributes :=
  [("classes",
    AArr (js "task-list-item" ::
          if moreStyling (options env) && checked
          then [js "task-list-item-complete"] else []));
   ("style", AStr (js "list-style-type: none;"))]%string.

Definition item_event (is_task : bool) (wholeMatch item : jsstring)
    (taskbtn checkedRaw : option jsstring) (checked : bool) : event :=
  let attributes := if is_task then task_attributes checked else [] in
  let eventName :=
    (if is_task then "makehtml.list.taskListItem" else "makehtml.list.listItem")%string in
  let matches : object (option jsstring) :=
    (if is_task
     then [("_wholeMatch", Some wholeMatch); ("listItem", Some item);
           ("_taskListButton", taskbtn); ("_taskListButtonChecked", checkedRaw)]
     else [("_wholeMatch", Some wholeMatch); ("listItem", Some item)])%string in
  Event (eventName ++ ".onCapture") item None (Some rgx) matches attributes.

(* captureStartEvent.matches.listItem *)
Definition listItem_of (e : event) : option jsstring :=
  match obj_get "listItem" (ev_matches e) with
  | Some v => v
  | None => None
  end.

(** The callback of [listStr.replace(rgx, ...)] in [processListItems];
    [self] is [showdown.subParser('makehtml.list')]. *)
Definition listItem (self : jsstring -> M (option jsstring)) (isParagraphed : bool)
    (m : mres) : M jsstring :=
  let wholeMatch := m_whole m in
  let m1 := m_group m 1 in
  let taskbtn := m_group m 5 in
  let checkedRaw := m_group m 6 in
  m4 <- defined (m_group m 4) ;;
  let item := outdent env m4 in
  let checked := is_checked checkedRaw in
  let is_task := truthy taskbtn && tasklists (options env) in
  let eventName :=
    (if is_task then "makehtml.list.taskListItem" else "makehtml.list.listItem")%string in
  let captureStartEvent :=
    dispatch env (item_event is_task wholeMatch item taskbtn checkedRaw checked) in
  item <-
    match supplied (ev_output captureStartEvent) with
    | Some o => ret o
    | None =>
        let attributes := ev_attributes captureStartEvent in
        item <- defined (listItem_of captureStartEvent) ;;
        item_default self isParagraphed m1 checked attributes item
    end ;;
  let beforeHashEvent :=
    dispatch env (Event (eventName ++ ".onHash") item (Some item) None [] []) in
  ret (output_string beforeHashEvent).

Definition processListItems (self : jsstring -> M (option jsstring)) (listStr : jsstring)
    (trimTrailing : bool) : M jsstring :=
  l <- get_level ;;
  _ <- set_level (l + 1) ;;
  let listStr := replace1 false trailingBlankRgx (fun _ => js "\n") listStr in
  let listStr := listStr ++ js "¨0" in
  let isParagraphed := test false paragraphedRgx listStr in
  listStr <- replace_gM true rgx (listItem self isParagraphed) listStr ;;
  let listStr := replace_g false sentinelRgx (fun _ => []) listStr in
  l <- get_level ;;
  _ <- set_level (l - 1) ;;
  ret (if trimTrailing
       then replace1 false trailingSpaceRgx (fun _ => []) listStr
       else listStr).

Definition styleStartNumber (list : jsstring) (listType : list_type) : option jsstring :=
  match listType with
  | Ol =>
      match exec false startNumberRgx list with
      | Some res =>
          match m_group res 1 with
          | Some n => if negb (str_eqb n (js "1")) then Some n else None
          | None => None
          end
      | None => None
      end
  | Ul => None
  end.

(* (listType === 'ul') ? olRgx : ulRgx *)
Definition counterRxg (listType : list_type) : regex :=
  match listType with
  | Ul => olRgx legacy
  | Ol => ulRgx legacy
  end.

Definition container (listType : list_type) (attrs : attributes) (items : jsstring) : jsstring :=
  js "\n\n<" ++ tag listType ++ populateAttributes env attrs ++ js ">\n"
  ++ items ++ js "</" ++ tag listType ++ js ">\n".

(** The inner function [parseCL]; its free variables [otp], [listType] and
    [attrs] are passed along, [counterRxg] follows [listType].  [depth] is
    the call-stack budget. *)
Fixpoint parseCL (depth : nat) (self : jsstring -> M (option jsstring)) (list : jsstring)
    (trimTrailing : bool) (otp : jsstring) (listType : list_type)
    (attrs : attributes) (txt : jsstring) : M jsstring :=
  match depth with
  | O => throw
  | S depth' =>
      let pos := search true (counterRxg listType) txt in
      let attrs := obj_set "start" (null_or (styleStartNumber list listType)) attrs in
      match pos with
      | Some pos =>
          items <- processListItems self (firstn pos txt) trimTrailing ;;
          let otp := otp ++ container listType attrs items in
          let listType := flip listType in
          parseCL depth' self list trimTrailing otp listType attrs (skipn pos txt)
      | None =>
          items <- processListItems self txt trimTrailing ;;
          ret (otp ++ container listType attrs items)
      end
  end.

(** The branch of [parseConsecutiveLists] taken when no hook supplied the
    container: [attributes] comes back from the capture event. *)
Definition run_default (depth : nat) (self : jsstring -> M (option jsstring))
    (list : jsstring) (listType : list_type) (trimTrailing : bool)
    (attributes : attributes) : M jsstring :=
  let attrs := cloneObject attributes in
  match search true (counterRxg listType) list with
  | Some _ => parseCL depth self list trimTrailing [] listType attrs list
  | None =>
      let attrs := obj_set "start" (null_or (styleStartNumber list listType)) attrs in
      items <- processListItems self list trimTrailing ;;
      ret (container listType attrs items)
  end.

Definition run_event (pattern : regex) (list : jsstring) : event :=
  Event "makehtml.list.onCapture" list None (Some pattern)
    [("_wholeMatch", Some list); ("list", Some list)]%string [].

Definition parseConsecutiveLists (depth : nat) (self : jsstring -> M (option jsstring))
    (pattern : regex) (list : jsstring) (listType : list_type) (trimTrailing : bool)
  : M jsstring :=
  let captureStartEvent := dispatch env (run_event pattern list) in
  let attributes := ev_attributes captureStartEvent in
  match supplied (ev_output captureStartEvent) with
  | Some o => ret o
  | None => run_default depth self list listType trimTrailing attributes
  end.

(** The body of the sub-parser; [depth] bounds the calls still available
    on the stack and [self] is the sub-parser one call deeper.  The result
    is the output of the end event as it is, [null] included. *)
Definition list_body (depth : nat) (self : jsstring -> M (option jsstring)) (text : jsstring)
  : M (option jsstring) :=
  let startEvent :=
    dispatch env (Event "makehtml.list.onStart" text (Some text) None [] []) in
  let text := output_string startEvent in
  let text := text ++ js "¨0" in
  level <- get_level ;;
  text <-
    (if negb (Z.eqb level 0)
     then replace_gM true subListRgx (fun m =>
            list <- defined (m_group m 1) ;;
            m2 <- defined (m_group m 2) ;;
            parseConsecutiveLists depth self subListRgx list (type_of_marker m2) true) text
     else replace_gM true mainListRgx (fun m =>
            list <- defined (m_group m 2) ;;
            m3 <- defined (m_group m 3) ;;
            parseConsecutiveLists depth self mainListRgx list (type_of_marker m3) false) text) ;;
  let text := replace1 false sentinelRgx (fun _ => []) text in
  let afterEvent :=
    dispatch env (Event "makehtml.list.onEnd" text (Some text) None [] []) in
  ret (ev_output afterEvent).

Fixpoint makehtml_list (depth : nat) (text : jsstring) : M (option jsstring) :=
  match depth with
  | O => throw
  | S depth' => list_body depth' (makehtml_list depth') text
  end.

End List.

(** ** Words of the specification *)

Definition is_bullet (c : char) : bool := ceqb c 42 || ceqb c 43 || ceqb c 45.
Definition is_blank (c : char) : bool := ceqb c 32 || ceqb c 9.

Fixpoint after_digits (s : jsstring) : jsstring :=
  match s with
  | c :: s' => if is_digit c then after_digits s' else s
  | [] => []
  end.

Definition starts_blank (s : jsstring) : bool :=
  match s with
  | c :: _ => is_blank c
  | [] => false
  end.

(** A bullet, or digits and a period, followed by a space or a tab. *)
Definition marker_here (s : jsstring) : bool :=
  match s with
  | c :: s' =>
      if is_bullet c then starts_blank s'
      else if is_digit c then
        match after_digits s' with
        | d :: u => ceqb d 46 && starts_blank u
        | [] => false
        end
      else false
  | [] => false
  end.

(** The same within [n] leading spaces. *)
Fixpoint marker_within (n : nat) (s : jsstring) : bool :=
  marker_here s ||
  match n, s with
  | S n', c :: s' => ceqb c 32 && marker_within n' s'
  | _, _ => false
  end.

(** Some line of the text starts with a list marker within three leading
    spaces; [bol] tells whether the text itself starts a line. *)
Fixpoint marker_line_from (bol : bool) (s : jsstring) : bool :=
  (bol && marker_within 3 s) ||
  match s with
  | c :: s' => marker_line_from (is_line_terminator c) s'
  | [] => false
  end.

Definition has_marker_line (s : jsstring) : bool := marker_line_from true s.

(** [pat] occurs somewhere in [s]. *)
Fixpoint occurs (pat s : jsstring) : bool :=
  is_prefix pat s ||
  match s with
  | _ :: s' => occurs pat s'
  | [] => false
  end.

(** The text without its leading spaces and tabs. *)
Fixpoint drop_blanks (s : jsstring) : jsstring :=
  match s with
  | c :: s' => if is_blank c then drop_blanks s' else s
  | [] => []
  end.

Fixpoint take_blanks (s : jsstring) : jsstring :=
  match s with
  | c :: s' => if is_blank c then c :: take_blanks s' else []
  | [] => []
  end.

(** The text holds a placeholder of an already rendered block. *)
Definition is_opaque (s : jsstring) : bool :=
  match search false htmlMarkerRgx s with
  | Some _ => true
  | None => false
  end.

(** An empty line inside the text: two line feeds in a row. *)
Definition has_blank_line (s : jsstring) : bool := occurs [LF; LF] s.

(** The text begins with a line feed. *)
Definition starts_lf (s : jsstring) : bool :=
  match s with
  | c :: _ => ceqb c 10
  | [] => false
  end.

(** The sentinel, as code units. *)
Definition Z0 : jsstring := [168%N; 48%N].

(** The counter is back at the value it had in [g] and was never below it
    in between. *)
Definition restored (g g' : globals) : Prop :=
  gListLevel g' = gListLevel g /\
  exists h, history g' = h ++ history g
            /\ Forall (fun v => (gListLevel g <= v)%Z) h.

(** From [g] the counter was raised by one, stayed at or above that, and
    was lowered by one as the last change. *)
Definition bracketed (g g' : globals) : Prop :=
  gListLevel g' = gListLevel g /\
  exists h, history g' = gListLevel g :: h ++ (gListLevel g + 1)%Z :: history g
            /\ Forall (fun v => (gListLevel g + 1 <= v)%Z) h.

(** Every successful run of [c] restores the counter. *)
Definition preserves {A} (c : M A) : Prop :=
  forall g a g', c g = Some (a, g') -> restored g g'.

(** The pattern of the opposite kind. *)
Definition counter_of (legacy : bool) (t : list_type) : regex :=
  match t with
  | Ul => olRgx legacy
  | Ol => ulRgx legacy
  end.

(** The runs of a captured block: the text up to the first line that starts
    with a marker of the opposite kind is one run of the current kind; the
    kind flips and the remainder is cut in the same way. *)
Fixpoint runs (legacy : bool) (fuel : nat) (t : list_type) (txt : jsstring)
  : list (list_type * jsstring) :=
  match fuel with
  | O => [(t, txt)]
  | S fuel' =>
      match search true (counter_of legacy t) txt with
      | Some p => (t, firstn p txt) :: runs legacy fuel' (flip t) (skipn p txt)
      | None => [(t, txt)]
      end
  end.

(** Kinds that alternate, starting with [t]. *)
Fixpoint alternating (t : list_type) (l : list list_type) : Prop :=
  match l with
  | [] => True
  | t' :: l' => t' = t /\ alternating (flip t) l'
  end.

(** One sibling container per run, in order, each around the items of its
    own run only. *)
Fixpoint emit (env : Env) (self : jsstring -> M (option jsstring)) (trimTrailing : bool)
    (block : jsstring) (attrs : attributes) (rs : list (list_type * jsstring))
  : M jsstring :=
  match rs with
  | [] => ret []
  | (t, s) :: rs' =>
      items <- processListItems env self s trimTrailing ;;
      rest <- emit env self trimTrailing block attrs rs' ;;
      ret (container env t
             (obj_set "start" (null_or (styleStartNumber block t)) attrs) items
           ++ rest)
  end.

(** The first code unit after the leading spaces. *)
Fixpoint first_after_spaces (s : jsstring) : option char :=
  match s with
  | c :: s' => if ceqb c 32 then first_after_spaces s' else Some c
  | [] => None
  end.

(** [w] is a piece of [s]. *)
Definition substring (w s : jsstring) : Prop := exists a b, s = a ++ w ++ b.

(** Every capture is a piece of [T]. *)
Definition caps_in (T : jsstring) (c : captures) : Prop :=
  forall n s, c n = Some s -> substring s T.

Definition starts_uml (s : jsstring) : bool :=
  match s with
  | c :: _ => ceqb c 168
  | [] => false
  end.

(** What decreases along the self-recursion: the length, and within one
    length whether the text starts with the escape character. *)
Definition measure (s : jsstring) : nat :=
  2 * length s + (if starts_uml s then 0 else 1).

(** [c] returns, whatever the state. *)
Definition total {A} (c : M A) : Prop := forall g, exists a g', c g = Some (a, g').

(** [c] returns a string, whatever the state. *)
Definition returns_string (c : M (option jsstring)) : Prop :=
  forall g, exists s g', c g = Some (Some s, g').

(** A stand-in for the sub-parser that accepts only texts shorter than [n]
    and hands them back. *)
Definition only_shorter (n : nat) (s : jsstring) : M (option jsstring) :=
  if Nat.ltb (length s) n then ret (Some s) else throw.

(** ** An environment for the examples *)

(** Modelled from the spec: [showdown.helper.outdent] is not part of
    list.js.  "Each matched item body is outdented (its common leading
    indentation removed)": one level, a tab or up to four spaces, is taken
    from the start of every line. *)
Definition sample_outdent (text : jsstring) : jsstring :=
  replace_g true (Seq Bol (Alt (chr TAB) (fromto 1 4 (chr SP)))) (fun _ => []) text.

(** Modelled from the spec: [showdown.helper._populateAttributes] is not
    part of list.js.  "An ordered mapping of attribute name to value
    (classes, inline style, disabled/checked booleans for checkboxes, start
    for ordinal lists) consumed when serializing an element's opening tag;
    insertion order is preserved in output": a string gives [ name="value"],
    the class list gives [ class="a b"], a true boolean gives [ name], and
    [false] and [null] give nothing. *)
Definition sample_attribute (kv : string * attr_value) : jsstring :=
  match snd kv with
  | AStr s => js " " ++ js (fst kv) ++ js "=\q" ++ s ++ js "\q"
  | ABool true => js " " ++ js (fst kv)
  | ABool false => []
  | AArr l => js " class=\q" ++ join (js " ") l ++ js "\q"
  | ANull => []
  end.

Definition sample_populateAttributes (a : attributes) : jsstring :=
  flat_map sample_attribute a.

(** No listener is registered, and no sibling sub-parser finds anything to
    rewrite in the text (the paragraph parser wraps it). *)
Definition sample_env (o : Options) : Env := {|
  options := o;
  dispatch := fun e => e;
  githubCodeBlock := fun s => s;
  blockquote := fun s => s;
  heading := fun s => s;
  codeBlock := fun o => match o with Some s => s | None => js "null" end;
  table := fun s => s;
  hashHTMLBlocks := fun s => s;
  paragraphs := fun s => js "<p>" ++ s ++ js "</p>";
  spanGamut := fun s => s;
  outdent := sample_outdent;
  populateAttributes := sample_populateAttributes
|}.

Definition defaults : Options := Build_Options false false false.
Definition with_tasklists : Options := Build_Options true false false.

Definition fresh : globals := Globals 0 [].

(** [env] with other listeners. *)
Definition with_dispatch (env : Env) (d : event -> event) : Env := {|
  options := options env;
  dispatch := d;
  githubCodeBlock := githubCodeBlock env;
  blockquote := blockquote env;
  heading := heading env;
  codeBlock := codeBlock env;
  table := table env;
  hashHTMLBlocks := hashHTMLBlocks env;
  paragraphs := paragraphs env;
  spanGamut := spanGamut env;
  outdent := outdent env;
  populateAttributes := populateAttributes env
|}.

(** A listener on the capture of a run and of a checkbox that leaves the
    output alone and replaces every matched text by [other]. *)
Definition rewrite_matches (other : jsstring) (e : event) : event :=
  if String.eqb (ev_name e) "makehtml.list.onCapture"
     || String.eqb (ev_name e) "makehtml.list.taskListItem.checkbox.onCapture"
  then Event (ev_name e) (ev_input e) (ev_output e) (ev_regexp e)
         (map (fun kv => (fst kv, Some other)) (ev_matches e)) (ev_attributes e)
  else e.

(** The listeners of [rewrite_matches] on the environment of the examples,
    with task lists on. *)
Definition hooked_env : Env :=
  with_dispatch (sample_env with_tasklists) (rewrite_matches (js "- z\n")).

(** The item match of the run [- [x] done]. *)
Definition sample_item_match : mres :=
  match exec true (itemRgx false) (js "- [x] done\n¨0") with
  | Some m => m
  | None => MRes 0 [] no_captures
  end.

(** Where the item pattern matches next after the first item of the run
    [- a], three line feeds, [- b]. *)
Definition sample_loose_match : mstate * mstate :=
  match scan true (itemRgx false) (rev (js "- a\n\n")) (js "\n- b\n¨0") with
  | Some p => p
  | None => (MState [] [] no_captures, MState [] [] no_captures)
  end.

(** ** Words of the further properties *)

(** The longest prefix whose code units satisfy [p], and what follows it. *)
Fixpoint take_while (p : char -> bool) (s : jsstring) : jsstring :=
  match s with
  | c :: s' => if p c then c :: take_while p s' else []
  | [] => []
  end.

Fixpoint drop_while (p : char -> bool) (s : jsstring) : jsstring :=
  match s with
  | c :: s' => if p c then drop_while p s' else s
  | [] => []
  end.

(** The code unit belongs to the class. *)
Definition cls_ok (neg : bool) (items : list citem) (c : char) : bool :=
  xorb neg (existsb (in_item c) items).

(** At least [n] of a class, up to the end of the text. *)
Definition run_end (n : nat) (neg : bool) (items : list citem) : regex :=
  Seq (Rep n None true (Cls neg items)) Eol.

(** The text ends with a line feed. *)
Definition ends_lf (s : jsstring) : bool :=
  match rev s with
  | c :: _ => ceqb c 10
  | [] => false
  end.

(** Some line of the text has the property [P]; [bol] tells whether the
    text itself starts a line. *)
Fixpoint line_from (P : jsstring -> bool) (bol : bool) (s : jsstring) : bool :=
  (bol && P s) ||
  match s with
  | c :: s' => line_from P (is_line_terminator c) s'
  | [] => false
  end.

(** After spaces and tabs comes a checkbox token. *)
Definition checkbox_here (s : jsstring) : bool :=
  match drop_blanks s with
  | a :: c :: b :: _ =>
      ceqb a 91 && (ceqb c 120 || ceqb c 88 || ceqb c 32) && ceqb b 93
  | _ => false
  end.

(** Some line of the text starts, after spaces and tabs, with a checkbox
    token. *)
Definition has_checkbox_line (s : jsstring) : bool := line_from checkbox_here true s.

(** The text starts with a bullet, or with one digit and a period, followed
    by a space or a tab. *)
Definition marker_lead (s : jsstring) : bool :=
  match s with
  | c :: s' =>
      if is_bullet c then starts_blank s'
      else is_digit c && match s' with
                         | d :: u => ceqb d 46 && starts_blank u
                         | [] => false
                         end
  | [] => false
  end.

(** [self], refused when the counter is not above [n]. *)
Definition above (n : Z) (self : jsstring -> M (option jsstring))
  : jsstring -> M (option jsstring) :=
  fun s g => if (n <? gListLevel g)%Z then self s g else None.

(** The pattern with its groups numbered alike. *)
Fixpoint erase (r : regex) : regex :=
  match r with
  | Seq a b => Seq (erase a) (erase b)
  | Alt a b => Alt (erase a) (erase b)
  | Rep min max g a => Rep min max g (erase a)
  | Grp _ a => Grp 0 (erase a)
  | Look p a => Look p (erase a)
  | _ => r
  end.

(** No backreference. *)
Fixpoint bref_free (r : regex) : bool :=
  match r with
  | Seq a b | Alt a b => bref_free a && bref_free b
  | Rep _ _ _ a | Grp _ a | Look _ a => bref_free a
  | Bref _ => false
  | _ => true
  end.

(** Where a state stands in the input. *)
Definition place (x : mstate) : jsstring * jsstring := (before x, after x).

(** The pattern matches somewhere in the text. *)
Definition finds (r : regex) (t : jsstring) : bool :=
  match scan true r [] t with
  | Some _ => true
  | None => false
  end.

(** What the two boundary patterns have after their start: the same
    pattern, with other group numbers. *)
Definition bodySub : regex :=
  seq [Grp 2 (seq [fromto 0 3 (chr SP); Grp 3 marker; plus blank]);
       plus_lazy (nset (js "\r"));
       Grp 4 block_end].

Definition bodyMain : regex :=
  seq [Grp 3 (seq [fromto 0 3 (chr SP); Grp 4 marker; plus blank]);
       plus_lazy (nset (js "\r"));
       Grp 5 block_end].

(** The kind the first marker of a block stands for. *)
Definition kind_of_first (l : jsstring) : list_type :=
  match first_after_spaces l with
  | Some c => if is_bullet c then Ul else Ol
  | None => Ol
  end.

(** Not a line terminator: what [.] matches. *)
Definition not_lt (c : char) : bool := negb (is_line_terminator c).

(** The first line is a [#], then at least one more character, and the
    line after it starts right after one line feed with a character. *)
Definition heading_then_text (s : jsstring) : bool :=
  match s with
  | c :: _ =>
      ceqb c 35 && Nat.leb 2 (length (take_while not_lt s))
      && match drop_while not_lt s with
         | a :: b :: _ => ceqb a 10 && not_lt b
         | _ => false
         end
  | [] => false
  end.

Definition line_terminators : list citem :=
  [CLit 10%N; CLit 13%N; CLit 8232%N; CLit 8233%N].

(** A line feed. *)
Definition is_lf (c : char) : bool := ceqb c 10.

(** Some suffix of the text has the property [P]. *)
Fixpoint any_suffix (P : jsstring -> bool) (s : jsstring) : bool :=
  P s ||
  match s with
  | _ :: s' => any_suffix P s'
  | [] => false
  end.

(** A line feed, spaces and tabs, a line feed, and then not the sentinel. *)
Definition empty_line_here (s : jsstring) : bool :=
  match s with
  | a :: t =>
      ceqb a 10 && match drop_blanks t with
                   | b :: u => ceqb b 10 && negb (is_prefix Z0 u)
                   | [] => false
                   end
  | [] => false
  end.

(** The block of the text [3. a], indented by two spaces, as the top-level
    pattern finds it. *)
Definition sample_block_match : mstate * mstate :=
  match scan true mainListRgx [] (js "  3. a\n¨0") with
  | Some p => p
  | None => (MState [] [] no_captures, MState [] [] no_captures)
  end.

(** * Properties *)

(** ** The matcher *)

Module ReFacts.

Lemma steps_refl x : steps x x [].
Proof. split; reflexivity. Qed.

Lemma steps_trans x y z w1 w2 :
  steps x y w1 -> steps y z w2 -> steps x z (w1 ++ w2).
Proof.
  intros [A1 B1] [A2 B2]. split.
  - rewrite A1, A2, app_assoc. reflexivity.
  - rewrite B2, B1, rev_app_distr, app_assoc. reflexivity.
Qed.

Lemma steps_same_position x x' y w :
  before x' = before x -> after x' = after x -> steps x' y w -> steps x y w.
Proof. unfold steps. intros -> ->. trivial. Qed.

Lemma steps_length x y w :
  steps x y w -> length (after x) = length w + length (after y).
Proof. intros [A _]. rewrite A, length_app. reflexivity. Qed.

Lemma steps_input x y w :
  steps x y w -> rev (before y) ++ after y = rev (before x) ++ after x.
Proof.
  intros [A B]. rewrite B, A, rev_app_distr, rev_involutive, <- app_assoc.
  reflexivity.
Qed.

Lemma between_steps x y w : steps x y w -> between x y = w.
Proof.
  intros [_ B]. unfold between. rewrite B, length_app, length_rev.
  replace (length w + length (before x) - length (before x)) with (length (rev w)) by (rewrite length_rev; lia).
  rewrite firstn_app, Nat.sub_diag, firstn_all. simpl.
  rewrite app_nil_r. apply rev_involutive.
Qed.

Lemma advance_steps w : forall x s,
  after x = w ++ s ->
  steps x (advance (length w) x) w /\ after (advance (length w) x) = s
  /\ caps (advance (length w) x) = caps x.
Proof.
  induction w as [|c w IH]; intros x s A; simpl.
  - destruct (after x); simpl in *; subst; repeat split; reflexivity.
  - rewrite A. simpl.
    destruct (IH (MState (c :: before x) (w ++ s) (caps x)) s eq_refl) as (S1 & S2 & S3).
    repeat split; trivial.
    + rewrite S2. exact A.
    + destruct S1 as [_ S1]. rewrite S1. simpl. rewrite <- app_assoc. reflexivity.
Qed.

Lemma advance_one x c s :
  after x = c :: s ->
  advance 1 x = MState (c :: before x) s (caps x).
Proof. intros A. simpl. rewrite A. destruct s; reflexivity. Qed.

Lemma rep_shape (step : mstate -> list mstate) (P : jsstring -> Prop) gs greedy :
  (forall x y, In y (step x) -> exists w, steps x y w /\ P w) ->
  forall fuel min max x y,
    match max with Some k => min <= k | None => True end ->
    In y (rep step gs greedy fuel min max x) ->
    exists ws, steps x y (concat ws) /\ Forall P ws /\ min <= length ws
               /\ match max with Some k => length ws <= k | None => True end.
Proof.
  intros Hstep. induction fuel as [|fuel IH]; intros min max x y Hb Hin; simpl in Hin.
  - contradiction.
  - assert (Hx : min = 0 -> y = x ->
                 exists ws, steps x y (concat ws) /\ Forall P ws /\ min <= length ws
                   /\ match max with Some k => length ws <= k | None => True end).
    { intros -> ->. exists []. simpl. split; [apply steps_refl|].
      split; [constructor|]. split; [lia|]. destruct max; simpl; auto with arith. }
    assert (Hit : In y (flat_map (fun y0 =>
                   if Nat.eqb min 0 && Nat.eqb (length (after y0)) (length (after x))
                   then [] else rep step gs greedy fuel (pred min) (option_map pred max) y0)
                   (step (MState (before x) (after x) (clear_caps gs (caps x))))) ->
                 max <> Some 0 ->
                 exists ws, steps x y (concat ws) /\ Forall P ws /\ min <= length ws
                   /\ match max with Some k => length ws <= k | None => True end).
    { intros Hi Hm. apply in_flat_map in Hi. destruct Hi as (y1 & Hy1 & Hi).
      destruct (Nat.eqb min 0 && Nat.eqb (length (after y1)) (length (after x))); [contradiction|].
      apply Hstep in Hy1. destruct Hy1 as (w1 & S1 & P1).
      apply IH in Hi.
      - destruct Hi as (ws & S2 & F & L1 & L2).
        exists (w1 :: ws). simpl. split; [|split; [|split]].
        + eapply steps_same_position with (x' := MState (before x) (after x) (clear_caps gs (caps x))); try reflexivity.
          eapply steps_trans; eauto.
        + constructor; assumption.
        + lia.
        + destruct max as [[|k]|]; simpl in *; try lia; congruence.
      - destruct max as [[|k]|]; simpl in *; try lia; congruence. }
    destruct max as [[|k]|].
    + destruct Hin as [<-|[]]. exists []. simpl. split; [apply steps_refl|].
      split; [constructor|]. split; lia.
    + destruct (Nat.eqb min 0) eqn:E; simpl in Hin.
      * apply Nat.eqb_eq in E.
        destruct greedy; [apply in_app_or in Hin; destruct Hin as [Hin|[<-|[]]]|destruct Hin as [<-|Hin]];
          try (apply Hx; auto; fail); apply Hit; auto; congruence.
      * apply Hit; auto; congruence.
    + destruct (Nat.eqb min 0) eqn:E; simpl in Hin.
      * apply Nat.eqb_eq in E.
        destruct greedy; [apply in_app_or in Hin; destruct Hin as [Hin|[<-|[]]]|destruct Hin as [<-|Hin]];
          try (apply Hx; auto; fail); apply Hit; auto; congruence.
      * apply Hit; auto; congruence.
Qed.

Lemma in_seq ml a b x z :
  In z (rmatch ml (Seq a b) x) <->
  exists y, In y (rmatch ml a x) /\ In z (rmatch ml b y).
Proof. simpl. apply in_flat_map. Qed.

Lemma in_alt ml a b x z :
  In z (rmatch ml (Alt a b) x) <-> In z (rmatch ml a x) \/ In z (rmatch ml b x).
Proof. simpl. apply in_app_iff. Qed.

Lemma in_grp ml n a x y :
  In y (rmatch ml (Grp n a) x) ->
  exists y0, In y0 (rmatch ml a x) /\ before y = before y0 /\ after y = after y0
             /\ caps y = set_cap n (between x y0) (caps y0).
Proof.
  simpl. intros H. apply in_map_iff in H. destruct H as (y0 & <- & H).
  exists y0. auto.
Qed.

Lemma in_cls ml neg items x y :
  In y (rmatch ml (Cls neg items) x) ->
  exists c, after x = c :: after y /\ before y = c :: before x /\ caps y = caps x
            /\ xorb neg (existsb (in_item c) items) = true.
Proof.
  cbn [rmatch]. destruct (after x) as [|c s] eqn:A; [contradiction|].
  destruct (xorb neg (existsb (in_item c) items)) eqn:E; [|contradiction].
  intros [<-|[]]. rewrite (advance_one x c s A). simpl. exists c. auto.
Qed.

Lemma in_bol ml x y : In y (rmatch ml Bol x) -> y = x /\ at_bol ml x = true.
Proof. simpl. destruct (at_bol ml x); [intros [<-|[]]; auto|contradiction]. Qed.

Lemma in_eol ml x y : In y (rmatch ml Eol x) -> y = x /\ at_eol ml x = true.
Proof. simpl. destruct (at_eol ml x); [intros [<-|[]]; auto|contradiction]. Qed.

Lemma rmatch_rep_eq ml min max greedy a x :
  rmatch ml (Rep min max greedy a) x =
  rep (rmatch ml a) (groups_of a) greedy (S (min + length (after x))) min max x.
Proof. reflexivity. Qed.

Theorem rmatch_shape ml : forall r x y,
  wf r = true -> In y (rmatch ml r x) -> exists w, steps x y w /\ shape r w.
Proof.
  induction r; intros x y W H.
  - destruct H as [<-|[]]. exists []. split; [apply steps_refl|reflexivity].
  - apply in_cls in H. destruct H as (c & A & B & _ & E).
    exists [c]. split; [split; simpl; auto|]. exists c. auto.
  - cbn [rmatch] in H. destruct (after x) as [|c s] eqn:A; [contradiction|].
    destruct (is_line_terminator c) eqn:E; [contradiction|].
    destruct H as [<-|[]]. rewrite (advance_one x c s A).
    exists [c]. split; [split; simpl; auto|]. exists c. auto.
  - apply in_bol in H. destruct H as [-> _]. exists []. split; [apply steps_refl|reflexivity].
  - apply in_eol in H. destruct H as [-> _]. exists []. split; [apply steps_refl|reflexivity].
  - simpl in W. apply andb_true_iff in W. destruct W as [W1 W2].
    apply in_seq in H. destruct H as (y0 & H1 & H2).
    destruct (IHr1 _ _ W1 H1) as (w1 & S1 & P1).
    destruct (IHr2 _ _ W2 H2) as (w2 & S2 & P2).
    exists (w1 ++ w2). split; [eapply steps_trans; eauto|]. exists w1, w2. auto.
  - simpl in W. apply andb_true_iff in W. destruct W as [W1 W2].
    apply in_alt in H. destruct H as [H|H].
    + destruct (IHr1 _ _ W1 H) as (w & S1 & P1). exists w. simpl. auto.
    + destruct (IHr2 _ _ W2 H) as (w & S1 & P1). exists w. simpl. auto.
  - simpl in W. apply andb_true_iff in W. destruct W as [W1 W2].
    rewrite rmatch_rep_eq in H. eapply rep_shape with (P := shape r) in H.
    + destruct H as (ws & S1 & F & L1 & L2). exists (concat ws). split; [assumption|].
      exists ws. auto.
    + intros x0 y0 H0. apply IHr; assumption.
    + destruct max; [apply Nat.leb_le; assumption|exact I].
  - apply in_grp in H. destruct H as (y0 & H & B & A & _).
    destruct (IHr _ _ W H) as (w & [S1 S2] & P). exists w. split; [|assumption].
    split; congruence.
  - exists []. split; [|reflexivity].
    cbn [rmatch] in H. destruct positive.
    + destruct (rmatch ml r x); [contradiction|]. destruct H as [<-|[]]. split; reflexivity.
    + destruct (rmatch ml r x); [|contradiction]. destruct H as [<-|[]]. apply steps_refl.
  - cbn [rmatch] in H. destruct (caps x n) as [s|].
    + destruct (is_prefix s (after x)) eqn:E; [|contradiction].
      destruct H as [<-|[]].
      assert (exists t, after x = s ++ t) as [t A].
      { clear -E. revert E. generalize (after x). induction s as [|c s IH]; intros [|d t] E; simpl in E; try discriminate.
        - exists []. reflexivity.
        - exists (d :: t). reflexivity.
        - apply andb_true_iff in E. destruct E as [E1 E2]. apply N.eqb_eq in E1. subst d.
          destruct (IH _ E2) as [u ->]. exists u. reflexivity. }
      destruct (advance_steps s x t A) as (S1 & _). exists s. split; [assumption|exact I].
    + destruct H as [<-|[]]. exists []. split; [apply steps_refl|exact I].
Qed.

(** Captures of groups that a pattern does not contain are kept. *)
Lemma rep_frame (step : mstate -> list mstate) gs greedy n :
  ~ In n gs ->
  (forall x y, In y (step x) -> caps y n = caps x n) ->
  forall fuel min max x y,
    In y (rep step gs greedy fuel min max x) -> caps y n = caps x n.
Proof.
  intros Hn Hstep. induction fuel as [|fuel IH]; intros min max x y Hin; simpl in Hin.
  - contradiction.
  - assert (Hit : In y (flat_map (fun y0 =>
                   if Nat.eqb min 0 && Nat.eqb (length (after y0)) (length (after x))
                   then [] else rep step gs greedy fuel (pred min) (option_map pred max) y0)
                   (step (MState (before x) (after x) (clear_caps gs (caps x))))) ->
                 caps y n = caps x n).
    { intros Hi. apply in_flat_map in Hi. destruct Hi as (y1 & Hy1 & Hi).
      destruct (Nat.eqb min 0 && Nat.eqb (length (after y1)) (length (after x))); [contradiction|].
      apply IH in Hi. apply Hstep in Hy1. rewrite Hi, Hy1. simpl.
      unfold clear_caps. destruct (existsb (Nat.eqb n) gs) eqn:E; [|reflexivity].
      apply existsb_exists in E. destruct E as (k & Hk & E). apply Nat.eqb_eq in E.
      subst k. contradiction. }
    destruct max as [[|k]|].
    + destruct Hin as [<-|[]]. reflexivity.
    + destruct (Nat.eqb min 0); simpl in Hin; auto.
      destruct greedy; [apply in_app_or in Hin; destruct Hin as [Hin|[<-|[]]]|destruct Hin as [<-|Hin]]; auto.
    + destruct (Nat.eqb min 0); simpl in Hin; auto.
      destruct greedy; [apply in_app_or in Hin; destruct Hin as [Hin|[<-|[]]]|destruct Hin as [<-|Hin]]; auto.
Qed.

Theorem rmatch_frame ml n : forall r x y,
  ~ In n (groups_of r) -> In y (rmatch ml r x) -> caps y n = caps x n.
Proof.
  induction r; intros x y G H; simpl in G.
  - destruct H as [<-|[]]. reflexivity.
  - apply in_cls in H. destruct H as (c & _ & _ & C & _). rewrite C. reflexivity.
  - cbn [rmatch] in H. destruct (after x) as [|c s] eqn:A; [contradiction|].
    destruct (is_line_terminator c); [contradiction|].
    destruct H as [<-|[]]. rewrite (advance_one x c s A). reflexivity.
  - apply in_bol in H. destruct H as [-> _]. reflexivity.
  - apply in_eol in H. destruct H as [-> _]. reflexivity.
  - apply in_seq in H. destruct H as (y0 & H1 & H2).
    rewrite (IHr2 y0 y), (IHr1 x y0); auto; intros F; apply G, in_or_app; auto.
  - apply in_alt in H. destruct H as [H|H]; [apply IHr1|apply IHr2]; auto;
      intros F; apply G, in_or_app; auto.
  - rewrite rmatch_rep_eq in H. eapply rep_frame in H; eauto.
  - apply in_grp in H. destruct H as (y0 & H & _ & _ & C).
    rewrite C. unfold set_cap. destruct (Nat.eqb n n0) eqn:E.
    + apply Nat.eqb_eq in E. subst. exfalso. apply G. left. reflexivity.
    + apply IHr; auto.
  - cbn [rmatch] in H. destruct positive.
    + destruct (rmatch ml r x) as [|y1 l] eqn:E; [contradiction|]. destruct H as [<-|[]]. simpl.
      apply IHr; auto. rewrite E. left. reflexivity.
    + destruct (rmatch ml r x); [|contradiction]. destruct H as [<-|[]]. reflexivity.
  - cbn [rmatch] in H. destruct (caps x n0) as [s|].
    + destruct (is_prefix s (after x)) eqn:E; [|contradiction].
      destruct H as [<-|[]].
      clear. generalize (length s). intros k. revert x. induction k as [|k IH]; intros x; simpl.
      * destruct (after x); reflexivity.
      * destruct (after x); [reflexivity|]. rewrite IH. reflexivity.
    + destruct H as [<-|[]]. reflexivity.
Qed.

(** A group that matched holds the text it consumed. *)
Lemma in_grp_cap ml n a x y :
  wf a = true -> In y (rmatch ml (Grp n a) x) ->
  exists w, steps x y w /\ shape a w /\ caps y n = Some w.
Proof.
  intros W H. apply in_grp in H. destruct H as (y0 & H & B & A & C).
  destruct (rmatch_shape _ _ _ _ W H) as (w & S1 & P).
  exists w. split; [|split; [assumption|]].
  - destruct S1 as [S1 S2]. split; congruence.
  - rewrite C. unfold set_cap. rewrite Nat.eqb_refl, (between_steps _ _ _ S1). reflexivity.
Qed.

(** [scan]: where the first match is. *)
Lemma scan_some ml r : forall suf pre x y,
  scan ml r pre suf = Some (x, y) ->
  exists skipped rest,
    suf = skipped ++ rest /\ x = MState (rev skipped ++ pre) rest no_captures
    /\ (exists l, rmatch ml r x = y :: l)
    /\ forall k, k < length skipped ->
          rmatch ml r (MState (rev (firstn k skipped) ++ pre) (skipn k skipped ++ rest) no_captures) = [].
Proof.
  induction suf as [|c suf IH]; intros pre x y H; simpl in H.
  - destruct (rmatch ml r (MState pre [] no_captures)) as [|y0 l] eqn:E; [discriminate|].
    inversion H; subst. exists [], []. simpl. repeat split; eauto. intros k Hk. lia.
  - destruct (rmatch ml r (MState pre (c :: suf) no_captures)) as [|y0 l] eqn:E.
    + apply IH in H. destruct H as (sk & rest & -> & -> & Hm & Hno).
      exists (c :: sk), rest. simpl. rewrite <- app_assoc. simpl.
      repeat split; auto. intros [|k] Hk; simpl.
      * exact E.
      * rewrite <- app_assoc. simpl. apply Hno. lia.
    + inversion H; subst. exists [], (c :: suf). simpl. repeat split; eauto. intros k Hk. lia.
Qed.

Lemma scan_none ml r : forall suf pre,
  (forall k, k <= length suf ->
     rmatch ml r (MState (rev (firstn k suf) ++ pre) (skipn k suf) no_captures) = []) ->
  scan ml r pre suf = None.
Proof.
  induction suf as [|c suf IH]; intros pre H; simpl.
  - pose proof (H 0 (Nat.le_0_l _)) as H0. simpl in H0. rewrite H0. reflexivity.
  - pose proof (H 0 (Nat.le_0_l _)) as H0. simpl in H0. rewrite H0.
    apply IH. intros k Hk. specialize (H (S k)). simpl in H.
    rewrite <- app_assoc in H. apply H. lia.
Qed.

Lemma collect_none fuel ml r pend pre suf :
  scan ml r pre suf = None -> collect fuel ml r pend pre suf = ([], pend ++ suf).
Proof. intros H. destruct fuel; simpl; [|rewrite H]; reflexivity. Qed.

Lemma replace_g_none ml r f s :
  scan ml r [] s = None -> replace_g ml r f s = s.
Proof.
  intros H. unfold replace_g, matches_g. rewrite (collect_none _ _ _ _ _ _ H). reflexivity.
Qed.

Lemma replace1_none ml r f s :
  scan ml r [] s = None -> replace1 ml r f s = s.
Proof. intros H. unfold replace1. rewrite H. reflexivity. Qed.

End ReFacts.

(** ** The budgets of the matcher are never used up *)

Module FuelFacts.
Import ReFacts.

Lemma flat_map_ext_in {A B} (f g : A -> list B) : forall l,
  (forall a, In a l -> f a = g a) -> flat_map f l = flat_map g l.
Proof.
  induction l as [|a l IH]; intros H; simpl; [reflexivity|].
  rewrite (H a (or_introl eq_refl)), IH; [reflexivity|].
  intros b I. apply H. right. exact I.
Qed.

Lemma rep_fuel (step : mstate -> list mstate) gs greedy :
  (forall x y, In y (step x) -> length (after y) <= length (after x)) ->
  forall f1 f2 min max x,
    min + length (after x) < f1 -> min + length (after x) < f2 ->
    rep step gs greedy f1 min max x = rep step gs greedy f2 min max x.
Proof.
  intros Hstep. induction f1 as [|f1 IH]; intros f2 min max x L1 L2; [lia|].
  destruct f2 as [|f2]; [lia|]. cbn [rep].
  assert (E : forall max',
    flat_map (fun y => if Nat.eqb min 0 && Nat.eqb (length (after y)) (length (after x))
                       then [] else rep step gs greedy f1 (pred min) max' y)
             (step (MState (before x) (after x) (clear_caps gs (caps x))))
    = flat_map (fun y => if Nat.eqb min 0 && Nat.eqb (length (after y)) (length (after x))
                       then [] else rep step gs greedy f2 (pred min) max' y)
             (step (MState (before x) (after x) (clear_caps gs (caps x))))).
  { intros max'. apply flat_map_ext_in. intros y Hy. apply Hstep in Hy. cbn [after] in Hy.
    destruct (Nat.eqb_spec min 0) as [->|Hm]; simpl.
    - destruct (Nat.eqb_spec (length (after y)) (length (after x))); [reflexivity|].
      apply IH; simpl; lia.
    - apply IH; lia. }
  destruct max as [[|k]|]; [reflexivity| |]; cbv zeta; rewrite E; reflexivity.
Qed.

Lemma rmatch_shorter ml r x y :
  wf r = true -> In y (rmatch ml r x) -> length (after y) <= length (after x).
Proof.
  intros W I. destruct (rmatch_shape ml r x y W I) as (w & S1 & _).
  pose proof (steps_length _ _ _ S1). lia.
Qed.

(** The budget of [rep] inside [rmatch] is never used up: a larger one gives
    the same matches. *)
Lemma rmatch_rep_fuel ml min max greedy a x k :
  wf a = true ->
  rmatch ml (Rep min max greedy a) x
  = rep (rmatch ml a) (groups_of a) greedy (S (min + length (after x)) + k) min max x.
Proof.
  intros W. cbn [rmatch]. apply rep_fuel; [|lia|lia].
  intros x0 y I. eapply rmatch_shorter; eassumption.
Qed.

(** The same for the walk of a [g]-flagged replace. *)
Lemma collect_fuel ml r (W : wf r = true) : forall f1 f2 pend pre suf,
  length suf < f1 -> length suf < f2 ->
  collect f1 ml r pend pre suf = collect f2 ml r pend pre suf.
Proof.
  induction f1 as [|f1 IH]; intros f2 pend pre suf L1 L2; [lia|].
  destruct f2 as [|f2]; [lia|]. cbn [collect].
  destruct (scan ml r pre suf) as [[x y]|] eqn:S1; [|reflexivity].
  pose proof (scan_some _ _ _ _ _ _ S1) as (sk & rest & -> & -> & (l' & Hm) & _).
  assert (I : In y (rmatch ml r (MState (rev sk ++ pre) rest no_captures)))
    by (rewrite Hm; left; reflexivity).
  pose proof (rmatch_shorter _ _ _ _ W I) as L. cbn [after] in L |- *.
  rewrite length_app in L1, L2.
  destruct (Nat.eqb_spec (length (after y)) (length rest)) as [E|E].
  - destruct (after y) as [|c rest'] eqn:A; [reflexivity|].
    simpl in L, E. rewrite (IH f2); [reflexivity|lia|lia].
  - rewrite (IH f2); [reflexivity|lia|lia].
Qed.

(** The same for [split]. *)
Lemma split_fuel ml r (W : wf r = true) : forall f1 f2 piece pre suf,
  2 * length suf + (match piece with [] => 0 | _ => 1 end) < f1 ->
  2 * length suf + (match piece with [] => 0 | _ => 1 end) < f2 ->
  split_aux f1 ml r piece pre suf = split_aux f2 ml r piece pre suf.
Proof.
  induction f1 as [|f1 IH]; intros f2 piece pre suf L1 L2; [lia|].
  destruct f2 as [|f2]; [lia|]. cbn [split_aux].
  destruct suf as [|c suf']; [reflexivity|].
  destruct (rmatch ml r (MState pre (c :: suf') no_captures)) as [|y l] eqn:Hm.
  - apply IH; simpl in *; lia.
  - assert (I : In y (rmatch ml r (MState pre (c :: suf') no_captures)))
      by (rewrite Hm; left; reflexivity).
    pose proof (rmatch_shorter _ _ _ _ W I) as L. cbn [after] in L.
    destruct (Nat.eqb_spec (length (after y)) (length (c :: suf'))) as [E|E];
      destruct piece as [|p piece]; simpl in *.
    + apply IH; simpl; lia.
    + f_equal. apply IH; simpl; lia.
    + f_equal. apply IH; simpl; lia.
    + f_equal. apply IH; simpl; lia.
Qed.

End FuelFacts.

Module MarkerFacts.
Import ReFacts.

Lemma shape_rep_cls min max g neg items w :
  shape (Rep min max g (Cls neg items)) w ->
  Forall (fun c => xorb neg (existsb (in_item c) items) = true) w
  /\ min <= length w
  /\ match max with Some k => length w <= k | None => True end.
Proof.
  intros (ws & -> & F & L1 & L2).
  assert (H : Forall (fun c => xorb neg (existsb (in_item c) items) = true) (concat ws)
              /\ length (concat ws) = length ws).
  { clear L1 L2. induction F as [|w ws (c & -> & E) F IH]; simpl.
    - split; [constructor|reflexivity].
    - destruct IH as [IH1 IH2]. split; [constructor; assumption|congruence]. }
  destruct H as [H1 H2]. rewrite H2. auto.
Qed.

Lemma in_blank c : existsb (in_item c) (map CLit (js " \t")) = is_blank c.
Proof.
  change (map CLit (js " \t")) with [CLit 32; CLit 9]. simpl.
  rewrite orb_false_r. reflexivity.
Qed.

Lemma in_bullet c : existsb (in_item c) (map CLit (js "*+-")) = is_bullet c.
Proof.
  change (map CLit (js "*+-")) with [CLit 42; CLit 43; CLit 45]. simpl.
  unfold is_bullet. rewrite orb_false_r, orb_assoc. reflexivity.
Qed.

Lemma marker_within_spaces : forall sp n t,
  Forall (fun c => ceqb c 32 = true) sp -> length sp <= n ->
  marker_here t = true -> marker_within n (sp ++ t) = true.
Proof.
  induction sp as [|c sp IH]; intros n t F L H; simpl.
  - destruct n; simpl; rewrite H; reflexivity.
  - inversion F; subst. destruct n; simpl in L; [lia|]. simpl.
    rewrite H2, IH; auto; [apply orb_true_r|lia].
Qed.

Lemma after_digits_app ds t :
  Forall (fun c => is_digit c = true) ds -> after_digits (ds ++ t) = after_digits t.
Proof. induction 1 as [|c ds E F IH]; simpl; [|rewrite E]; auto. Qed.

Lemma marker_shape_here mk b rest :
  shape marker mk -> is_blank b = true -> marker_here (mk ++ b :: rest) = true.
Proof.
  intros [H|H] B.
  - destruct H as (c & -> & E). unfold set in E. rewrite in_bullet in E. simpl in *.
    rewrite E. assumption.
  - destruct H as (w1 & w2 & -> & H1 & (d & -> & E)).
    apply shape_rep_cls in H1. destruct H1 as (F & L & _).
    destruct w1 as [|c ds]; simpl in L; [lia|]. inversion F; subst. simpl in *.
    rewrite orb_false_r in H1, E.
    assert (Hb : is_bullet c = false).
    { unfold is_bullet, is_digit, ceqb in *. apply andb_true_iff in H1. destruct H1 as [A1 A2].
      apply N.leb_le in A1, A2.
      destruct (N.eqb_spec c 42), (N.eqb_spec c 43), (N.eqb_spec c 45); simpl; trivial; lia. }
    rewrite Hb, H1, <- app_assoc, after_digits_app.
    + simpl. assert (Hd : is_digit d = false).
      { unfold is_digit, ceqb in *. apply N.eqb_eq in E. subst d. reflexivity. }
      rewrite Hd. simpl. rewrite E. simpl. exact B.
    + eapply Forall_impl; [|exact H2]. simpl. intros a Ha. rewrite orb_false_r in Ha. exact Ha.
Qed.

Lemma marker_prefix_here ml n x y :
  In y (rmatch ml (seq [fromto 0 3 (chr SP); Grp n marker; plus blank]) x) ->
  marker_within 3 (after x) = true.
Proof.
  intros H. apply rmatch_shape in H; [|reflexivity].
  destruct H as (w & [A _] & (w1 & w23 & -> & H1 & (w2 & w3 & -> & H2 & H3))).
  apply shape_rep_cls in H1. destruct H1 as (F1 & _ & L1).
  apply shape_rep_cls in H3. destruct H3 as (F3 & L3 & _).
  destruct w3 as [|b w3]; simpl in L3; [lia|]. inversion F3; subst.
  rewrite A, <- !app_assoc. apply marker_within_spaces; auto.
  - eapply Forall_impl; [|exact F1]. simpl. intros a Ha. rewrite orb_false_r in Ha. exact Ha.
  - simpl. apply marker_shape_here; auto.
    rewrite in_blank in H1. exact H1.
Qed.

Lemma marker_line_intro : forall p b s,
  (p = [] -> b = true) ->
  (p <> [] -> is_line_terminator (last p 0%N) = true) ->
  marker_within 3 s = true -> marker_line_from b (p ++ s) = true.
Proof.
  induction p as [|c p IH]; intros b s H0 H1 M.
  - rewrite (H0 eq_refl). simpl. destruct s; simpl in *; rewrite M; reflexivity.
  - change (marker_line_from b ((c :: p) ++ s))
      with ((b && marker_within 3 (c :: p ++ s)) || marker_line_from (is_line_terminator c) (p ++ s)).
    rewrite IH; auto using orb_true_r.
    + intros ->. apply (H1 ltac:(discriminate)).
    + intros Hp. specialize (H1 ltac:(discriminate)). destruct p; [contradiction|exact H1].
Qed.

Lemma marker_line_at x :
  at_bol true x = true -> marker_within 3 (after x) = true ->
  has_marker_line (rev (before x) ++ after x) = true.
Proof.
  intros B M. apply marker_line_intro; auto.
  intros Hp. unfold at_bol in B. destruct (before x) as [|c l]; [contradiction|].
  simpl. rewrite last_last. exact B.
Qed.

Lemma subList_needs_marker x y :
  In y (rmatch true subListRgx x) -> has_marker_line (rev (before x) ++ after x) = true.
Proof.
  intros H. unfold subListRgx in H.
  apply in_seq in H. destruct H as (x1 & H1 & H).
  apply in_bol in H1. destruct H1 as [-> B].
  apply in_grp in H. destruct H as (y0 & H & _).
  change (seq [?a; ?b; ?c]) with (Seq a (Seq b c)) in H.
  apply in_seq in H. destruct H as (x2 & H & _).
  apply in_grp in H. destruct H as (y1 & H & _).
  apply marker_prefix_here in H. apply marker_line_at; assumption.
Qed.

Lemma mainList_needs_marker x y :
  In y (rmatch true mainListRgx x) -> has_marker_line (rev (before x) ++ after x) = true.
Proof.
  intros H. unfold mainListRgx in H.
  apply in_seq in H. destruct H as (x1 & H1 & H).
  apply in_grp in H. destruct H as (y0 & H & _).
  change (seq [?a; ?b; ?c]) with (Seq a (Seq b c)) in H.
  apply in_seq in H. destruct H as (x2 & H & _).
  apply in_grp in H. destruct H as (y1 & H & _).
  apply marker_prefix_here in H.
  apply in_grp in H1. destruct H1 as (x0 & H1 & B1 & A1 & _).
  assert (E : rev (before x1) ++ after x1 = rev (before x) ++ after x /\ at_bol true x1 = true).
  { unfold at_bol. rewrite B1, A1. apply in_alt in H1. destruct H1 as [H1|H1].
    - pose proof H1 as H2. apply rmatch_shape in H1; [|reflexivity].
      destruct H1 as (w & S1 & (w1 & w2 & -> & (c1 & -> & E1) & (c2 & -> & E2))).
      split; [apply (steps_input _ _ _ S1)|].
      destruct S1 as [_ S1]. rewrite S1. simpl.
      simpl in E2. rewrite orb_false_r in E2. apply N.eqb_eq in E2. subst c2. reflexivity.
    - apply in_seq in H1. destruct H1 as (x3 & H3 & H1).
      apply in_bol in H3. destruct H3 as [-> B].
      apply rmatch_shape in H1; [|reflexivity].
      destruct H1 as (w & S1 & H1). apply shape_rep_cls in H1.
      destruct H1 as (F & _ & L).
      split; [apply (steps_input _ _ _ S1)|].
      destruct S1 as [_ S1]. rewrite S1.
      destruct w as [|c [|d w]]; simpl in L; try lia.
      + simpl. exact B.
      + inversion F as [|? ? Hc Hw]; subst. simpl in Hc. rewrite orb_false_r in Hc.
        apply N.eqb_eq in Hc. subst c. reflexivity. }
  destruct E as [E B]. rewrite <- E. apply marker_line_at.
  - exact B.
  - rewrite A1 in *. assumption.
Qed.

Lemma starts_blank_sentinel s : starts_blank (s ++ Z0) = starts_blank s.
Proof. destruct s; reflexivity. Qed.

Lemma after_digits_sentinel s : after_digits (s ++ Z0) = after_digits s ++ Z0.
Proof.
  induction s as [|c s IH]; simpl; [reflexivity|].
  destruct (is_digit c); [exact IH|reflexivity].
Qed.

Lemma marker_here_sentinel s : marker_here (s ++ Z0) = marker_here s.
Proof.
  destruct s as [|c s]; [reflexivity|]. simpl.
  rewrite starts_blank_sentinel, after_digits_sentinel.
  destruct (after_digits s) as [|d u]; simpl.
  - destruct (is_bullet c), (is_digit c); reflexivity.
  - rewrite starts_blank_sentinel. reflexivity.
Qed.

Lemma marker_within_sentinel : forall n s, marker_within n (s ++ Z0) = marker_within n s.
Proof.
  induction n as [|n IH]; intros s.
  - simpl. rewrite marker_here_sentinel. destruct s; reflexivity.
  - destruct s as [|c s]; [reflexivity|].
    change (marker_within (S n) ((c :: s) ++ Z0))
      with (marker_here ((c :: s) ++ Z0) || (ceqb c 32 && marker_within n (s ++ Z0))).
    rewrite marker_here_sentinel, IH. reflexivity.
Qed.

Lemma marker_line_sentinel : forall s b, marker_line_from b (s ++ Z0) = marker_line_from b s.
Proof.
  induction s as [|c s IH]; intros b.
  - destruct b; reflexivity.
  - change (marker_line_from b ((c :: s) ++ Z0))
      with ((b && marker_within 3 ((c :: s) ++ Z0)) || marker_line_from (is_line_terminator c) (s ++ Z0)).
    rewrite marker_within_sentinel, IH. reflexivity.
Qed.

Lemma no_list_block (lvl : bool) text pre :
  has_marker_line (rev pre ++ text) = false ->
  scan true (if lvl then subListRgx else mainListRgx) pre text = None.
Proof.
  intros H. apply scan_none. intros k Hk.
  match goal with |- rmatch _ ?r ?x = [] => destruct (rmatch true r x) as [|y l] eqn:E end; [reflexivity|].
  exfalso.
  assert (I : In y (rmatch true (if lvl then subListRgx else mainListRgx)
                     (MState (rev (firstn k text) ++ pre) (skipn k text) no_captures))).
  { rewrite E. left. reflexivity. }
  assert (M : has_marker_line (rev (rev (firstn k text) ++ pre) ++ skipn k text) = true).
  { destruct lvl; [eapply (subList_needs_marker _ _ I)|eapply (mainList_needs_marker _ _ I)]. }
  rewrite rev_app_distr, rev_involutive, <- app_assoc, firstn_skipn in M. congruence.
Qed.

Lemma sentinel_miss ml pre s :
  is_prefix Z0 s = false -> rmatch ml sentinelRgx (MState pre s no_captures) = [].
Proof.
  change sentinelRgx with (Seq (chr 168) (chr 48)).
  destruct s as [|c [|d s]]; intros H; cbn; unfold ceqb.
  - reflexivity.
  - destruct (N.eqb c 168); reflexivity.
  - destruct (N.eqb_spec c 168) as [->|]; simpl; [|reflexivity].
    destruct (N.eqb_spec d 48) as [->|]; simpl; [|reflexivity].
    discriminate H.
Qed.

Lemma is_prefix_sentinel_app s :
  s <> [] -> is_prefix Z0 s = false -> is_prefix Z0 (s ++ Z0) = false.
Proof.
  destruct s as [|c [|d s]]; intros N H; try congruence.
  - cbn. apply andb_false_r.
  - exact H.
Qed.

Lemma scan_sentinel : forall text pre,
  occurs Z0 text = false ->
  scan false sentinelRgx pre (text ++ Z0) =
  Some (MState (rev text ++ pre) Z0 no_captures,
        MState (48%N :: 168%N :: rev text ++ pre) [] no_captures).
Proof.
  induction text as [|c text IH]; intros pre H.
  - reflexivity.
  - simpl in H. apply orb_false_iff in H. destruct H as [H1 H2].
    change (occurs Z0 text = false) in H2.
    change ((c :: text) ++ Z0) with (c :: (text ++ Z0)).
    cbn [scan]. rewrite sentinel_miss.
    + rewrite IH by assumption. simpl. rewrite <- !app_assoc. reflexivity.
    + apply (is_prefix_sentinel_app (c :: text)); [discriminate|exact H1].
Qed.

Lemma strip_sentinel text :
  occurs Z0 text = false -> replace1 false sentinelRgx (fun _ => []) (text ++ Z0) = text.
Proof.
  intros H. unfold replace1. rewrite scan_sentinel by assumption. simpl.
  rewrite !app_nil_r. apply rev_involutive.
Qed.

End MarkerFacts.

Section Properties.

Variable env : Env.
Import ReFacts MarkerFacts.

(** C10: a text in which no line (in the sense of the line terminators of
    the pattern language) starts, within three leading spaces, with a bullet
    or with digits and a period followed by a space or a tab, and in which
    the sentinel does not occur, comes back unchanged when no listener
    alters the start and end events: neither boundary pattern fires, at
    whatever nesting level, and the sentinel that was appended is the one
    that is stripped. *)
Theorem no_marker_unchanged depth text g :
  has_marker_line text = false ->
  occurs (js "¨0") text = false ->
  (forall name t, ev_output (dispatch env (Event name t (Some t) None [] [])) = Some t) ->
  makehtml_list env (S depth) text g = Some (Some text, g).
Proof.
  intros Hm Hs Hd. cbn [makehtml_list]. unfold list_body, output_string.
  rewrite Hd. change (js "¨0") with Z0 in *.
  assert (Hscan : forall lvl : bool, scan true (if lvl then subListRgx else mainListRgx) [] (text ++ Z0) = None).
  { intros lvl. apply no_list_block. simpl. unfold has_marker_line.
    rewrite marker_line_sentinel. exact Hm. }
  unfold bind, get_level, replace_gM, matches_g.
  destruct (negb (gListLevel g =? 0)%Z).
  - rewrite (collect_none _ _ _ _ _ _ (Hscan true)). simpl.
    rewrite strip_sentinel by assumption. rewrite Hd. reflexivity.
  - rewrite (collect_none _ _ _ _ _ _ (Hscan false)). simpl.
    rewrite strip_sentinel by assumption. rewrite Hd. reflexivity.
Qed.

End Properties.

Module MonadFacts.

Lemma bind_inv {A B} (c : M A) (f : A -> M B) g b g' :
  bind c f g = Some (b, g') ->
  exists a g1, c g = Some (a, g1) /\ f a g1 = Some (b, g').
Proof.
  unfold bind. destruct (c g) as [[a g1]|]; [|discriminate].
  intros H. exists a, g1. auto.
Qed.

Lemma restored_refl g : restored g g.
Proof. split; [reflexivity|]. exists []. split; [reflexivity|constructor]. Qed.

Lemma restored_trans g1 g2 g3 : restored g1 g2 -> restored g2 g3 -> restored g1 g3.
Proof.
  intros [L1 (h1 & H1 & F1)] [L2 (h2 & H2 & F2)]. split; [congruence|].
  exists (h2 ++ h1). split.
  - rewrite H2, H1, app_assoc. reflexivity.
  - apply Forall_app. split; [|assumption]. rewrite L1 in F2. assumption.
Qed.

Lemma bracketed_restored g g' : bracketed g g' -> restored g g'.
Proof.
  intros [L (h & H & F)]. split; [assumption|].
  exists (gListLevel g :: h ++ [(gListLevel g + 1)%Z]). split.
  - rewrite H. simpl. rewrite <- app_assoc. reflexivity.
  - constructor; [lia|]. apply Forall_app. split.
    + eapply Forall_impl; [|exact F]. simpl. intros. lia.
    + constructor; [lia|constructor].
Qed.

Lemma preserves_ret {A} (a : A) : preserves (ret a).
Proof. intros g b g' H. inversion H. apply restored_refl. Qed.

Lemma preserves_throw {A} : preserves (@throw A).
Proof. intros g b g' H. discriminate. Qed.

Lemma preserves_defined {A} (o : option A) : preserves (defined o).
Proof. destruct o; [apply preserves_ret|apply preserves_throw]. Qed.

Lemma preserves_get_level : preserves get_level.
Proof. intros g b g' H. inversion H. apply restored_refl. Qed.

Lemma preserves_bind {A B} (c : M A) (f : A -> M B) :
  preserves c -> (forall a, preserves (f a)) -> preserves (bind c f).
Proof.
  intros Hc Hf g b g' H. apply bind_inv in H. destruct H as (a & g1 & H1 & H2).
  eapply restored_trans; [eapply Hc|eapply Hf]; eassumption.
Qed.

Lemma preserves_replace_each f l :
  (forall m, preserves (f m)) -> preserves (replace_each f l).
Proof.
  intros Hf. induction l as [|[gap m] l IH]; simpl.
  - apply preserves_ret.
  - apply preserves_bind; [apply Hf|]. intros r.
    apply preserves_bind; [apply IH|]. intros rest. apply preserves_ret.
Qed.

Lemma preserves_replace_gM ml r f s :
  (forall m, preserves (f m)) -> preserves (replace_gM ml r f s).
Proof.
  intros Hf. unfold replace_gM. destruct (matches_g ml r s) as [l tl].
  apply preserves_bind; [apply preserves_replace_each; assumption|].
  intros out. apply preserves_ret.
Qed.

End MonadFacts.

Section Counter.

Variable env : Env.
Import MonadFacts.

Lemma listItem_preserves self isParagraphed m :
  (forall t, preserves (self t)) -> preserves (listItem env self isParagraphed m).
Proof.
  intros Hs. unfold listItem.
  apply preserves_bind; [apply preserves_defined|]. intros m4.
  apply preserves_bind; [|intros; apply preserves_ret].
  destruct (supplied _); [apply preserves_ret|].
  apply preserves_bind; [apply preserves_defined|]. intros item.
  unfold item_default, item_body.
  apply preserves_bind; [|intros; apply preserves_ret].
  apply preserves_bind; [|intros; apply preserves_ret].
  destruct (multi_paragraph _ _).
  - unfold render_loose. apply preserves_bind; [apply Hs|intros; apply preserves_ret].
  - unfold render_tight. apply preserves_bind; [apply Hs|]. intros o.
    apply preserves_bind; [apply preserves_defined|intros; apply preserves_ret].
Qed.

Lemma processListItems_bracketed self listStr trimTrailing g out g' :
  (forall t, preserves (self t)) ->
  processListItems env self listStr trimTrailing g = Some (out, g') ->
  bracketed g g'.
Proof.
  intros Hs H. unfold processListItems in H.
  apply bind_inv in H. destruct H as (l & g0 & H0 & H). inversion H0; subst l g0; clear H0.
  apply bind_inv in H. destruct H as ([] & g1 & H1 & H). inversion H1; subst g1; clear H1.
  apply bind_inv in H. destruct H as (s & g2 & H2 & H).
  apply preserves_replace_gM in H2; [|intros; apply listItem_preserves; assumption].
  destruct H2 as [L2 (h & E2 & F2)]. simpl in L2, E2, F2.
  apply bind_inv in H. destruct H as (l & g3 & H3 & H). inversion H3; subst l g3; clear H3.
  apply bind_inv in H. destruct H as ([] & g4 & H4 & H). inversion H4; subst g4; clear H4.
  inversion H; subst; clear H. split; simpl.
  - lia.
  - exists h. split; [|assumption]. rewrite L2, E2. f_equal. lia.
Qed.

Lemma processListItems_preserves self listStr trimTrailing :
  (forall t, preserves (self t)) ->
  preserves (processListItems env self listStr trimTrailing).
Proof.
  intros Hs g a g' H. apply bracketed_restored.
  eapply processListItems_bracketed; eassumption.
Qed.

Lemma parseCL_preserves self list trimTrailing :
  (forall t, preserves (self t)) ->
  forall depth otp listType attrs txt,
    preserves (parseCL env depth self list trimTrailing otp listType attrs txt).
Proof.
  intros Hs. induction depth as [|depth IH]; intros otp listType attrs txt; simpl.
  - apply preserves_throw.
  - destruct (search true (counterRxg env listType) txt).
    + apply preserves_bind; [apply processListItems_preserves; assumption|].
      intros items. apply IH.
    + apply preserves_bind; [apply processListItems_preserves; assumption|].
      intros items. apply preserves_ret.
Qed.

Lemma parseConsecutiveLists_preserves depth self pattern list listType trimTrailing :
  (forall t, preserves (self t)) ->
  preserves (parseConsecutiveLists env depth self pattern list listType trimTrailing).
Proof.
  intros Hs. unfold parseConsecutiveLists. destruct (supplied _); [apply preserves_ret|].
  unfold run_default. destruct (search _ _ _).
  - apply parseCL_preserves; assumption.
  - apply preserves_bind; [apply processListItems_preserves; assumption|].
    intros items. apply preserves_ret.
Qed.

Lemma list_body_preserves depth self text :
  (forall t, preserves (self t)) -> preserves (list_body env depth self text).
Proof.
  intros Hs. unfold list_body.
  apply preserves_bind; [apply preserves_get_level|]. intros level.
  apply preserves_bind; [|intros; apply preserves_ret].
  destruct (negb _); apply preserves_replace_gM; intros m;
    (apply preserves_bind; [apply preserves_defined|]; intros lst);
    (apply preserves_bind; [apply preserves_defined|]; intros mk);
    apply parseConsecutiveLists_preserves; assumption.
Qed.

Lemma makehtml_list_preserves : forall depth text, preserves (makehtml_list env depth text).
Proof.
  induction depth as [|depth IH]; intros text; simpl.
  - apply preserves_throw.
  - apply list_body_preserves. assumption.
Qed.


End Counter.

Module SplitFacts.
Import ReFacts MarkerFacts.

Lemma first_after_spaces_app sp c rest :
  Forall (fun a => ceqb a 32 = true) sp -> ceqb c 32 = false ->
  first_after_spaces (sp ++ c :: rest) = Some c.
Proof.
  intros F E. induction F as [|a sp Ha F IH]; simpl.
  - rewrite E. reflexivity.
  - rewrite Ha. exact IH.
Qed.

Lemma spaces_shape lg w :
  shape (if lg : bool then opt (chr SP) else fromto 0 3 (chr SP)) w ->
  Forall (fun a => ceqb a 32 = true) w.
Proof.
  intros H. assert (F : Forall (fun c => xorb false (existsb (in_item c) [CLit SP]) = true) w).
  { destruct lg; apply shape_rep_cls in H; apply H. }
  eapply Forall_impl; [|exact F]. simpl. intros a Ha. rewrite orb_false_r in Ha. exact Ha.
Qed.

Lemma ol_first ml lg x y :
  In y (rmatch ml (olRgx lg) x) ->
  exists d, first_after_spaces (after x) = Some d /\ is_digit d = true.
Proof.
  intros H. apply rmatch_shape in H; [|destruct lg; reflexivity].
  destruct H as (w & [A _] & H).
  destruct H as (w0 & w1 & -> & -> & (w2 & w3 & -> & H2 & (w4 & w5 & -> & H4 & _))).
  apply spaces_shape in H2. apply shape_rep_cls in H4. destruct H4 as (F & L & _).
  destruct w4 as [|d w4]; simpl in L; [lia|]. inversion F as [|? ? Hd _]; subst.
  simpl in Hd. rewrite orb_false_r in Hd.
  exists d. split; [|assumption]. rewrite A. simpl. rewrite <- !app_assoc. simpl.
  apply first_after_spaces_app; [assumption|].
  unfold is_digit, ceqb in *. apply andb_true_iff in Hd. destruct Hd as [D1 D2].
  apply N.leb_le in D1, D2. apply N.eqb_neq. lia.
Qed.

Lemma ul_first ml lg x y :
  In y (rmatch ml (ulRgx lg) x) ->
  exists d, first_after_spaces (after x) = Some d /\ is_bullet d = true.
Proof.
  intros H. apply rmatch_shape in H; [|destruct lg; reflexivity].
  destruct H as (w & [A _] & H).
  destruct H as (w0 & w1 & -> & -> & (w2 & w3 & -> & H2 & (w4 & w5 & -> & (d & -> & Hd) & _))).
  apply spaces_shape in H2. unfold set in Hd. rewrite in_bullet in Hd. simpl in Hd.
  exists d. split; [|assumption]. rewrite A. simpl. rewrite <- !app_assoc. simpl.
  apply first_after_spaces_app; [assumption|].
  unfold is_bullet, ceqb in *.
  destruct (N.eqb_spec d 42), (N.eqb_spec d 43), (N.eqb_spec d 45); try discriminate;
    apply N.eqb_neq; lia.
Qed.

Lemma digit_not_bullet d : is_digit d = true -> is_bullet d = true -> False.
Proof.
  unfold is_digit, is_bullet, ceqb. intros D B.
  apply andb_true_iff in D. destruct D as [D1 D2]. apply N.leb_le in D1, D2.
  destruct (N.eqb_spec d 42), (N.eqb_spec d 43), (N.eqb_spec d 45); try discriminate; lia.
Qed.

(** Where [search] finds its match. *)
Lemma search_some ml r s p :
  search ml r s = Some p ->
  p <= length s /\
  exists y l, rmatch ml r (MState (rev (firstn p s)) (skipn p s) no_captures) = y :: l.
Proof.
  unfold search, exec. destruct (scan ml r [] s) as [[x y]|] eqn:E; [|discriminate].
  simpl. intros H. inversion H; subst p; clear H.
  apply scan_some in E. destruct E as (sk & rest & -> & -> & (l & Hm) & _).
  simpl. rewrite app_nil_r, length_rev, length_app.
  split; [lia|].
  rewrite firstn_app, Nat.sub_diag, firstn_all, skipn_app, Nat.sub_diag, skipn_all. simpl.
  rewrite app_nil_r in *. eauto.
Qed.

(** After a cut, the remainder does not start with a marker of its own
    opposite kind: the next cut is further on. *)
Lemma cut_progress lg t txt p :
  search true (counter_of lg t) txt = Some p ->
  search true (counter_of lg (flip t)) (skipn p txt) <> Some 0.
Proof.
  intros H H0. apply search_some in H. destruct H as (_ & y & l & Hy).
  apply search_some in H0. destruct H0 as (_ & y0 & l0 & Hy0). simpl in Hy0.
  assert (I : In y (rmatch true (counter_of lg t) (MState (rev (firstn p txt)) (skipn p txt) no_captures)))
    by (rewrite Hy; left; reflexivity).
  assert (I0 : In y0 (rmatch true (counter_of lg (flip t)) (MState [] (skipn p txt) no_captures)))
    by (rewrite Hy0; left; reflexivity).
  destruct t; unfold counter_of, flip in I, I0.
  - apply ol_first in I. apply ul_first in I0. cbn [after] in *.
    destruct I as (d & E & D), I0 as (d0 & E0 & B). rewrite E in E0. inversion E0; subst.
    eapply digit_not_bullet; eassumption.
  - apply ul_first in I. apply ol_first in I0. cbn [after] in *.
    destruct I as (d & E & D), I0 as (d0 & E0 & B). rewrite E in E0. inversion E0; subst.
    eapply digit_not_bullet; eassumption.
Qed.

Lemma obj_set_set {V} k (v v' : V) : forall o, obj_set k v (obj_set k v' o) = obj_set k v o.
Proof.
  induction o as [|[k' w] o IH]; simpl.
  - rewrite String.eqb_refl. reflexivity.
  - destruct (String.eqb k k') eqn:E; simpl.
    + rewrite String.eqb_refl. reflexivity.
    + rewrite E, IH. reflexivity.
Qed.

Lemma runs_concat lg : forall k t txt, concat (map snd (runs lg k t txt)) = txt.
Proof.
  induction k as [|k IH]; intros t txt; simpl.
  - apply app_nil_r.
  - destruct (search true (counter_of lg t) txt) as [p|]; simpl.
    + rewrite IH. apply firstn_skipn.
    + apply app_nil_r.
Qed.

Lemma runs_alternating lg : forall k t txt, alternating t (map fst (runs lg k t txt)).
Proof.
  induction k as [|k IH]; intros t txt; simpl.
  - auto.
  - destruct (search true (counter_of lg t) txt) as [p|]; simpl; auto.
Qed.

Lemma runs_nonempty lg k t txt : runs lg k t txt <> [].
Proof.
  destruct k; simpl; [discriminate|].
  destruct (search true (counter_of lg t) txt); discriminate.
Qed.

Lemma last_cons_nonempty {A} (a : A) : forall l d d', l <> [] -> last (a :: l) d = last l d'.
Proof.
  intros l d d' H. destruct l as [|b l]; [contradiction|].
  change (last (a :: b :: l) d) with (last (b :: l) d).
  clear H. revert b. induction l as [|c l IH]; intros b; [reflexivity|].
  change (last (b :: c :: l) d) with (last (c :: l) d).
  change (last (b :: c :: l) d') with (last (c :: l) d'). apply IH.
Qed.

Lemma runs_last lg : forall n txt t k t' s',
  length txt <= n -> search true (counter_of lg t) txt <> Some 0 -> n < k ->
  last (runs lg k t txt) (t, txt) = (t', s') ->
  search true (counter_of lg t') s' = None.
Proof.
  induction n as [|n IH]; intros txt t k t' s' L P K E;
    (destruct k as [|k]; [lia|]); simpl in E;
    destruct (search true (counter_of lg t) txt) as [p|] eqn:S1;
    try (inversion E; subst; assumption).
  - destruct (search_some _ _ _ _ S1) as [Hp _]. destruct p; [congruence|lia].
  - destruct (search_some _ _ _ _ S1) as [Hp _].
    destruct p as [|p]; [congruence|].
    apply (IH (skipn (S p) txt) (flip t) k).
    + rewrite length_skipn. lia.
    + apply cut_progress. assumption.
    + lia.
    + rewrite <- E. symmetry. apply last_cons_nonempty, runs_nonempty.
Qed.

End SplitFacts.

Section Splitter.

Variable env : Env.
Variable self : jsstring -> M (option jsstring).
Variable trimTrailing : bool.
Variable pattern : regex.
Variable block : jsstring.
Import ReFacts MarkerFacts SplitFacts MonadFacts.

Lemma bind_ext {A B} (c : M A) (f f' : A -> M B) g :
  (forall a g1, f a g1 = f' a g1) -> bind c f g = bind c f' g.
Proof. intros H. unfold bind. destruct (c g) as [[a g1]|]; auto. Qed.

Lemma emit_attrs v : forall rs attrs g,
  emit env self trimTrailing block (obj_set "start" v attrs) rs g
  = emit env self trimTrailing block attrs rs g.
Proof.
  induction rs as [|[t s] rs IH]; intros attrs g; simpl; [reflexivity|].
  unfold bind. destruct (processListItems env self s trimTrailing g) as [[items g1]|]; [|reflexivity].
  rewrite IH, obj_set_set. reflexivity.
Qed.

Lemma parseCL_runs : forall n txt t otp attrs depth k g,
  length txt <= n ->
  search true (counter_of (legacy env) t) txt <> Some 0 ->
  n < depth -> n < k ->
  parseCL env depth self block trimTrailing otp t attrs txt g
  = bind (emit env self trimTrailing block attrs (runs (legacy env) k t txt))
         (fun r => ret (otp ++ r)) g.
Proof.
  induction n as [|n IH]; intros txt t otp attrs depth k g L P D K;
    (destruct depth as [|depth]; [lia|]); (destruct k as [|k]; [lia|]);
    cbn [parseCL runs];
    change (counterRxg env t) with (counter_of (legacy env) t);
    destruct (search true (counter_of (legacy env) t) txt) as [p|] eqn:S1.
  - destruct (search_some _ _ _ _ S1) as [Hp _]. destruct p; [congruence|lia].
  - cbn [emit]. unfold bind, ret.
    destruct (processListItems env self txt trimTrailing g) as [[items g1]|]; [|reflexivity].
    rewrite app_nil_r. reflexivity.
  - destruct (search_some _ _ _ _ S1) as [Hp _].
    destruct p as [|p]; [congruence|].
    cbn [emit]. unfold bind at 1 2 3.
    destruct (processListItems env self (firstn (S p) txt) trimTrailing g) as [[items g1]|]; [|reflexivity].
    rewrite (IH _ _ _ _ depth k).
    + unfold bind, ret. rewrite emit_attrs.
      destruct (emit env self trimTrailing block attrs _ g1) as [[rest g2]|]; [|reflexivity].
      rewrite app_assoc. reflexivity.
    + rewrite length_skipn. lia.
    + apply cut_progress. assumption.
    + lia.
    + lia.
  - cbn [emit]. unfold bind, ret.
    destruct (processListItems env self txt trimTrailing g) as [[items g1]|]; [|reflexivity].
    rewrite app_nil_r. reflexivity.
Qed.

Lemma parseConsecutiveLists_runs listType depth g :
  supplied (ev_output (dispatch env (run_event pattern block))) = None ->
  length block + 2 <= depth ->
  parseConsecutiveLists env depth self pattern block listType trimTrailing g
  = emit env self trimTrailing block (ev_attributes (dispatch env (run_event pattern block)))
      (runs (legacy env) (length block + 2) listType block) g.
Proof.
  intros Hs Hd.
  unfold parseConsecutiveLists, run_default, cloneObject. rewrite Hs.
  replace (length block + 2) with (S (S (length block))) by lia.
  remember (S (length block)) as k eqn:Ek.
  destruct depth as [|depth]; [lia|].
  change (counterRxg env listType) with (counter_of (legacy env) listType).
  cbn [runs].
  destruct (search true (counter_of (legacy env) listType) block) as [p|] eqn:S1.
  - cbn [parseCL emit].
    change (counterRxg env listType) with (counter_of (legacy env) listType).
    rewrite S1. apply bind_ext. intros items g1.
    rewrite (parseCL_runs (length block) _ _ _ _ depth k).
    + unfold bind, ret. rewrite emit_attrs.
      destruct (emit env self trimTrailing block _ _ g1) as [[rest g2]|]; reflexivity.
    + rewrite length_skipn. lia.
    + apply cut_progress. assumption.
    + lia.
    + lia.
  - cbn [emit]. apply bind_ext. intros items g1. unfold bind, ret.
    rewrite app_nil_r. reflexivity.
Qed.

(** C1: when no listener supplies the container and the call budget covers
    the block, [parseConsecutiveLists] emits one sibling container per run
    of [runs], in order, each around the items of its own run only.  The
    runs concatenate to the block, their kinds alternate from the kind of the
    block, cutting goes on until the last run holds no line that starts with
    a marker of the opposite kind, and a bulleted block whose first ordinal
    line is at [p] and whose remainder has no bullet line gives exactly a
    [<ul>] run followed by an [<ol>] run. *)
Theorem consecutive_lists_split listType depth g :
  supplied (ev_output (dispatch env (run_event pattern block))) = None ->
  length block + 2 <= depth ->
  let rs := runs (legacy env) (length block + 2) listType block in
  parseConsecutiveLists env depth self pattern block listType trimTrailing g
  = emit env self trimTrailing block (ev_attributes (dispatch env (run_event pattern block))) rs g
  /\ concat (map snd rs) = block
  /\ alternating listType (map fst rs)
  /\ (forall t s, last rs (listType, block) = (t, s) ->
        search true (counter_of (legacy env) t) s = None)
  /\ (forall p, listType = Ul ->
        search true (olRgx (legacy env)) block = Some p ->
        search true (ulRgx (legacy env)) (skipn p block) = None ->
        rs = [(Ul, firstn p block); (Ol, skipn p block)]).
Proof.
  intros Hs Hd rs. split; [|split; [|split; [|split]]].
  - apply parseConsecutiveLists_runs; assumption.
  - apply runs_concat.
  - apply runs_alternating.
  - intros t s E. subst rs.
    replace (length block + 2) with (S (S (length block))) in E by lia.
    cbn [runs] in E.
    destruct (search true (counter_of (legacy env) listType) block) as [p|] eqn:S1.
    + assert (E' : last (runs (legacy env) (S (length block)) (flip listType) (skipn p block))
                     (flip listType, skipn p block) = (t, s)).
      { rewrite <- E. symmetry. apply last_cons_nonempty, runs_nonempty. }
      eapply (runs_last (legacy env) (length block)); [| |apply Nat.lt_succ_diag_r|exact E'].
      * rewrite length_skipn. lia.
      * apply cut_progress. assumption.
    + inversion E; subst. assumption.
  - intros p -> S1 S2. subst rs.
    replace (length block + 2) with (S (S (length block))) by lia.
    cbn [runs counter_of flip]. rewrite S1. cbn [counter_of]. rewrite S2. reflexivity.
Qed.

End Splitter.

Module TextFacts.
Import ReFacts MarkerFacts.

Lemma found_iff_scan ml r s :
  match search ml r s with Some _ => true | None => false end
  = match scan ml r [] s with Some _ => true | None => false end.
Proof. unfold search, exec. destruct (scan ml r [] s) as [[x y]|]; reflexivity. Qed.

Lemma rep_min_step step gs greedy f k x :
  rep step gs greedy (S f) (S k) None x
  = flat_map (rep step gs greedy f k None)
      (step (MState (before x) (after x) (clear_caps gs (caps x)))).
Proof. reflexivity. Qed.

Lemma rep_zero_nonempty step gs greedy f max x :
  rep step gs greedy (S f) 0 max x <> [].
Proof.
  cbn [rep]. destruct max as [[|k]|]; try discriminate;
    cbn [Nat.eqb negb]; destruct greedy; try discriminate;
    intros E; apply app_eq_nil in E; destruct E; discriminate.
Qed.

Lemma chr_hit ml a pre s c :
  rmatch ml (chr a) (MState pre (a :: s) c) = [MState (a :: pre) s c].
Proof.
  unfold chr. cbn [rmatch after existsb in_item]. unfold ceqb.
  rewrite N.eqb_refl. cbn [orb xorb]. destruct s; reflexivity.
Qed.

Lemma chr_miss ml a b pre s c :
  N.eqb b a = false -> rmatch ml (chr a) (MState pre (b :: s) c) = [].
Proof.
  intros E. unfold chr. cbn [rmatch after existsb in_item]. unfold ceqb.
  rewrite E. reflexivity.
Qed.

Lemma blank_line_here ml pre s c :
  is_prefix [LF; LF] s = true ->
  rmatch ml blankLineRgx (MState pre s c) <> [].
Proof.
  intros H. destruct s as [|a [|b s]]; cbn [is_prefix] in H; unfold ceqb in H;
    [discriminate|rewrite andb_false_r in H; discriminate|].
  apply andb_true_iff in H. destruct H as [Ha H].
  apply andb_true_iff in H. destruct H as [Hb _].
  apply N.eqb_eq in Ha, Hb. subst a b.
  unfold blankLineRgx, at_least. rewrite rmatch_rep_eq.
  cbn [after length Nat.add].
  rewrite rep_min_step. cbn [before after caps groups_of chr].
  rewrite (chr_hit ml LF). cbn [flat_map]. rewrite app_nil_r.
  rewrite rep_min_step. cbn [before after caps].
  rewrite (chr_hit ml LF). cbn [flat_map]. rewrite app_nil_r.
  apply rep_zero_nonempty.
Qed.

Lemma blank_line_not_here ml pre s c :
  is_prefix [LF; LF] s = false ->
  rmatch ml blankLineRgx (MState pre s c) = [].
Proof.
  intros H. destruct (rmatch ml blankLineRgx (MState pre s c)) as [|y l] eqn:E; [reflexivity|].
  exfalso. assert (I : In y (rmatch ml blankLineRgx (MState pre s c))) by (rewrite E; left; reflexivity).
  apply rmatch_shape in I; [|reflexivity]. destruct I as (w & [A _] & Hw).
  apply shape_rep_cls in Hw. destruct Hw as (F & L & _).
  destruct w as [|a [|b w]]; simpl in L; try lia.
  inversion F as [|? ? Ha F']; subst. inversion F' as [|? ? Hb _]; subst.
  simpl in Ha, Hb, A. rewrite orb_false_r in Ha, Hb.
  unfold ceqb in *. apply N.eqb_eq in Ha, Hb. subst. discriminate.
Qed.

Lemma scan_blank_line ml : forall s pre,
  match scan ml blankLineRgx pre s with Some _ => true | None => false end
  = occurs [LF; LF] s.
Proof.
  induction s as [|a s IH]; intros pre.
  - reflexivity.
  - cbn [scan occurs]. destruct (is_prefix [LF; LF] (a :: s)) eqn:P.
    + pose proof (blank_line_here ml pre (a :: s) no_captures P) as N.
      destruct (rmatch ml blankLineRgx (MState pre (a :: s) no_captures)); [contradiction|reflexivity].
    + rewrite (blank_line_not_here ml pre (a :: s) no_captures P). simpl. apply IH.
Qed.

Lemma multi_paragraph_spec m1 item :
  multi_paragraph m1 item = truthy m1 || has_blank_line item.
Proof.
  unfold multi_paragraph, has_blank_line. rewrite found_iff_scan, scan_blank_line.
  reflexivity.
Qed.

Lemma blank_step ml a pre s c :
  rmatch ml blank (MState pre (a :: s) c)
  = if is_blank a then [MState (a :: pre) s c] else [].
Proof.
  unfold blank, set. cbn [rmatch after]. rewrite in_blank. cbn [xorb].
  destruct (is_blank a); [|reflexivity]. destruct s; reflexivity.
Qed.

Lemma star_unfold step gs f x :
  rep step gs true (S f) 0 None x
  = flat_map (fun y => if Nat.eqb (length (after y)) (length (after x)) then []
                       else rep step gs true f 0 None y)
      (step (MState (before x) (after x) (clear_caps gs (caps x)))) ++ [x].
Proof. reflexivity. Qed.

Lemma eqb_length_succ n : Nat.eqb n (S n) = false.
Proof. apply Nat.eqb_neq. lia. Qed.

Lemma star_blank_head ml : forall s pre c f,
  length s < f ->
  exists l, rep (rmatch ml blank) [] true f 0 None (MState pre s c)
            = MState (rev (take_blanks s) ++ pre) (drop_blanks s) c :: l.
Proof.
  induction s as [|a s IH]; intros pre c f L; (destruct f as [|f]; [lia|]);
    rewrite star_unfold; cbn [before after caps].
  - exists []. reflexivity.
  - rewrite blank_step. cbn [take_blanks drop_blanks]. destruct (is_blank a).
    + cbn [flat_map after length]. rewrite eqb_length_succ.
      destruct (IH (a :: pre) (clear_caps [] c) f) as [l E]; [simpl in L; lia|].
      rewrite E. exists ((l ++ []) ++ [MState pre (a :: s) c]).
      cbn [rev]. rewrite <- (app_assoc (rev (take_blanks s))). reflexivity.
    + exists []. reflexivity.
Qed.

Lemma leading_blanks_match s :
  exists l, rmatch false leadingBlanksRgx (MState [] s no_captures)
            = MState (rev (take_blanks s)) (drop_blanks s)
                (set_cap 1 (take_blanks s) no_captures) :: l.
Proof.
  unfold leadingBlanksRgx, star. cbn [rmatch at_bol before flat_map].
  rewrite app_nil_r. cbn [after Nat.add groups_of blank set].
  destruct (star_blank_head false s [] no_captures (S (length s))) as [l E]; [lia|].
  fold (set (js " \t")). fold blank. rewrite E. cbn [map before after caps].
  exists (map (fun y => MState (before y) (after y)
                 (set_cap 1 (between (MState [] s no_captures) y) (caps y))) l).
  f_equal. rewrite app_nil_r. unfold between. cbn [before length].
  rewrite Nat.sub_0_r, firstn_all, rev_involutive. reflexivity.
Qed.

Lemma scan_bol_none r : forall suf pre,
  pre <> [] -> scan false (Seq Bol r) pre suf = None.
Proof.
  induction suf as [|a suf IH]; intros pre H; cbn [scan rmatch at_bol before];
    destruct pre as [|p pre]; try contradiction; cbn [andb flat_map]; [reflexivity|].
  apply IH. discriminate.
Qed.

Lemma take_drop_blanks s : take_blanks s ++ drop_blanks s = s.
Proof. induction s as [|a s IH]; simpl; [reflexivity|]. destruct (is_blank a); simpl; congruence. Qed.

Lemma replace_leading_blanks p s :
  replace_g false leadingBlanksRgx (fun _ => p) s = p ++ drop_blanks s.
Proof.
  unfold replace_g, matches_g. cbn [collect scan].
  destruct (leading_blanks_match s) as [l E].
  destruct s as [|a s].
  - cbn [scan]. rewrite E. cbn -[leadingBlanksRgx]. rewrite !app_nil_r. reflexivity.
  - cbn [scan]. rewrite E. cbn [before after].
    destruct (is_blank a) eqn:B.
    + cbn [take_blanks drop_blanks] in *. rewrite B.
      assert (L : Nat.eqb (length (drop_blanks s)) (length (a :: s)) = false).
      { apply Nat.eqb_neq. pose proof (take_drop_blanks s) as T.
        apply (f_equal (@length _)) in T. rewrite length_app in T. simpl. lia. }
      rewrite L.
      rewrite collect_none
        by (apply scan_bol_none; intros Hn; apply (f_equal (@length _)) in Hn;
            rewrite ?length_rev, ?length_app in Hn; simpl in Hn; lia).
      cbn -[leadingBlanksRgx]. rewrite !app_nil_r. reflexivity.
    + cbn [take_blanks drop_blanks] in *. rewrite B. cbn [length]. rewrite Nat.eqb_refl.
      rewrite collect_none by (apply scan_bol_none; discriminate).
      cbn -[leadingBlanksRgx]. rewrite !app_nil_r. reflexivity.
Qed.

Lemma scan_non_space ml : forall s pre,
  match scan ml nonSpaceRgx pre s with Some _ => true | None => false end
  = existsb (fun c => negb (is_space c)) s.
Proof.
  induction s as [|a s IH]; intros pre; [reflexivity|].
  cbn [scan rmatch nonSpaceRgx after existsb in_item]. rewrite orb_false_r. cbn [xorb].
  destruct (negb (is_space a)); [reflexivity|]. apply IH.
Qed.

Lemma marker_shape_head w :
  shape marker w -> exists c t, w = c :: t /\ (is_bullet c = true \/ is_digit c = true).
Proof.
  intros [H|H].
  - destruct H as (c & -> & E). unfold set in E. rewrite in_bullet in E. simpl in E.
    exists c, []. auto.
  - destruct H as (w1 & w2 & -> & H1 & _).
    apply shape_rep_cls in H1. destruct H1 as (F & L & _).
    destruct w1 as [|c ds]; simpl in L; [lia|]. inversion F as [|? ? Hd _]; subst.
    simpl in Hd. rewrite orb_false_r in Hd.
    exists c, (ds ++ w2). auto.
Qed.

Lemma opt_lf_results ml x y :
  In y (rmatch ml (opt (Grp 1 (chr LF))) x) ->
  y = x \/ (starts_lf (after x) = true /\ caps y 1 = Some [LF]).
Proof.
  unfold opt. rewrite rmatch_rep_eq.
  cbn [rep Nat.eqb negb andb Nat.add option_map pred].
  intros H. apply in_app_iff in H. destruct H as [H|[<-|[]]]; [right|left; reflexivity].
  apply in_flat_map in H. destruct H as (y1 & H1 & H2).
  apply in_grp_cap in H1; [|reflexivity]. destruct H1 as (w & [A B] & (c & -> & Hc) & C).
  cbn [after before] in A, B. simpl in Hc. rewrite orb_false_r in Hc.
  unfold ceqb in Hc. apply N.eqb_eq in Hc. subst c.
  rewrite A in *. simpl app in H2. cbn [length] in H2.
  rewrite eqb_length_succ in H2. cbn [rep] in H2. destruct H2 as [<-|[]].
  split; [reflexivity|exact C].
Qed.

Lemma leading_line_captured lg x y :
  caps x 1 = None ->
  In y (rmatch true (itemRgx lg) x) ->
  truthy (caps y 1) = starts_lf (after x).
Proof.
  intros C H. unfold itemRgx in H.
  change (seq [?a1; ?a2; ?a3; ?a4; ?a5; ?a6])
    with (Seq a1 (Seq a2 (Seq a3 (Seq a4 (Seq a5 a6))))) in H.
  apply in_seq in H. destruct H as (x1 & H1 & H).
  match type of H with
  | In _ (rmatch _ ?r _) =>
      assert (G : ~ In 1 (groups_of r)) by (destruct lg; vm_compute; intuition discriminate)
  end.
  rewrite (rmatch_frame true 1 _ _ _ G H).
  apply opt_lf_results in H1. destruct H1 as [-> | [A C1]].
  - rewrite C. cbn [truthy]. destruct (after x) as [|c s] eqn:A; [reflexivity|].
    cbn [starts_lf]. unfold ceqb. destruct (N.eqb_spec c 10) as [->|]; [|reflexivity].
    exfalso.
    apply in_seq in H. destruct H as (x2 & H2 & H).
    apply in_seq in H. destruct H as (x3 & H3 & _).
    apply rmatch_shape in H2; [|reflexivity]. destruct H2 as (w2 & [A2 _] & P2).
    apply rmatch_shape in H3; [|reflexivity]. destruct H3 as (w3 & [A3 _] & P3).
    destruct P2 as (w20 & w21 & E2 & B2 & P2). simpl in B2. subst w20 w2.
    apply shape_rep_cls in P2. destruct P2 as (F2 & _ & _).
    apply marker_shape_head in P3. destruct P3 as (c3 & t3 & -> & E3).
    rewrite A in A2. rewrite A3 in A2. simpl in A2.
    destruct w21 as [|sp w21]; simpl in A2; inversion A2; subst.
    + destruct E3 as [E3|E3]; vm_compute in E3; discriminate.
    + inversion F2; subst. simpl in H1. discriminate.
  - rewrite C1, A. reflexivity.
Qed.

End TextFacts.

Section Paragraphs.

Variable env : Env.
Import ReFacts MarkerFacts TextFacts.

Lemma wrap_graf_spec str :
  wrap_graf env str
  = if is_opaque str then [str]
    else if existsb (fun c => negb (is_space c)) str
         then [js "<p>" ++ drop_blanks (spanGamut env str) ++ js "</p>"]
         else [].
Proof.
  unfold wrap_graf, is_opaque. destruct (search false htmlMarkerRgx str); [reflexivity|].
  rewrite <- (scan_non_space false str []), <- found_iff_scan.
  destruct (search false nonSpaceRgx str); [|reflexivity].
  rewrite replace_leading_blanks, <- app_assoc. reflexivity.
Qed.


End Paragraphs.

Section Hooks.

Variable env : Env.


End Hooks.


Section TaskItems.

Variable env : Env.
Import ReFacts MarkerFacts TextFacts.

Lemma checkbox_at_start raw rest f :
  raw = 120%N \/ raw = 88%N \/ raw = 32%N ->
  replace1 true checkboxRgx f (91%N :: raw :: 93%N :: rest)
  = f (MRes 0 [91%N; raw; 93%N] (set_cap 1 [raw] no_captures)) ++ rest.
Proof. intros [-> | [-> | ->]]; vm_compute; reflexivity. Qed.

Lemma is_checked_token raw :
  raw = 120%N \/ raw = 88%N \/ raw = 32%N ->
  is_checked (Some [raw]) = negb (N.eqb raw 32).
Proof. intros [-> | [-> | ->]]; reflexivity. Qed.

Lemma bind_ret_l {A B} (a : A) (f : A -> M B) : bind (ret a) f = f a.
Proof. reflexivity. Qed.

Lemma listItem_of_event is_task whole item taskbtn checkedRaw checked :
  listItem_of (item_event env is_task whole item taskbtn checkedRaw checked) = Some item.
Proof. destruct is_task; reflexivity. Qed.


End TaskItems.

Section EscapedMarker.

Lemma str_eqb_eq : forall a b, str_eqb a b = true -> a = b.
Proof.
  induction a as [|x a IH]; intros [|y b] H; simpl in H; try discriminate; [reflexivity|].
  apply andb_true_iff in H. destruct H as [H1 H2].
  apply N.eqb_eq in H1. subst y. f_equal. auto.
Qed.

(** C6: with no listener registered and helpers that leave the texts met on
    the way alone, the line [- - - a] renders as one [<ul>] with one [<li>]
    whose content is [- - a], alone or between blank lines: the guard puts
    the escape marker before the body [- - a], the nested call of the
    transform leaves the guarded body as it is, and no escape marker is left
    in the result. *)
Theorem triple_dash_single_item :
  forall env depth,
    (forall e, dispatch env e = e) ->
    outdent env (js "- - a\n") = js "- - a\n" ->
    hashHTMLBlocks env (js "¨A- - a") = js "¨A- - a" ->
    spanGamut env (js "¨A- - a") = js "¨A- - a" ->
    populateAttributes env [] = [] ->
    populateAttributes env [("start"%string, ANull)] = [] ->
    guard_marker (js "- - a\n") = js "¨A- - a\n"
    /\ makehtml_list env (S depth) (js "¨A- - a\n") (Globals 1 [1%Z])
       = Some (Some (js "¨A- - a\n"), Globals 1 [1%Z])
    /\ makehtml_list env (S (S depth)) (js "- - - a\n") fresh
       = Some (Some (js "\n\n<ul>\n<li>- - a</li>\n</ul>\n"), Globals 0 [0; 1]%Z)
    /\ makehtml_list env (S (S depth)) (js "\n\n- - - a\n\n") fresh
       = Some (Some (js "\n\n<ul>\n<li>- - a</li>\n</ul>\n"), Globals 0 [0; 1]%Z)
    /\ occurs (js "¨A") (js "\n\n<ul>\n<li>- - a</li>\n</ul>\n") = false.
Proof.
  intros [[tl ms lg] d f1 f2 f3 f4 f5 hb pg sg od pa] depth. cbn [dispatch outdent hashHTMLBlocks spanGamut populateAttributes].
  intros Hd Ho Hh Hs Hp0 Hp1.
  assert (Ed : d = fun e => e) by (apply functional_extensionality; exact Hd).
  subst d.
  set (od' := fun s => if str_eqb s (js "- - a\n") then js "- - a\n" else od s).
  assert (Eo : od = od').
  { apply functional_extensionality. intros s. unfold od'.
    destruct (str_eqb s (js "- - a\n")) eqn:E; [|reflexivity].
    apply str_eqb_eq in E. subst s. exact Ho. }
  set (hb' := fun s => if str_eqb s (js "¨A- - a") then js "¨A- - a" else hb s).
  assert (Eh : hb = hb').
  { apply functional_extensionality. intros s. unfold hb'.
    destruct (str_eqb s (js "¨A- - a")) eqn:E; [|reflexivity].
    apply str_eqb_eq in E. subst s. exact Hh. }
  set (sg' := fun s => if str_eqb s (js "¨A- - a") then js "¨A- - a" else sg s).
  assert (Es : sg = sg').
  { apply functional_extensionality. intros s. unfold sg'.
    destruct (str_eqb s (js "¨A- - a")) eqn:E; [|reflexivity].
    apply str_eqb_eq in E. subst s. exact Hs. }
  set (pa' := fun a : attributes =>
                match a with
                | [] => []
                | [(k, ANull)] => if String.eqb k "start" then [] else pa a
                | _ => pa a
                end).
  assert (Ep : pa = pa').
  { apply functional_extensionality. intros a. unfold pa'.
    destruct a as [|[k v] [|kv a]]; [exact Hp0| |destruct v; reflexivity].
    destruct v; try reflexivity.
    destruct (String.eqb k "start") eqn:E; [|reflexivity].
    apply String.eqb_eq in E. subst k. exact Hp1. }
  rewrite Eo, Eh, Es, Ep.
  split; [|split; [|split; [|split]]].
  - vm_compute. reflexivity.
  - destruct tl, ms, lg; vm_compute; reflexivity.
  - destruct tl, ms, lg; vm_compute; reflexivity.
  - destruct tl, ms, lg; vm_compute; reflexivity.
  - vm_compute. reflexivity.
Qed.

End EscapedMarker.

Module SubFacts.
Import ReFacts MarkerFacts.

Lemma substring_refl s : substring s s.
Proof. exists [], []. rewrite app_nil_r. reflexivity. Qed.

Lemma substring_trans a b c : substring a b -> substring b c -> substring a c.
Proof.
  intros (p & q & ->) (p' & q' & ->). exists (p' ++ p), (q ++ q').
  rewrite <- !app_assoc. reflexivity.
Qed.

Lemma substring_prefix p t : substring p (p ++ t).
Proof. exists [], t. reflexivity. Qed.

Lemma substring_suffix p t : substring t (p ++ t).
Proof. exists p, []. rewrite app_nil_r. reflexivity. Qed.

Lemma substring_firstn n s : substring (firstn n s) s.
Proof. rewrite <- (firstn_skipn n s) at 2. apply substring_prefix. Qed.

Lemma substring_skipn n s : substring (skipn n s) s.
Proof. rewrite <- (firstn_skipn n s) at 2. apply substring_suffix. Qed.

Lemma substring_middle a w b : substring w (a ++ w ++ b).
Proof. exists a, b. reflexivity. Qed.

(** A piece that ends with a line feed does not reach into the sentinel. *)
Lemma substring_sentinel w s :
  substring (w ++ [LF]) (s ++ Z0) -> substring (w ++ [LF]) s.
Proof.
  intros (a & b & E).
  assert (R : rev Z0 ++ rev s = rev b ++ LF :: rev w ++ rev a).
  { apply (f_equal (@rev _)) in E. rewrite !rev_app_distr in E. simpl in E.
    rewrite <- !app_assoc in E. simpl in E. exact E. }
  destruct (rev b) as [|c1 [|c2 rb]] eqn:B; simpl in R.
  - inversion R.
  - inversion R.
  - inversion R; subst c1 c2.
    assert (Eb : b = rev rb ++ Z0).
    { rewrite <- (rev_involutive b), B. simpl. rewrite <- app_assoc. reflexivity. }
    subst b. rewrite !app_assoc in E. apply app_inv_tail in E.
    exists a, (rev rb). rewrite E, <- !app_assoc. reflexivity.
Qed.

Lemma whole_bound text w :
  substring w text -> w <> [] -> starts_uml w = false ->
  length w + (if starts_uml text then 1 else 0) <= length text.
Proof.
  intros (a & b & ->) N U. rewrite !length_app.
  destruct a as [|c a]; simpl.
  - destruct w as [|d w]; [contradiction|]. simpl in *. rewrite U. lia.
  - destruct (ceqb c 168); lia.
Qed.

Lemma caps_in_clear T gs c : caps_in T c -> caps_in T (clear_caps gs c).
Proof.
  intros H n s. unfold clear_caps. destruct (existsb (Nat.eqb n) gs); [discriminate|apply H].
Qed.

Lemma steps_substring x y w :
  steps x y w -> substring w (rev (before x) ++ after x).
Proof. intros [A _]. rewrite A. apply substring_middle. Qed.

Lemma rep_caps_in (step : mstate -> list mstate) gs greedy T :
  (forall x y, In y (step x) -> rev (before x) ++ after x = T -> caps_in T (caps x) ->
               rev (before y) ++ after y = T /\ caps_in T (caps y)) ->
  forall fuel min max x y,
    In y (rep step gs greedy fuel min max x) ->
    rev (before x) ++ after x = T -> caps_in T (caps x) ->
    rev (before y) ++ after y = T /\ caps_in T (caps y).
Proof.
  intros Hstep. induction fuel as [|fuel IH]; intros min max x y Hin HT HC; simpl in Hin.
  - contradiction.
  - assert (Hit : In y (flat_map (fun y0 =>
                   if Nat.eqb min 0 && Nat.eqb (length (after y0)) (length (after x))
                   then [] else rep step gs greedy fuel (pred min) (option_map pred max) y0)
                   (step (MState (before x) (after x) (clear_caps gs (caps x))))) ->
                 rev (before y) ++ after y = T /\ caps_in T (caps y)).
    { intros Hi. apply in_flat_map in Hi. destruct Hi as (y1 & Hy1 & Hi).
      destruct (Nat.eqb min 0 && Nat.eqb (length (after y1)) (length (after x))); [contradiction|].
      apply Hstep in Hy1; [|exact HT|apply caps_in_clear; exact HC].
      destruct Hy1 as [T1 C1]. eapply IH; eassumption. }
    destruct max as [[|k]|].
    + destruct Hin as [<-|[]]. auto.
    + destruct (Nat.eqb min 0); simpl in Hin; auto.
      destruct greedy; [apply in_app_or in Hin; destruct Hin as [Hin|[<-|[]]]|destruct Hin as [<-|Hin]]; auto.
    + destruct (Nat.eqb min 0); simpl in Hin; auto.
      destruct greedy; [apply in_app_or in Hin; destruct Hin as [Hin|[<-|[]]]|destruct Hin as [<-|Hin]]; auto.
Qed.

Theorem rmatch_caps_in ml T : forall r x y,
  wf r = true -> In y (rmatch ml r x) ->
  rev (before x) ++ after x = T -> caps_in T (caps x) ->
  rev (before y) ++ after y = T /\ caps_in T (caps y).
Proof.
  induction r; intros x y W H HT HC;
    try (pose proof (rmatch_shape ml _ _ _ W H) as (w0 & S0 & _);
         pose proof (steps_input _ _ _ S0) as I0).
  - destruct H as [<-|[]]. auto.
  - apply in_cls in H. destruct H as (c & _ & _ & C & _). rewrite C. split; [congruence|assumption].
  - split; [congruence|].
    cbn [rmatch] in H. destruct (after x) as [|c s] eqn:A; [contradiction|].
    destruct (is_line_terminator c); [contradiction|].
    destruct H as [<-|[]]. rewrite (advance_one x c s A). exact HC.
  - apply in_bol in H. destruct H as [-> _]. auto.
  - apply in_eol in H. destruct H as [-> _]. auto.
  - simpl in W. apply andb_true_iff in W. destruct W as [W1 W2].
    apply in_seq in H. destruct H as (y0 & H1 & H2).
    destruct (IHr1 _ _ W1 H1 HT HC) as [T1 C1]. eapply IHr2; eassumption.
  - simpl in W. apply andb_true_iff in W. destruct W as [W1 W2].
    apply in_alt in H. destruct H as [H|H]; [eapply IHr1|eapply IHr2]; eassumption.
  - simpl in W. apply andb_true_iff in W. destruct W as [W1 W2].
    rewrite rmatch_rep_eq in H. eapply rep_caps_in; [|eassumption|exact HT|exact HC].
    intros x0 y0 H0. apply IHr; assumption.
  - split; [congruence|].
    apply in_grp in H. destruct H as (y0 & H & B & A & C).
    destruct (IHr _ _ W H HT HC) as [T1 C1].
    destruct (rmatch_shape ml r _ _ W H) as (w & S1 & _).
    intros k s. rewrite C. unfold set_cap. destruct (Nat.eqb k n).
    + intros E. inversion E; subst s. rewrite (between_steps _ _ _ S1), <- HT.
      apply (steps_substring _ _ _ S1).
    + apply C1.
  - split; [congruence|].
    cbn [rmatch] in H. destruct positive.
    + destruct (rmatch ml r x) as [|y1 l] eqn:E; [contradiction|]. destruct H as [<-|[]]. simpl.
      eapply IHr; [exact W| |exact HT|exact HC]. rewrite E. left. reflexivity.
    + destruct (rmatch ml r x); [|contradiction]. destruct H as [<-|[]]. exact HC.
  - split; [congruence|].
    pose proof (rmatch_frame ml) as F.
    intros k s E. apply (HC k). rewrite <- E. symmetry.
    apply (F k (Bref n) x y); [intros []|exact H].
Qed.

(** What a [g]-flagged replace visits are matches at positions of the
    input. *)
Lemma collect_sound ml r (W : wf r = true) T : forall fuel pend pre suf l tl,
  collect fuel ml r pend pre suf = (l, tl) ->
  rev pre ++ suf = T ->
  forall gap res, In (gap, res) l ->
    exists x y l', rmatch ml r x = y :: l' /\ res = mk_res x y
                   /\ rev (before x) ++ after x = T /\ caps x = no_captures.
Proof.
  induction fuel as [|fuel IH]; intros pend pre suf l tl H HT gap res Hin; simpl in H.
  - inversion H; subst. contradiction.
  - destruct (scan ml r pre suf) as [[x y]|] eqn:S1; [|inversion H; subst; contradiction].
    pose proof (scan_some _ _ _ _ _ _ S1) as (sk & rest & -> & -> & (l' & Hm) & _).
    assert (Hx : rev (before (MState (rev sk ++ pre) rest no_captures))
                 ++ after (MState (rev sk ++ pre) rest no_captures) = T).
    { simpl. rewrite rev_app_distr, rev_involutive, <- app_assoc. exact HT. }
    assert (Hy : rev (before y) ++ after y = T).
    { assert (I : In y (rmatch ml r (MState (rev sk ++ pre) rest no_captures)))
        by (rewrite Hm; left; reflexivity).
      destruct (rmatch_shape ml _ _ _ W I) as (w & S2 & _).
      rewrite (steps_input _ _ _ S2). exact Hx. }
    assert (Hhere : exists x0 y0 l0, rmatch ml r x0 = y0 :: l0
                      /\ mk_res (MState (rev sk ++ pre) rest no_captures) y = mk_res x0 y0
                      /\ rev (before x0) ++ after x0 = T /\ caps x0 = no_captures).
    { exists (MState (rev sk ++ pre) rest no_captures), y, l'. auto. }
    destruct (Nat.eqb (length (after y)) (length (after (MState (rev sk ++ pre) rest no_captures)))).
    + destruct (after y) as [|c rest'] eqn:A.
      * inversion H; subst. destruct Hin as [E|[]]. inversion E; subst. exact Hhere.
      * destruct (collect fuel ml r [c] (c :: before y) rest') as [l1 tl1] eqn:C1.
        inversion H; subst. destruct Hin as [E|Hin].
        -- inversion E; subst. exact Hhere.
        -- eapply IH; [exact C1| |exact Hin]. simpl. rewrite <- app_assoc. exact Hy.
    + destruct (collect fuel ml r [] (before y) (after y)) as [l1 tl1] eqn:C1.
      inversion H; subst. destruct Hin as [E|Hin].
      * inversion E; subst. exact Hhere.
      * eapply IH; [exact C1|exact Hy|exact Hin].
Qed.

End SubFacts.

Module ItemFacts.
Import ReFacts MarkerFacts SubFacts TextFacts.

Lemma bullet_not_uml c : is_bullet c = true -> ceqb c 168 = false.
Proof.
  unfold is_bullet, ceqb. intros H.
  destruct (N.eqb_spec c 42), (N.eqb_spec c 43), (N.eqb_spec c 45); try discriminate;
    subst; reflexivity.
Qed.

Lemma digit_not_uml c : is_digit c = true -> ceqb c 168 = false.
Proof.
  unfold is_digit, ceqb. intros H. apply andb_true_iff in H. destruct H as [H1 H2].
  apply N.leb_le in H1, H2. apply N.eqb_neq. lia.
Qed.

Lemma marker_shape_first w :
  shape marker w -> exists c t, w = c :: t /\ ceqb c 168 = false.
Proof.
  intros [H|H].
  - destruct H as (c & -> & E). unfold set in E. rewrite in_bullet in E. simpl in E.
    exists c, []. split; [reflexivity|apply bullet_not_uml; assumption].
  - destruct H as (w1 & w2 & -> & H1 & _).
    apply shape_rep_cls in H1. destruct H1 as (F & L & _).
    destruct w1 as [|c ds]; simpl in L; [lia|]. inversion F as [|? ? Hd _]; subst.
    simpl in Hd. rewrite orb_false_r in Hd.
    exists c, (ds ++ w2). split; [reflexivity|apply digit_not_uml; assumption].
Qed.

Lemma spaces_then_first sp c t rest :
  Forall (fun a => ceqb a 32 = true) sp -> ceqb c 168 = false ->
  sp ++ (c :: t) ++ rest <> [] /\ starts_uml (sp ++ (c :: t) ++ rest) = false.
Proof.
  intros F E. destruct sp as [|a sp]; simpl.
  - split; [discriminate|assumption].
  - split; [discriminate|]. inversion F; subst. unfold ceqb in *.
    apply N.eqb_eq in H1. subst a. reflexivity.
Qed.

Lemma opt_lf_shape n w :
  shape (opt (Grp n (chr LF))) w -> w = [] \/ w = [LF].
Proof.
  intros H.
  change (shape (Rep 0 (Some 1) true (Cls false [CLit LF])) w) in H.
  apply shape_rep_cls in H. destruct H as (F & _ & L).
  destruct w as [|c [|d w]]; simpl in L; try lia; [left; reflexivity|right].
  inversion F as [|? ? Hc _]; subst. simpl in Hc. rewrite orb_false_r in Hc.
  unfold ceqb in Hc. apply N.eqb_eq in Hc. subst. reflexivity.
Qed.

Lemma lf_run_last n w :
  shape (Grp n (fromto 1 2 (chr LF))) w -> exists w', w = w' ++ [LF].
Proof.
  intros H.
  change (shape (Rep 1 (Some 2) true (Cls false [CLit LF])) w) in H.
  apply shape_rep_cls in H. destruct H as (F & L1 & L2).
  assert (E : forall c, In c w -> c = LF).
  { intros c I. rewrite Forall_forall in F. specialize (F c I). simpl in F.
    rewrite orb_false_r in F. unfold ceqb in F. apply N.eqb_eq in F. exact F. }
  destruct w as [|a [|b [|c w]]]; simpl in L1, L2; try lia.
  - exists []. rewrite (E a); [reflexivity|left; reflexivity].
  - exists [a]. rewrite (E b); [reflexivity|right; left; reflexivity].
Qed.

(** What one item match consists of. *)
Lemma item_match lg x y :
  In y (rmatch true (itemRgx lg) x) ->
  exists w w5, steps x y w /\ caps y 4 = Some w5 /\ length w5 + 2 <= length w
               /\ (exists w', w = w' ++ [LF]) /\ w <> [] /\ starts_uml w = false.
Proof.
  intros H. unfold itemRgx in H.
  change (seq [?a1; ?a2; ?a3; ?a4; ?a5; ?a6])
    with (Seq a1 (Seq a2 (Seq a3 (Seq a4 (Seq a5 a6))))) in H.
  apply in_seq in H. destruct H as (x1 & H1 & H).
  apply in_seq in H. destruct H as (x2 & H2 & H).
  apply in_seq in H. destruct H as (x3 & H3 & H).
  apply in_seq in H. destruct H as (x4 & H4 & H).
  apply in_seq in H. destruct H as (x5 & H5 & H6).
  apply rmatch_shape in H1; [|reflexivity]. destruct H1 as (w1 & S1 & P1).
  apply rmatch_shape in H2; [|reflexivity]. destruct H2 as (w2 & S2 & P2).
  apply rmatch_shape in H3; [|reflexivity]. destruct H3 as (w3 & S3 & P3).
  apply rmatch_shape in H4; [|reflexivity]. destruct H4 as (w4 & S4 & P4).
  apply in_grp_cap in H5; [|reflexivity]. destruct H5 as (w5 & S5 & P5 & C5).
  match type of H6 with
  | In _ (rmatch _ ?r _) =>
      assert (G6 : ~ In 4 (groups_of r)) by (destruct lg; vm_compute; intuition discriminate)
  end.
  pose proof (rmatch_frame true 4 _ _ _ G6 H6) as C6.
  apply rmatch_shape in H6; [|destruct lg; reflexivity]. destruct H6 as (w6 & S6 & P6).
  simpl in P6. subst w6.
  exists (w1 ++ w2 ++ w3 ++ w4 ++ w5 ++ []), w5.
  apply opt_lf_shape in P1.
  destruct P2 as (w20 & w21 & E2 & B2 & P2). simpl in B2. subst w20 w2.
  apply shape_rep_cls in P2.
  destruct P2 as (F2 & _ & _).
  apply marker_shape_first in P3. destruct P3 as (c3 & t3 & -> & E3).
  apply shape_rep_cls in P4. destruct P4 as (_ & L4 & _).
  destruct P5 as (w50 & w5' & -> & _ & (w51 & w5'' & -> & _ & (w52 & w53 & -> & _ & P5))).
  apply lf_run_last in P5. destruct P5 as (w' & ->).
  split; [|split; [|split; [|split]]].
  - eapply steps_trans; [exact S1|]. eapply steps_trans; [exact S2|].
    eapply steps_trans; [exact S3|]. eapply steps_trans; [exact S4|].
    eapply steps_trans; [exact S5|exact S6].
  - rewrite C6. exact C5.
  - rewrite !length_app. simpl. lia.
  - exists (w1 ++ ([] ++ w21) ++ (c3 :: t3) ++ w4 ++ w50 ++ w51 ++ w52 ++ w').
    rewrite app_nil_r, <- !app_assoc. reflexivity.
  - assert (F2' : Forall (fun a => ceqb a 32 = true) w21).
    { eapply Forall_impl; [|exact F2]. simpl. intros a Ha. rewrite orb_false_r in Ha. exact Ha. }
    destruct (spaces_then_first w21 c3 t3 (w4 ++ (w50 ++ w51 ++ w52 ++ w' ++ [LF]) ++ []) F2' E3) as [N U].
    destruct P1 as [-> | ->]; simpl; [|split; [discriminate|reflexivity]].
    split; assumption.
Qed.

(** The groups read by the callbacks of the two boundary patterns. *)
Lemma subList_groups x y :
  In y (rmatch true subListRgx x) ->
  exists l m, caps y 1 = Some l /\ caps y 2 = Some m.
Proof.
  intros H. unfold subListRgx in H.
  apply in_seq in H. destruct H as (x1 & _ & H).
  pose proof H as H'. apply in_grp_cap in H'; [|reflexivity].
  destruct H' as (l & _ & _ & C1).
  apply in_grp in H. destruct H as (y0 & H & _ & _ & C).
  change (seq [?a; ?b; ?c]) with (Seq a (Seq b c)) in H.
  apply in_seq in H. destruct H as (x2 & H2 & H).
  apply in_grp_cap in H2; [|reflexivity]. destruct H2 as (m & _ & _ & C2).
  apply (rmatch_frame true 2) in H; [|vm_compute; intuition discriminate].
  exists l, m. split; [exact C1|]. rewrite C. unfold set_cap. simpl. congruence.
Qed.

Lemma mainList_groups x y :
  In y (rmatch true mainListRgx x) ->
  exists l m, caps y 2 = Some l /\ caps y 3 = Some m.
Proof.
  intros H. unfold mainListRgx in H.
  apply in_seq in H. destruct H as (x1 & _ & H).
  pose proof H as H'. apply in_grp_cap in H'; [|reflexivity].
  destruct H' as (l & _ & _ & C1).
  apply in_grp in H. destruct H as (y0 & H & _ & _ & C).
  change (seq [?a; ?b; ?c]) with (Seq a (Seq b c)) in H.
  apply in_seq in H. destruct H as (x2 & H2 & H).
  apply in_grp_cap in H2; [|reflexivity]. destruct H2 as (m & _ & _ & C2).
  apply (rmatch_frame true 3) in H; [|vm_compute; intuition discriminate].
  exists l, m. split; [exact C1|]. rewrite C. unfold set_cap. simpl. congruence.
Qed.

End ItemFacts.

Module GuardFacts.
Import ReFacts MarkerFacts SubFacts TextFacts ItemFacts.

Lemma scan_first ml r pre suf y l :
  rmatch ml r (MState pre suf no_captures) = y :: l ->
  scan ml r pre suf = Some (MState pre suf no_captures, y).
Proof. intros H. destruct suf; simpl; rewrite H; reflexivity. Qed.

Lemma scan_bol_only r s :
  rmatch false (Seq Bol r) (MState [] s no_captures) = [] ->
  scan false (Seq Bol r) [] s = None.
Proof.
  intros H. destruct s as [|c s]; cbn [scan]; rewrite H; [reflexivity|].
  apply scan_bol_none. discriminate.
Qed.

Lemma guard_marker_cases s :
  guard_marker s = s \/ guard_marker s = js "¨A" ++ s.
Proof.
  unfold guard_marker, replace_g, matches_g. cbn [collect].
  set (r' := seq [Grp 1 (Alt (set (js "-*+")) (Seq digit (chr 46)));
                  plus blank;
                  star (Cls false [CNonSpace; CLit LF; CLit SP])]).
  change leadingMarkerRgx with (Seq Bol r').
  destruct (rmatch false (Seq Bol r') (MState [] s no_captures)) as [|y l] eqn:E.
  - left. rewrite (scan_bol_only _ _ E). reflexivity.
  - right. rewrite (scan_first _ _ _ _ _ _ E).
    assert (I : In y (rmatch false (Seq Bol r') (MState [] s no_captures)))
      by (rewrite E; left; reflexivity).
    apply rmatch_shape in I; [|reflexivity].
    destruct I as (w & S1 & (w0 & w1 & -> & -> & (w2 & w3 & -> & P2 & _))).
    assert (N : w2 <> []).
    { destruct P2 as [(c & -> & _)|(a & b & -> & (c & -> & _) & _)]; discriminate. }
    pose proof (steps_length _ _ _ S1) as L. pose proof (between_steps _ _ _ S1) as B.
    destruct S1 as [A1 B1]. cbn [before after] in *.
    assert (Ne : Nat.eqb (length (after y)) (length s) = false).
    { apply Nat.eqb_neq. rewrite L, !length_app. destruct w2; [contradiction|]. simpl. lia. }
    rewrite Ne. rewrite collect_none.
    + cbn [flat_map fst snd m_whole mk_res app]. rewrite B.
      unfold between. cbn [before length firstn rev app].
      rewrite app_nil_r, A1, <- !app_assoc. reflexivity.
    + apply scan_bol_none. rewrite B1. destruct w2; [contradiction|].
      simpl. intros Hn. apply (f_equal (@length _)) in Hn.
      rewrite !length_app in Hn. simpl in Hn. lia.
Qed.

Lemma guard_heading_length s : length (guard_heading s) <= length s + 1.
Proof.
  unfold guard_heading. destruct (test false headingThenTextRgx s); [|lia].
  unfold replace1. destruct (scan true headingLineRgx [] s) as [[x y]|] eqn:S1; [|lia].
  apply scan_some in S1. destruct S1 as (sk & rest & -> & -> & (l & Hm) & _).
  assert (I : In y (rmatch true headingLineRgx (MState (rev sk ++ []) rest no_captures)))
    by (rewrite Hm; left; reflexivity).
  unfold headingLineRgx in I.
  change (seq [?a; ?b; ?c]) with (Seq a (Seq b c)) in I.
  apply in_seq in I. destruct I as (x1 & I1 & I).
  apply in_bol in I1. destruct I1 as [-> _].
  apply in_seq in I. destruct I as (y1 & I2 & I3).
  apply in_eol in I3. destruct I3 as [-> _].
  apply in_grp_cap in I2; [|reflexivity]. destruct I2 as (w & [A _] & _ & C).
  cbn [m_group mk_res before after] in *. rewrite C, A.
  rewrite app_nil_r, rev_involutive, !length_app. simpl. lia.
Qed.

Lemma guard_heading_uml s : starts_uml s = true -> guard_heading s = s.
Proof.
  intros U. unfold guard_heading, test, exec.
  change headingThenTextRgx
    with (Seq Bol (seq [plus (chr 35); plus Dot; chr LF; plus Dot])).
  rewrite scan_bol_only; [reflexivity|].
  match goal with |- ?t = [] => destruct t as [|y l] eqn:E end; [reflexivity|].
  exfalso.
  match type of E with ?t = _ => assert (I : In y t) by (rewrite E; left; reflexivity) end.
  apply rmatch_shape in I; [|reflexivity].
  destruct I as (w & [A _] & (w0 & w1 & -> & -> & (w2 & w3 & -> & P2 & _))).
  apply shape_rep_cls in P2. destruct P2 as (F & L & _).
  destruct w2 as [|c w2]; simpl in L; [lia|]. inversion F as [|? ? Hc _]; subst.
  simpl in Hc, A. rewrite orb_false_r in Hc. subst s. simpl in U.
  unfold ceqb in *. apply N.eqb_eq in Hc, U. congruence.
Qed.

Lemma trailing_trim_prefix s :
  exists t, s = replace1 false trailingBlankRgx (fun _ => js "\n") s ++ t.
Proof.
  unfold replace1. destruct (scan false trailingBlankRgx [] s) as [[x y]|] eqn:S1.
  - apply scan_some in S1. destruct S1 as (sk & rest & -> & -> & (l & Hm) & _).
    assert (I : In y (rmatch false trailingBlankRgx (MState (rev sk ++ []) rest no_captures)))
      by (rewrite Hm; left; reflexivity).
    unfold trailingBlankRgx in I.
    apply in_seq in I. destruct I as (y1 & I1 & I2).
    apply in_eol in I2. destruct I2 as [-> E].
    apply rmatch_shape in I1; [|reflexivity]. destruct I1 as (w & [A _] & P).
    apply shape_rep_cls in P. destruct P as (F & L & _).
    unfold at_eol in E. cbn [before after] in *.
    destruct (after y1); [|discriminate].
    destruct w as [|c w]; simpl in L; [lia|]. inversion F as [|? ? Hc _]; subst.
    simpl in Hc. rewrite orb_false_r in Hc. unfold ceqb in Hc. apply N.eqb_eq in Hc. subst c.
    exists w. rewrite !app_nil_r, rev_involutive, <- app_assoc. reflexivity.
  - exists []. rewrite app_nil_r. reflexivity.
Qed.

Lemma total_ret {A} (a : A) : total (ret a).
Proof. intros g. exists a, g. reflexivity. Qed.

Lemma total_bind {A B} (c : M A) (f : A -> M B) (P : A -> Prop) :
  total c -> (forall g a g', c g = Some (a, g') -> P a) ->
  (forall a, P a -> total (f a)) -> total (bind c f).
Proof.
  intros Hc HP Hf g. destruct (Hc g) as (a & g1 & E). unfold bind. rewrite E.
  apply Hf. eapply HP. exact E.
Qed.

Lemma total_bind_any {A B} (c : M A) (f : A -> M B) :
  total c -> (forall a, total (f a)) -> total (bind c f).
Proof. intros Hc Hf. apply (total_bind c f (fun _ => True)); auto. Qed.

Lemma returns_total c : returns_string c -> total c.
Proof. intros H g. destruct (H g) as (s & g' & E). exists (Some s), g'. exact E. Qed.

Lemma returns_bind {A} (c : M A) (f : A -> M (option jsstring)) :
  total c -> (forall a, returns_string (f a)) -> returns_string (bind c f).
Proof.
  intros Hc Hf g. destruct (Hc g) as (a & g1 & E). unfold bind. rewrite E. apply Hf.
Qed.

Lemma total_replace_each f l :
  (forall gap m, In (gap, m) l -> total (f m)) -> total (replace_each f l).
Proof.
  induction l as [|[gap m] l IH]; intros H; simpl.
  - apply total_ret.
  - apply total_bind_any; [apply (H gap); left; reflexivity|]. intros r.
    apply total_bind_any; [apply IH; intros gap' m' I; apply (H gap'); right; exact I|].
    intros rest. apply total_ret.
Qed.

Lemma runs_substring lg : forall k t txt t' s,
  In (t', s) (runs lg k t txt) -> substring s txt.
Proof.
  induction k as [|k IH]; intros t txt t' s I; simpl in I.
  - destruct I as [E|[]]. inversion E. apply substring_refl.
  - destruct (search true (counter_of lg t) txt) as [p|].
    + destruct I as [E|I].
      * inversion E. apply substring_firstn.
      * eapply substring_trans; [eapply IH; exact I|apply substring_skipn].
    + destruct I as [E|[]]. inversion E. apply substring_refl.
Qed.

End GuardFacts.

Section Termination.

Variable env : Env.
Import ReFacts MarkerFacts SubFacts TextFacts ItemFacts GuardFacts SplitFacts.

Hypothesis no_listener : forall e, dispatch env e = e.
Hypothesis no_tasklists : tasklists (options env) = false.
Hypothesis outdent_short : forall s, length (outdent env s) <= length s.
Hypothesis blocks_short : forall s,
  let s' := heading env (blockquote env (githubCodeBlock env s)) in
  length s' <= length s /\ (starts_uml s = true -> starts_uml s' = true).

Lemma fragment_measure text w m4 :
  substring w text -> w <> [] -> starts_uml w = false ->
  length m4 + 2 <= length w ->
  let item := guard_heading (guard_marker (outdent env m4)) in
  measure item < measure text
  /\ measure (heading env (blockquote env (githubCodeBlock env item))) < measure text.
Proof.
  intros Sub N U L item.
  pose proof (whole_bound text w Sub N U) as B.
  pose proof (outdent_short m4) as O.
  destruct (blocks_short item) as [P1 P2].
  set (item' := heading env (blockquote env (githubCodeBlock env item))) in *.
  unfold measure. subst item.
  destruct (guard_marker_cases (outdent env m4)) as [E|E]; rewrite E in *.
  - pose proof (guard_heading_length (outdent env m4)) as G.
    destruct (starts_uml text), (starts_uml (guard_heading (outdent env m4))),
      (starts_uml item'); lia.
  - assert (U1 : starts_uml (js "¨A" ++ outdent env m4) = true) by reflexivity.
    rewrite (guard_heading_uml _ U1) in *. rewrite U1. rewrite (P2 U1).
    assert (L1 : length (js "¨A" ++ outdent env m4) = 2 + length (outdent env m4))
      by reflexivity.
    destruct (starts_uml text); lia.
Qed.

Section Body.

Variable self : jsstring -> M (option jsstring).
Variable text : jsstring.
Hypothesis self_total : forall s, measure s < measure text -> returns_string (self s).

Lemma item_body_total isParagraphed m1 w m4 :
  substring w text -> w <> [] -> starts_uml w = false ->
  length m4 + 2 <= length w ->
  total (item_body env self isParagraphed m1 (outdent env m4)).
Proof.
  intros Sub N U L.
  destruct (fragment_measure text w m4 Sub N U L) as [M1 M2].
  unfold item_body. apply total_bind_any; [|intros; apply total_ret].
  destruct (multi_paragraph _ _).
  - unfold render_loose. apply total_bind_any; [|intros; apply total_ret].
    apply returns_total, self_total. exact M2.
  - unfold render_tight.
    apply (total_bind _ _ (fun o => exists s, o = Some s)).
    + apply returns_total, self_total. exact M1.
    + intros g o g' E. destruct (self_total _ M1 g) as (s & g2 & E').
      rewrite E' in E. inversion E. exists s. reflexivity.
    + intros o [s ->]. cbn [defined]. rewrite bind_ret_l. apply total_ret.
Qed.

Lemma listItem_total isParagraphed m w m4 :
  m_group m 4 = Some m4 ->
  substring w text -> w <> [] -> starts_uml w = false ->
  length m4 + 2 <= length w ->
  total (listItem env self isParagraphed m).
Proof.
  intros G Sub N U L. unfold listItem. rewrite G. cbn [defined].
  rewrite bind_ret_l, no_tasklists, andb_false_r, no_listener, listItem_of_event.
  cbn [item_event ev_output supplied defined]. rewrite bind_ret_l.
  apply total_bind_any; [|intros; apply total_ret].
  unfold item_default. rewrite no_tasklists.
  apply total_bind_any; [|intros; apply total_ret].
  eapply item_body_total; eassumption.
Qed.

Lemma processListItems_total listStr trimTrailing :
  substring listStr (text ++ Z0) ->
  total (processListItems env self listStr trimTrailing).
Proof.
  intros Sub. unfold processListItems.
  destruct (trailing_trim_prefix listStr) as [t Et].
  remember (replace1 false trailingBlankRgx (fun _ => js "\n") listStr) as s' eqn:Es.
  apply total_bind_any; [intros g; eexists _, _; reflexivity|]. intros l0.
  apply total_bind_any; [intros g; eexists _, _; reflexivity|]. intros [].
  apply total_bind_any.
  - unfold replace_gM, rgx.
    destruct (matches_g true (itemRgx (legacy env)) _) as [l tl] eqn:C.
    apply total_bind_any; [|intros; apply total_ret].
    apply total_replace_each. intros gap m I.
    unfold matches_g in C.
    eapply collect_sound in I; [| |exact C|reflexivity]; [|destruct (legacy env); reflexivity].
    destruct I as (x & y & l' & Hm & -> & HT & _).
    assert (I : In y (rmatch true (itemRgx (legacy env)) x)) by (rewrite Hm; left; reflexivity).
    apply item_match in I.
    destruct I as (w & w5 & S1 & C4 & L & (w' & ->) & N & U).
    apply (listItem_total _ _ (w' ++ [LF]) w5); auto.
    apply substring_sentinel.
    eapply substring_trans; [|exact Sub].
    apply (substring_trans _ s'); [|rewrite Et; apply substring_prefix].
    apply substring_sentinel. change (js "¨0") with Z0 in HT.
    simpl in HT. rewrite <- HT. apply (steps_substring _ _ _ S1).
  - intros s.
    apply total_bind_any; [intros g; eexists _, _; reflexivity|]. intros l1.
    apply total_bind_any; [intros g; eexists _, _; reflexivity|]. intros [].
    apply total_ret.
Qed.

Lemma emit_total trimTrailing block attrs rs :
  (forall t s, In (t, s) rs -> substring s (text ++ Z0)) ->
  total (emit env self trimTrailing block attrs rs).
Proof.
  induction rs as [|[t s] rs IH]; intros H; simpl.
  - apply total_ret.
  - apply total_bind_any; [apply processListItems_total; apply (H t); left; reflexivity|].
    intros items. apply total_bind_any; [|intros; apply total_ret].
    apply IH. intros t' s' I. apply (H t'). right. exact I.
Qed.

Lemma parseConsecutiveLists_total depth pattern list listType trimTrailing :
  substring list (text ++ Z0) -> length list + 2 <= depth ->
  total (parseConsecutiveLists env depth self pattern list listType trimTrailing).
Proof.
  intros Sub D g.
  rewrite parseConsecutiveLists_runs; [|rewrite no_listener; reflexivity|exact D].
  apply emit_total. intros t s I.
  eapply substring_trans; [eapply runs_substring; exact I|exact Sub].
Qed.

Lemma substring_length (a b : jsstring) : substring a b -> length a <= length b.
Proof. intros (p & q & ->). rewrite !length_app. lia. Qed.

Lemma list_body_total depth :
  length text + 4 <= depth -> returns_string (list_body env depth self text).
Proof.
  intros D. unfold list_body. rewrite no_listener. cbn [output_string ev_output].
  change (js "¨0") with Z0.
  apply returns_bind; [intros g; eexists _, _; reflexivity|]. intros level.
  apply returns_bind; [|intros t g; rewrite no_listener; eexists _, _; reflexivity].
  assert (Hlen : forall l, substring l (text ++ Z0) -> length l + 2 <= depth).
  { intros l Hl. apply substring_length in Hl. rewrite length_app in Hl. simpl in Hl. lia. }
  destruct (negb (level =? 0)%Z); unfold replace_gM.
  - destruct (matches_g true subListRgx (text ++ Z0)) as [l tl] eqn:C.
    apply total_bind_any; [|intros; apply total_ret].
    apply total_replace_each. intros gap m I.
    unfold matches_g in C.
    eapply collect_sound in I; [| |exact C|reflexivity]; [|reflexivity].
    destruct I as (x & y & l' & Hm & -> & HT & HC).
    assert (I : In y (rmatch true subListRgx x)) by (rewrite Hm; left; reflexivity).
    destruct (subList_groups _ _ I) as (lst & mk & C1 & C2).
    destruct (rmatch_caps_in true (text ++ Z0) subListRgx x y eq_refl I HT) as [_ Hin].
    { rewrite HC. intros n s E. discriminate. }
    cbn [m_group mk_res]. rewrite C1, C2. cbn [defined]. rewrite !bind_ret_l.
    apply parseConsecutiveLists_total; [|apply Hlen]; apply (Hin 1); exact C1.
  - destruct (matches_g true mainListRgx (text ++ Z0)) as [l tl] eqn:C.
    apply total_bind_any; [|intros; apply total_ret].
    apply total_replace_each. intros gap m I.
    unfold matches_g in C.
    eapply collect_sound in I; [| |exact C|reflexivity]; [|reflexivity].
    destruct I as (x & y & l' & Hm & -> & HT & HC).
    assert (I : In y (rmatch true mainListRgx x)) by (rewrite Hm; left; reflexivity).
    destruct (mainList_groups _ _ I) as (lst & mk & C1 & C2).
    destruct (rmatch_caps_in true (text ++ Z0) mainListRgx x y eq_refl I HT) as [_ Hin].
    { rewrite HC. intros n s E. discriminate. }
    cbn [m_group mk_res]. rewrite C1, C2. cbn [defined]. rewrite !bind_ret_l.
    apply parseConsecutiveLists_total; [|apply Hlen]; apply (Hin 2); exact C1.
Qed.

End Body.

Lemma makehtml_list_total : forall n text depth,
  measure text <= n -> n + 5 <= depth -> returns_string (makehtml_list env depth text).
Proof.
  induction n as [|n IH]; intros text depth M D;
    (destruct depth as [|depth]; [lia|]); cbn [makehtml_list];
    apply list_body_total; try (unfold measure in M; lia);
    intros s Hs.
  - lia.
  - apply IH; lia.
Qed.


End Termination.

(** ** Runs of the transform *)

Example ex_single_item :
  makehtml_list (sample_env defaults) 3 (js "- item\n") fresh
  = Some (Some (js "\n\n<ul>\n<li>item</li>\n</ul>\n"), Globals 0 [0; 1]%Z).
Proof. vm_compute. reflexivity. Qed.

Example ex_task_enabled :
  makehtml_list (sample_env with_tasklists) 3 (js "- [x] done\n") fresh
  = Some (Some (js "\n\n<ul>\n<li class=\qtask-list-item\q style=\qlist-style-type: none;\q><input type=\qcheckbox\q disabled style=\qmargin: 0px 0.35em 0.25em -1.6em; vertical-align: middle;\q checked> done</li>\n</ul>\n"),
          Globals 0 [0; 1]%Z).
Proof. vm_compute. reflexivity. Qed.

Example ex_task_disabled :
  makehtml_list (sample_env defaults) 3 (js "- [x] done\n") fresh
  = Some (Some (js "\n\n<ul>\n<li>[x] done</li>\n</ul>\n"), Globals 0 [0; 1]%Z).
Proof. vm_compute. reflexivity. Qed.


(** C5: the checkbox processor rewrites a token that starts a later line of
    a body that has no leading token ([a], then [[x] b]): whatever the
    helpers, with no listener registered the token of the second line is
    replaced by the checkbox element; in the environment of the examples,
    with task lists on, the item [- a] followed by the line [[x] b] comes
    out with an unchecked box in its second line. *)
Theorem checkbox_on_later_line :
  (forall env pattern,
     processTaskListItem (with_dispatch env (fun e => e)) pattern (js "a\n[x] b\n") false
     = js "a\n<input"
       ++ populateAttributes env
            [("type", AStr (js "checkbox")); ("disabled", ABool true);
             ("style", AStr checkbox_style); ("checked", ABool false)]%string
       ++ js "> b\n")
  /\ processTaskListItem (sample_env with_tasklists) (itemRgx false) (js "a\n[x] b\n") false
     = js "a\n<input type=\qcheckbox\q disabled style=\qmargin: 0px 0.35em 0.25em -1.6em; vertical-align: middle;\q> b\n"
  /\ makehtml_list (sample_env with_tasklists) 3 (js "- a\n[x] b\n") fresh
     = Some (Some (js "\n\n<ul>\n<li>a\n<input type=\qcheckbox\q disabled style=\qmargin: 0px 0.35em 0.25em -1.6em; vertical-align: middle;\q> b</li>\n</ul>\n"),
             Globals 0 [0; 1]%Z).
Proof.
  split; [|split; vm_compute; reflexivity].
  intros env pattern. unfold processTaskListItem, replace1.
  assert (S1 : scan true checkboxRgx [] (js "a\n[x] b\n")
          = Some (MState (rev (js "a\n")) (js "[x] b\n") no_captures,
                  MState (rev (js "a\n[x]")) (js " b\n") (set_cap 1 (js "x") no_captures))).
  { vm_compute. reflexivity. }
  rewrite S1. unfold checkbox, checkbox_default, output_string.
  cbn [dispatch with_dispatch ev_output supplied ev_attributes before after populateAttributes].
  rewrite <- !app_assoc. reflexivity.
Qed.

(** C3: the block [5. b] on its own gets start="5"; the same run cut off a
    bulleted block gets no start number, and an ordinal run that follows a
    block starting at 5 gets start="5" whatever its own first number is:
    inside the splitter the number is read from the captured block, not from
    the run.  Whatever the helpers, with no listener registered the block
    [- a], [5. b] gives two containers whose [start] is [null]. *)
Theorem split_run_start_number :
  (forall env depth self pattern trimTrailing g,
     let env' := with_dispatch env (fun e => e) in
     parseConsecutiveLists env' (11 + depth) self pattern (js "- a\n5. b\n") Ul trimTrailing g
     = (a <- processListItems env' self (js "- a\n") trimTrailing ;;
        b <- processListItems env' self (js "5. b\n") trimTrailing ;;
        ret (container env' Ul [("start"%string, ANull)] a
             ++ container env' Ol [("start"%string, ANull)] b)) g)
  /\ styleStartNumber (js "5. b\n") Ol = Some (js "5")
  /\ makehtml_list (sample_env defaults) 5 (js "5. b\n") fresh
     = Some (Some (js "\n\n<ol start=\q5\q>\n<li>b</li>\n</ol>\n"), Globals 0 [0; 1]%Z)
  /\ makehtml_list (sample_env defaults) 5 (js "- a\n5. b\n") fresh
     = Some (Some (js "\n\n<ul>\n<li>a</li>\n</ul>\n\n\n<ol>\n<li>b</li>\n</ol>\n"),
             Globals 0 [0; 1; 0; 1]%Z)
  /\ makehtml_list (sample_env defaults) 5 (js "5. a\n- b\n3. c\n") fresh
     = Some (Some (js "\n\n<ol start=\q5\q>\n<li>a</li>\n</ol>\n\n\n<ul>\n<li>b</li>\n</ul>\n\n\n<ol start=\q5\q>\n<li>c</li>\n</ol>\n"),
             Globals 0 [0; 1; 0; 1; 0; 1]%Z).
Proof.
  split; [|split; [|split; [|split]]; vm_compute; reflexivity].
  intros env depth self pattern trimTrailing g env'.
  rewrite parseConsecutiveLists_runs; [|reflexivity|simpl; lia].
  assert (R : runs (legacy env') (length (js "- a\n5. b\n") + 2) Ul (js "- a\n5. b\n")
              = [(Ul, js "- a\n"); (Ol, js "5. b\n")]).
  { destruct (legacy env'); vm_compute; reflexivity. }
  rewrite R. cbn [emit].
  replace (dispatch env' (run_event pattern (js "- a\n5. b\n")))
    with (run_event pattern (js "- a\n5. b\n")) by reflexivity.
  cbn [ev_attributes run_event].
  replace (styleStartNumber (js "- a\n5. b\n") Ul) with (@None jsstring)
    by (vm_compute; reflexivity).
  replace (styleStartNumber (js "- a\n5. b\n") Ol) with (@None jsstring)
    by (vm_compute; reflexivity).
  cbn [null_or obj_set]. unfold bind, ret.
  destruct (processListItems env' self (js "- a\n") trimTrailing g) as [[a g1]|]; [|reflexivity].
  destruct (processListItems env' self (js "5. b\n") trimTrailing g1) as [[b g2]|]; [|reflexivity].
  rewrite app_nil_r. reflexivity.
Qed.

(** ** The environment of the examples meets the assumptions *)

Module SampleFacts.
Import ReFacts SubFacts.

Lemma collect_length ml r (W : wf r = true) : forall fuel pend pre suf l tl,
  collect fuel ml r pend pre suf = (l, tl) ->
  length (concat (map fst l)) + length tl <= length pend + length suf.
Proof.
  induction fuel as [|fuel IH]; intros pend pre suf l tl H; simpl in H.
  - inversion H; subst. simpl. rewrite length_app. lia.
  - destruct (scan ml r pre suf) as [[x y]|] eqn:S1;
      [|inversion H; subst; simpl; rewrite length_app; lia].
    pose proof (scan_some _ _ _ _ _ _ S1) as (sk & rest & -> & -> & (l' & Hm) & _).
    assert (I : In y (rmatch ml r (MState (rev sk ++ pre) rest no_captures)))
      by (rewrite Hm; left; reflexivity).
    destruct (rmatch_shape ml _ _ _ W I) as (w & S2 & _).
    pose proof (steps_length _ _ _ S2) as L2. cbn [after] in L2.
    assert (B : between (MState pre (sk ++ rest) no_captures)
                        (MState (rev sk ++ pre) rest no_captures) = sk).
    { apply between_steps. split; reflexivity. }
    rewrite B in H. cbn [after] in H.
    destruct (Nat.eqb (length (after y)) (length rest)).
    + destruct (after y) as [|c rest'] eqn:A.
      * inversion H; subst. simpl. rewrite app_nil_r, !length_app. lia.
      * destruct (collect fuel ml r [c] (c :: before y) rest') as [l1 tl1] eqn:C1.
        inversion H; subst. apply IH in C1. simpl in *. rewrite !length_app in *. lia.
    + destruct (collect fuel ml r [] (before y) (after y)) as [l1 tl1] eqn:C1.
      inversion H; subst. apply IH in C1. simpl in *. rewrite !length_app in *. lia.
Qed.

Lemma replace_g_erase_length ml r s :
  wf r = true -> length (replace_g ml r (fun _ => []) s) <= length s.
Proof.
  intros W. unfold replace_g, matches_g.
  destruct (collect (S (length s)) ml r [] [] s) as [l tl] eqn:C.
  apply (collect_length ml r W) in C. simpl in C.
  rewrite length_app. cbv beta.
  match goal with
  | |- context [flat_map ?f l] => assert (E : flat_map f l = concat (map fst l))
  end.
  { clear C. induction l as [|a l IH]; simpl; [reflexivity|].
    rewrite IH, app_nil_r. reflexivity. }
  rewrite E. lia.
Qed.

Lemma sample_outdent_short s : length (sample_outdent s) <= length s.
Proof. apply replace_g_erase_length. reflexivity. Qed.

End SampleFacts.

(** ** Instances *)

(** The block [- a], [1. b] is cut into a [<ul>] run and an [<ol>] run. *)
Lemma consecutive_lists_split_witness :
  parseConsecutiveLists (sample_env defaults) 12 (makehtml_list (sample_env defaults) 3)
    mainListRgx (js "- a\n1. b\n") Ul false fresh
  = emit (sample_env defaults) (makehtml_list (sample_env defaults) 3) false
      (js "- a\n1. b\n") []
      [(Ul, js "- a\n"); (Ol, js "1. b\n")] fresh
  /\ parseConsecutiveLists (sample_env defaults) 12 (makehtml_list (sample_env defaults) 3)
       mainListRgx (js "- a\n1. b\n") Ul false fresh
     = Some (js "\n\n<ul>\n<li>a</li>\n</ul>\n\n\n<ol>\n<li>b</li>\n</ol>\n",
             Globals 0 [0; 1; 0; 1]%Z).
Proof.
  destruct (consecutive_lists_split (sample_env defaults)
              (makehtml_list (sample_env defaults) 3) false mainListRgx
              (js "- a\n1. b\n") Ul 12 fresh
              eq_refl ltac:(vm_compute; lia)) as (E & _ & _ & _ & R).
  specialize (R 4 eq_refl ltac:(vm_compute; reflexivity) ltac:(vm_compute; reflexivity)).
  split.
  - rewrite E. cbv zeta. rewrite R. reflexivity.
  - vm_compute. reflexivity.
Defined.


(** A paragraph whose second line starts with [8.5] is no list. *)
Lemma no_marker_unchanged_witness :
  makehtml_list (sample_env defaults) 1 (js "I recommend upgrading to version\n8.5 today") fresh
  = Some (Some (js "I recommend upgrading to version\n8.5 today"), fresh).
Proof.
  apply (no_marker_unchanged (sample_env defaults) 0).
  - vm_compute. reflexivity.
  - vm_compute. reflexivity.
  - intros name t. reflexivity.
Defined.



(** The line [- - - a] in the environment of the examples. *)
Lemma triple_dash_single_item_witness :
  makehtml_list (sample_env defaults) 2 (js "- - - a\n") fresh
  = Some (Some (js "\n\n<ul>\n<li>- - a</li>\n</ul>\n"), Globals 0 [0; 1]%Z).
Proof.
  apply (proj1 (proj2 (proj2 (triple_dash_single_item (sample_env defaults) 0
           (fun e => eq_refl) ltac:(vm_compute; reflexivity) eq_refl eq_refl eq_refl
           eq_refl)))).
Defined.



(** * Further properties of the code *)

Module BuildFacts.
Import ReFacts MarkerFacts TextFacts.

Lemma cls_step ml neg items a pre s c :
  rmatch ml (Cls neg items) (MState pre (a :: s) c)
  = if cls_ok neg items a then [MState (a :: pre) s c] else [].
Proof.
  unfold cls_ok. cbn [rmatch after].
  destruct (xorb neg (existsb (in_item a) items)); [|reflexivity].
  destruct s; reflexivity.
Qed.

Lemma take_drop_while p s : take_while p s ++ drop_while p s = s.
Proof. induction s as [|a s IH]; simpl; [reflexivity|]. destruct (p a); simpl; congruence. Qed.

Lemma star_cls_head ml neg items : forall s pre c f,
  length s < f ->
  exists l, rep (rmatch ml (Cls neg items)) [] true f 0 None (MState pre s c)
            = MState (rev (take_while (cls_ok neg items) s) ++ pre)
                     (drop_while (cls_ok neg items) s) c :: l.
Proof.
  induction s as [|a s IH]; intros pre c f L; (destruct f as [|f]; [lia|]);
    rewrite star_unfold; cbn [before after caps].
  - exists []. reflexivity.
  - rewrite cls_step. cbn [take_while drop_while]. destruct (cls_ok neg items a).
    + cbn [flat_map after length]. rewrite eqb_length_succ.
      destruct (IH (a :: pre) (clear_caps [] c) f) as [l E]; [simpl in L; lia|].
      rewrite E. exists ((l ++ []) ++ [MState pre (a :: s) c]).
      cbn [rev]. rewrite <- (app_assoc (rev (take_while _ s))). reflexivity.
    + exists []. reflexivity.
Qed.

(** Greedy repetition of a class with a lower bound: the best match takes
    the whole run when the run is long enough, and there is no match when it
    is not. *)
Lemma at_least_cls_head ml neg items : forall n s pre c f,
  n + length s < f ->
  n <= length (take_while (cls_ok neg items) s) ->
  exists l, rep (rmatch ml (Cls neg items)) [] true f n None (MState pre s c)
            = MState (rev (take_while (cls_ok neg items) s) ++ pre)
                     (drop_while (cls_ok neg items) s) c :: l.
Proof.
  induction n as [|n IH]; intros s pre c f L K.
  - apply star_cls_head. lia.
  - destruct f as [|f]; [lia|]. rewrite rep_min_step. cbn [before after caps].
    destruct s as [|a s]; [simpl in K; lia|].
    rewrite cls_step. cbn [take_while drop_while] in *.
    destruct (cls_ok neg items a); [|simpl in K; lia].
    cbn [flat_map]. rewrite app_nil_r.
    destruct (IH s (a :: pre) (clear_caps [] c) f) as [l E]; [simpl in L; lia|simpl in K; lia|].
    rewrite E. exists l. cbn [rev]. rewrite <- app_assoc. reflexivity.
Qed.

Lemma rmatch_at_least_cls ml neg items n s pre c :
  n <= length (take_while (cls_ok neg items) s) ->
  exists l, rmatch ml (Rep n None true (Cls neg items)) (MState pre s c)
            = MState (rev (take_while (cls_ok neg items) s) ++ pre)
                     (drop_while (cls_ok neg items) s) c :: l.
Proof.
  intros K. rewrite rmatch_rep_eq. cbn [after groups_of].
  apply at_least_cls_head; [lia|exact K].
Qed.

Lemma seq_head ml a b x y1 l1 y l :
  rmatch ml a x = y1 :: l1 -> rmatch ml b y1 = y :: l ->
  exists l', rmatch ml (Seq a b) x = y :: l'.
Proof.
  intros E1 E2. cbn [rmatch]. rewrite E1. cbn [flat_map]. rewrite E2.
  eexists. reflexivity.
Qed.

Lemma grp_head ml n a x y l :
  rmatch ml a x = y :: l ->
  exists l', rmatch ml (Grp n a) x
             = MState (before y) (after y) (set_cap n (between x y) (caps y)) :: l'.
Proof. intros E. cbn [rmatch]. rewrite E. eexists. reflexivity. Qed.

End BuildFacts.

Module StartFacts.
Import ReFacts MarkerFacts TextFacts GuardFacts BuildFacts.

Lemma take_while_app p a b :
  forallb p a = true -> match b with c :: _ => p c = false | [] => True end ->
  take_while p (a ++ b) = a /\ drop_while p (a ++ b) = b.
Proof.
  intros F H. induction a as [|x a IH]; simpl in *.
  - destruct b as [|c b]; [split; reflexivity|]. simpl. rewrite H. split; reflexivity.
  - apply andb_true_iff in F. destruct F as [F1 F2]. rewrite F1.
    destruct (IH F2) as [E1 E2]. rewrite E1, E2. split; reflexivity.
Qed.

Lemma forallb_cls_lit (c0 : char) s :
  forallb (fun c => ceqb c c0) s = forallb (cls_ok false [CLit c0]) s.
Proof.
  induction s as [|a s IH]; simpl; [reflexivity|]. rewrite IH. unfold cls_ok. simpl.
  rewrite orb_false_r. reflexivity.
Qed.

Lemma forallb_cls_digit s :
  forallb is_digit s = forallb (cls_ok false [CDigit]) s.
Proof.
  induction s as [|a s IH]; simpl; [reflexivity|]. rewrite IH. unfold cls_ok. simpl.
  rewrite orb_false_r. reflexivity.
Qed.

Lemma shape_cls_run neg items min max g w :
  shape (Rep min max g (Cls neg items)) w -> forallb (cls_ok neg items) w = true.
Proof.
  intros H. apply shape_rep_cls in H. destruct H as (F & _).
  apply forallb_forall. rewrite Forall_forall in F. exact F.
Qed.

(** The match of the start-number pattern on spaces, digits and a period. *)
Lemma start_number_match sp n rest :
  forallb (fun c => ceqb c 32) sp = true -> n <> [] -> forallb is_digit n = true ->
  exists res, exec false startNumberRgx (sp ++ n ++ 46%N :: rest) = Some res
              /\ m_group res 1 = Some n.
Proof.
  intros Hsp Hn Hd.
  assert (Hd0 : match n ++ 46%N :: rest with c :: _ => cls_ok false [CLit 32%N] c = false | [] => True end).
  { destruct n as [|d n]; [contradiction|]. simpl in Hd. apply andb_true_iff in Hd.
    destruct Hd as [Hd _]. simpl. unfold cls_ok, is_digit, ceqb in *. simpl.
    rewrite orb_false_r. apply N.eqb_neq. intros ->. vm_compute in Hd. discriminate. }
  rewrite forallb_cls_lit in Hsp. rewrite forallb_cls_digit in Hd.
  destruct (take_while_app _ sp _ Hsp Hd0) as [T1 D1].
  destruct (take_while_app (cls_ok false [CDigit]) n (46%N :: rest) Hd eq_refl) as [T2 D2].
  (* spaces *)
  destruct (rmatch_at_least_cls false false [CLit 32%N] 0 (sp ++ n ++ 46%N :: rest) [] no_captures)
    as [l1 E1]; [lia|].
  rewrite T1, D1 in E1.
  (* digits *)
  destruct (rmatch_at_least_cls false false [CDigit] 1 (n ++ 46%N :: rest) (rev sp ++ []) no_captures)
    as [l2 E2]; [rewrite T2; destruct n; [contradiction|simpl; lia]|].
  rewrite T2, D2 in E2.
  destruct (grp_head false 1 _ _ _ _ E2) as [l3 E3]. cbn [before after caps] in E3.
  (* period *)
  pose proof (chr_hit false 46%N (rev n ++ rev sp ++ []) rest
               (set_cap 1 (between (MState (rev sp ++ []) (n ++ 46%N :: rest) no_captures)
                                   (MState (rev n ++ rev sp ++ []) (46%N :: rest) no_captures))
                        no_captures)) as E4.
  destruct (seq_head false _ _ _ _ _ _ _ E3 E4) as [l5 E5].
  destruct (seq_head false (star (chr SP)) _ _ _ _ _ _ E1 E5) as [l6 E6].
  assert (E0 : rmatch false Bol (MState [] (sp ++ n ++ 46%N :: rest) no_captures)
               = [MState [] (sp ++ n ++ 46%N :: rest) no_captures]) by reflexivity.
  destruct (seq_head false Bol _ _ _ _ _ _ E0 E6) as [l7 E7].
  unfold exec.
  assert (S1 : scan false startNumberRgx [] (sp ++ n ++ 46%N :: rest)
               = Some (MState [] (sp ++ n ++ 46%N :: rest) no_captures,
                       MState (46%N :: rev n ++ rev sp ++ []) rest
                         (set_cap 1 (between (MState (rev sp ++ []) (n ++ 46%N :: rest) no_captures)
                                   (MState (rev n ++ rev sp ++ []) (46%N :: rest) no_captures))
                        no_captures))).
  { eapply scan_first. exact E7. }
  rewrite S1. eexists. split; [reflexivity|].
  cbn [m_group mk_res caps]. unfold set_cap. cbn [Nat.eqb].
  f_equal. apply between_steps. split; cbn [before after]; [reflexivity|].
  rewrite app_nil_r. reflexivity.
Qed.

Lemma start_number_sound list res n :
  exec false startNumberRgx list = Some res -> m_group res 1 = Some n ->
  n <> [] /\ forallb is_digit n = true
  /\ exists sp rest, list = sp ++ n ++ 46%N :: rest /\ forallb (fun c => ceqb c 32) sp = true.
Proof.
  unfold exec. destruct (scan false startNumberRgx [] list) as [[x y]|] eqn:S1; [|discriminate].
  intros E C. inversion E; subst res; clear E. cbn [m_group mk_res] in C.
  apply scan_some in S1. destruct S1 as (sk & rest0 & -> & -> & (l & Hm) & _).
  assert (I : In y (rmatch false startNumberRgx (MState (rev sk ++ []) rest0 no_captures)))
    by (rewrite Hm; left; reflexivity).
  change startNumberRgx with (Seq Bol (Seq (star (chr SP)) (Seq (Grp 1 (plus digit)) (chr 46%N)))) in I.
  apply in_seq in I. destruct I as (x0 & H0 & I).
  apply in_bol in H0. destruct H0 as [-> B0].
  apply in_seq in I. destruct I as (x1 & H1 & I).
  apply in_seq in I. destruct I as (x2 & H2 & H3).
  apply rmatch_shape in H1; [|reflexivity]. destruct H1 as (w1 & [A1 _] & P1).
  apply in_grp_cap in H2; [|reflexivity]. destruct H2 as (w2 & [A2 _] & P2 & C2).
  pose proof (rmatch_frame false 1 (chr 46%N) _ _ (fun F => F) H3) as F3.
  apply in_cls in H3. destruct H3 as (c & A3 & _ & _ & Hc).
  simpl in Hc. rewrite orb_false_r in Hc. unfold ceqb in Hc. apply N.eqb_eq in Hc. subst c.
  rewrite F3, C2 in C. inversion C; subst w2; clear C.
  unfold at_bol in B0. cbn [before] in B0. rewrite app_nil_r in B0.
  destruct (rev sk) as [|c0 r0] eqn:Er; [|discriminate].
  assert (sk = []) by (destruct sk; [reflexivity|]; simpl in Er; destruct (rev sk); discriminate).
  subst sk. cbn [after app] in *.
  pose proof (shape_cls_run _ _ _ _ _ _ P1) as F1.
  pose proof (shape_cls_run _ _ _ _ _ _ P2) as F2.
  apply shape_rep_cls in P2. destruct P2 as (_ & L2 & _).
  split; [destruct n; [simpl in L2; lia|discriminate]|].
  split; [rewrite forallb_cls_digit; exact F2|].
  exists w1, (after y). split.
  - rewrite A1, A2, A3. reflexivity.
  - rewrite forallb_cls_lit. exact F1.
Qed.

End StartFacts.

Module TrailFacts.
Import ReFacts MarkerFacts TextFacts GuardFacts BuildFacts StartFacts.

Lemma scan_none_inv ml r : forall suf pre,
  scan ml r pre suf = None ->
  forall a b, suf = a ++ b -> rmatch ml r (MState (rev a ++ pre) b no_captures) = [].
Proof.
  induction suf as [|c suf IH]; intros pre H a b E; simpl in H.
  - destruct a; [|discriminate]. simpl in E. subst b. simpl.
    destruct (rmatch ml r (MState pre [] no_captures)); [reflexivity|discriminate].
  - destruct (rmatch ml r (MState pre (c :: suf) no_captures)) eqn:Hm; [|discriminate].
    destruct a as [|c' a]; simpl in E.
    + subst b. exact Hm.
    + inversion E; subst. simpl. rewrite <- app_assoc. apply IH; [exact H|reflexivity].
Qed.

Section Run.

Variable n : nat.
Variable neg : bool.
Variable items : list citem.

Lemma run_match pre suf c :
  forallb (cls_ok neg items) suf = true -> n <= length suf ->
  exists y l, rmatch false (run_end n neg items) (MState pre suf c) = y :: l
              /\ after y = [] /\ before y = rev suf ++ pre.
Proof.
  intros F L.
  destruct (take_while_app (cls_ok neg items) suf [] F I) as [T D]. rewrite app_nil_r in T, D.
  destruct (rmatch_at_least_cls false neg items n suf pre c) as [l1 E1].
  { rewrite T. exact L. }
  rewrite T, D in E1.
  assert (E2 : rmatch false Eol (MState (rev suf ++ pre) [] c) = [MState (rev suf ++ pre) [] c])
    by reflexivity.
  destruct (seq_head false _ _ _ _ _ _ _ E1 E2) as [l E].
  exists (MState (rev suf ++ pre) [] c), l. auto.
Qed.

Lemma run_only x y :
  In y (rmatch false (run_end n neg items) x) ->
  forallb (cls_ok neg items) (after x) = true /\ n <= length (after x) /\ after y = []
  /\ before y = rev (after x) ++ before x.
Proof.
  intros H. unfold run_end in H. apply in_seq in H. destruct H as (y1 & I1 & I2).
  apply in_eol in I2. destruct I2 as [-> E].
  apply rmatch_shape in I1; [|reflexivity]. destruct I1 as (w & [A B] & P).
  pose proof (shape_cls_run _ _ _ _ _ _ P) as F.
  apply shape_rep_cls in P. destruct P as (_ & L & _).
  unfold at_eol in E. destruct (after y1); [|discriminate].
  rewrite app_nil_r in A. subst w. auto.
Qed.

(** Replacing the run at the end of a text: the run is found where it
    starts, and nothing is found when it is too short. *)
Lemma replace_trailing_run r s :
  (exists a b, s = a ++ b /\ forallb (cls_ok neg items) b = true /\ n <= length b
               /\ (forall a0 c, a = a0 ++ [c] -> cls_ok neg items c = false \/ n = 0)
               /\ replace1 false (run_end n neg items) (fun _ => r) s = a ++ r)
  \/ ((forall a b, s = a ++ b -> forallb (cls_ok neg items) b = true -> length b < n)
      /\ replace1 false (run_end n neg items) (fun _ => r) s = s).
Proof.
  unfold replace1. destruct (scan false (run_end n neg items) [] s) as [[x y]|] eqn:S1.
  - left. apply scan_some in S1. destruct S1 as (sk & rest & -> & -> & (l & Hm) & Hl).
    assert (I : In y (rmatch false (run_end n neg items) (MState (rev sk ++ []) rest no_captures)))
      by (rewrite Hm; left; reflexivity).
    apply run_only in I. cbn [before after] in I. destruct I as (F & L & A & _).
    exists sk, rest. split; [reflexivity|]. split; [exact F|]. split; [exact L|]. split.
    + intros a0 c ->. destruct (cls_ok neg items c) eqn:Pc; [|left; reflexivity].
      destruct (Nat.eq_dec n 0) as [En|En]; [right; exact En|]. exfalso.
      assert (Hk : length a0 < length (a0 ++ [c])) by (rewrite length_app; simpl; lia).
      specialize (Hl (length a0) Hk).
      assert (E1 : firstn (length a0) (a0 ++ [c]) = a0).
      { rewrite firstn_app, Nat.sub_diag, firstn_all. cbn [firstn]. apply app_nil_r. }
      assert (E2 : skipn (length a0) (a0 ++ [c]) = [c]).
      { rewrite skipn_app, Nat.sub_diag, skipn_all. reflexivity. }
      rewrite E1, E2 in Hl. cbn [app] in Hl.
      destruct (run_match (rev a0 ++ []) (c :: rest) no_captures) as (y' & l' & E' & _).
      { cbn [forallb]. rewrite Pc. exact F. }
      { cbn [length]. lia. }
      rewrite Hl in E'. discriminate.
    + cbn [before after]. rewrite A, !app_nil_r, rev_involutive. reflexivity.
  - right. split; [|reflexivity]. intros a b -> F.
    pose proof (scan_none_inv _ _ _ _ S1 a b eq_refl) as Hm.
    destruct (Nat.lt_ge_cases (length b) n) as [Lt|Ge]; [exact Lt|].
    destruct (run_match (rev a ++ []) b no_captures F Ge) as (y' & l' & E' & _).
    rewrite Hm in E'. discriminate.
Qed.

End Run.

End TrailFacts.

Module TrimFacts.
Import ReFacts MarkerFacts TextFacts GuardFacts BuildFacts StartFacts TrailFacts.

Lemma forallb_rev {A} (p : A -> bool) l : forallb p (rev l) = forallb p l.
Proof.
  induction l as [|a l IH]; simpl; [reflexivity|].
  rewrite forallb_app, IH. simpl. rewrite andb_true_r. apply andb_comm.
Qed.

(** A text splits in one way into a part that does not end in the class and
    a run of the class. *)
Lemma run_split_unique (p : char -> bool) a b a' b' :
  a ++ b = a' ++ b' ->
  forallb p b = true -> forallb p b' = true ->
  (forall a0 c, a = a0 ++ [c] -> p c = false) ->
  (forall a0 c, a' = a0 ++ [c] -> p c = false) ->
  a = a' /\ b = b'.
Proof.
  intros E F F' N N'.
  assert (T : forall u v, forallb p v = true -> (forall a0 c, u = a0 ++ [c] -> p c = false) ->
              take_while p (rev (u ++ v)) = rev v).
  { intros u v Fv Nu. rewrite rev_app_distr.
    apply take_while_app; [rewrite forallb_rev; exact Fv|].
    destruct (rev u) as [|c r] eqn:Er; [exact I|].
    apply (Nu (rev r) c). rewrite <- (rev_involutive u), Er. reflexivity. }
  pose proof (T a b F N) as T1. pose proof (T a' b' F' N') as T2.
  rewrite E in T1. rewrite T1 in T2.
  assert (Eb : b = b') by (rewrite <- (rev_involutive b), T2, rev_involutive; reflexivity).
  subst b'. split; [|reflexivity]. apply app_inv_tail in E. exact E.
Qed.

Lemma forallb_space s : forallb (cls_ok false [CSpace]) s = forallb is_space s.
Proof.
  induction s as [|a s IH]; simpl; [reflexivity|]. rewrite IH. unfold cls_ok. simpl.
  rewrite orb_false_r. reflexivity.
Qed.

Lemma forallb_repeat (p : char -> bool) c k : p c = true -> forallb p (repeat c k) = true.
Proof. intros H. induction k; simpl; [reflexivity|]. rewrite H, IHk. reflexivity. Qed.

Lemma forallb_lf_repeat s :
  forallb (cls_ok false [CLit LF]) s = true -> s = repeat LF (length s).
Proof.
  induction s as [|a s IH]; simpl; [reflexivity|]. intros H.
  apply andb_true_iff in H. destruct H as [H1 H2].
  unfold cls_ok in H1. simpl in H1. rewrite orb_false_r in H1. unfold ceqb in H1.
  apply N.eqb_eq in H1. subst a. f_equal. apply IH. exact H2.
Qed.

(** [listStr.replace(/\s+$/, '')] *)
Lemma trim_trailing_space s :
  exists run,
    s = replace1 false trailingSpaceRgx (fun _ => []) s ++ run
    /\ forallb is_space run = true
    /\ forall k0 c, replace1 false trailingSpaceRgx (fun _ => []) s = k0 ++ [c] ->
                    is_space c = false.
Proof.
  change trailingSpaceRgx with (run_end 1 false [CSpace]).
  destruct (replace_trailing_run 1 false [CSpace] [] s)
    as [(a & b & -> & F & L & N & E)|[N E]]; rewrite E.
  - exists b. rewrite app_nil_r. split; [reflexivity|]. split; [rewrite <- forallb_space; exact F|].
    intros k0 c Ek. destruct (N k0 c Ek) as [H|H]; [|discriminate].
    unfold cls_ok in H. simpl in H. rewrite orb_false_r in H. exact H.
  - exists []. rewrite app_nil_r. split; [reflexivity|]. split; [reflexivity|].
    intros k0 c ->. destruct (is_space c) eqn:Sc; [|reflexivity].
    specialize (N k0 [c] eq_refl). simpl in N. unfold cls_ok in N. simpl in N.
    rewrite Sc in N. specialize (N eq_refl). lia.
Qed.

(** [listStr.replace(/\n{2,}$/, '\n')] *)
Lemma collapse_trailing_blank body k :
  (forall b, body <> b ++ [LF]) ->
  replace1 false trailingBlankRgx (fun _ => js "\n") (body ++ repeat LF k)
  = if Nat.leb 2 k then body ++ [LF] else body ++ repeat LF k.
Proof.
  intros Nb.
  assert (Nb' : forall a0 c, body = a0 ++ [c] -> cls_ok false [CLit LF] c = false).
  { intros a0 c ->. unfold cls_ok. simpl. rewrite orb_false_r. unfold ceqb.
    apply N.eqb_neq. intros ->. apply (Nb a0). reflexivity. }
  assert (Fk : forallb (cls_ok false [CLit LF]) (repeat LF k) = true)
    by (apply forallb_repeat; reflexivity).
  change trailingBlankRgx with (run_end 2 false [CLit LF]).
  destruct (replace_trailing_run 2 false [CLit LF] (js "\n") (body ++ repeat LF k))
    as [(a & b & E0 & F & L & N & E)|[N E]]; rewrite E.
  - assert (N' : forall a0 c, a = a0 ++ [c] -> cls_ok false [CLit LF] c = false).
    { intros a0 c Ea. destruct (N a0 c Ea) as [H|H]; [exact H|discriminate]. }
    destruct (run_split_unique _ _ _ _ _ E0 Fk F Nb' N') as [<- <-].
    rewrite repeat_length in L. destruct (Nat.leb_spec 2 k); [reflexivity|lia].
  - specialize (N body (repeat LF k) eq_refl Fk). rewrite repeat_length in N.
    destruct (Nat.leb_spec 2 k); [lia|reflexivity].
Qed.

End TrimFacts.

Section Segmentation.

Variable env : Env.
Import TrimFacts.

Lemma processListItems_trim self listStr g :
  processListItems env self listStr true g
  = match processListItems env self listStr false g with
    | Some (out, g') => Some (replace1 false trailingSpaceRgx (fun _ => []) out, g')
    | None => None
    end.
Proof.
  unfold processListItems, bind, get_level, set_level, ret.
  destruct (replace_gM _ _ _ _ _) as [[s g1]|]; reflexivity.
Qed.

(** X7: with [trimTrailing] the result of [processListItems] is the result
    without it, less the white space at its end. *)
Theorem trim_trailing_is_trim_end :
  forall self listStr g out g',
    processListItems env self listStr false g = Some (out, g') ->
    exists kept run,
      out = kept ++ run /\ forallb is_space run = true
      /\ (forall k0 c, kept = k0 ++ [c] -> is_space c = false)
      /\ processListItems env self listStr true g = Some (kept, g').
Proof.
  intros self listStr g out g' H. rewrite processListItems_trim, H.
  destruct (trim_trailing_space out) as (run & E & F & N).
  exists (replace1 false trailingSpaceRgx (fun _ => []) out), run. auto.
Qed.

(** X6: two or more line feeds at the end of a run count as one. *)
Theorem trailing_blank_lines_collapse :
  forall self body k trimTrailing g,
    ends_lf body = false ->
    processListItems env self (body ++ repeat LF (2 + k)) trimTrailing g
    = processListItems env self (body ++ [LF]) trimTrailing g.
Proof.
  intros self body k trimTrailing g Hb.
  assert (Nb : forall b, body <> b ++ [LF]).
  { intros b ->. unfold ends_lf in Hb. rewrite rev_app_distr in Hb. discriminate. }
  unfold processListItems.
  pose proof (collapse_trailing_blank body (2 + k) Nb) as E2.
  pose proof (collapse_trailing_blank body 1 Nb) as E1.
  cbn [repeat Nat.leb Nat.add] in E1, E2. cbn [repeat Nat.add].
  rewrite E1, E2. reflexivity.
Qed.

End Segmentation.

Module BoxFacts.
Import ReFacts MarkerFacts TextFacts GuardFacts BuildFacts StartFacts TrailFacts.

Lemma line_from_intro P : forall p b s,
  (p = [] -> b = true) ->
  (p <> [] -> is_line_terminator (last p 0%N) = true) ->
  P s = true -> line_from P b (p ++ s) = true.
Proof.
  induction p as [|c p IH]; intros b s H0 H1 M.
  - rewrite (H0 eq_refl). simpl. destruct s; simpl in *; rewrite M; reflexivity.
  - change (line_from P b ((c :: p) ++ s))
      with ((b && P (c :: p ++ s)) || line_from P (is_line_terminator c) (p ++ s)).
    rewrite IH; auto using orb_true_r.
    + intros ->. apply (H1 ltac:(discriminate)).
    + intros Hp. specialize (H1 ltac:(discriminate)). destruct p; [contradiction|exact H1].
Qed.

Lemma line_from_at P x :
  at_bol true x = true -> P (after x) = true ->
  line_from P true (rev (before x) ++ after x) = true.
Proof.
  intros B M. apply line_from_intro; auto.
  intros Hp. unfold at_bol in B. destruct (before x) as [|c l]; [contradiction|].
  simpl. rewrite last_last. exact B.
Qed.

Lemma line_from_elim P : forall s b pre,
  line_from P b s = true ->
  at_bol true (MState pre s no_captures) = b ->
  exists a t, s = a ++ t /\ P t = true
              /\ at_bol true (MState (rev a ++ pre) t no_captures) = true.
Proof.
  induction s as [|c s IH]; intros b pre H B.
  - simpl in H. rewrite orb_false_r in H. apply andb_true_iff in H. destruct H as [-> H].
    exists [], []. auto.
  - change (line_from P b (c :: s))
      with ((b && P (c :: s)) || line_from P (is_line_terminator c) s) in H.
    apply orb_true_iff in H. destruct H as [H|H].
    + apply andb_true_iff in H. destruct H as [-> H]. exists [], (c :: s). auto.
    + destruct (IH _ (c :: pre) H eq_refl) as (a & t & -> & Pt & Bt).
      exists (c :: a), t. simpl. rewrite <- app_assoc. auto.
Qed.

Lemma drop_blanks_app bl t :
  forallb is_blank bl = true -> starts_blank t = false ->
  take_blanks (bl ++ t) = bl /\ drop_blanks (bl ++ t) = t.
Proof.
  intros F N. induction bl as [|a bl IH]; simpl in *.
  - destruct t as [|c t]; [split; reflexivity|]. simpl in N. simpl. rewrite N. split; reflexivity.
  - apply andb_true_iff in F. destruct F as [F1 F2]. rewrite F1.
    destruct (IH F2) as [E1 E2]. rewrite E1, E2. split; reflexivity.
Qed.

Lemma forallb_blank s : forallb (cls_ok false (map CLit (js " \t"))) s = forallb is_blank s.
Proof.
  induction s as [|a s IH]; cbn [forallb]; [reflexivity|]. rewrite IH. unfold cls_ok.
  rewrite in_blank. reflexivity.
Qed.

Lemma token_char c :
  existsb (in_item c) (map CLit (js "xX ")) = ceqb c 120 || ceqb c 88 || ceqb c 32.
Proof. simpl. rewrite orb_false_r, orb_assoc. reflexivity. Qed.

(** What a match of the checkbox pattern consists of. *)
Lemma checkbox_match_sound x y :
  In y (rmatch true checkboxRgx x) ->
  at_bol true x = true
  /\ exists bl raw,
       forallb is_blank bl = true
       /\ (ceqb raw 120 || ceqb raw 88 || ceqb raw 32) = true
       /\ steps x y (bl ++ [91%N; raw; 93%N])
       /\ caps y 1 = Some [raw].
Proof.
  intros H. unfold checkboxRgx in H.
  change (seq [?a1; ?a2; ?a3; ?a4; ?a5]) with (Seq a1 (Seq a2 (Seq a3 (Seq a4 a5)))) in H.
  apply in_seq in H. destruct H as (x0 & H0 & H).
  apply in_bol in H0. destruct H0 as [-> B]. split; [exact B|].
  apply in_seq in H. destruct H as (x1 & H1 & H).
  apply in_seq in H. destruct H as (x2 & H2 & H).
  apply in_seq in H. destruct H as (x3 & H3 & H4).
  apply rmatch_shape in H1; [|reflexivity]. destruct H1 as (w1 & S1 & P1).
  pose proof (shape_cls_run _ _ _ _ _ _ P1) as F1. unfold blank, set in F1.
  rewrite forallb_blank in F1.
  apply rmatch_shape in H2; [|reflexivity]. destruct H2 as (w2 & S2 & (c2 & -> & E2)).
  simpl in E2. rewrite orb_false_r in E2. unfold ceqb in E2. apply N.eqb_eq in E2. subst c2.
  apply in_grp_cap in H3; [|reflexivity]. destruct H3 as (w3 & S3 & (c3 & -> & E3) & C3).
  unfold set in E3. cbn [xorb] in E3. rewrite token_char in E3.
  pose proof (rmatch_frame true 1 (chr 93%N) _ _ (fun F => F) H4) as F4.
  apply rmatch_shape in H4; [|reflexivity]. destruct H4 as (w4 & S4 & (c4 & -> & E4)).
  simpl in E4. rewrite orb_false_r in E4. unfold ceqb in E4. apply N.eqb_eq in E4. subst c4.
  exists w1, c3. split; [exact F1|]. split; [exact E3|]. split.
  - pose proof (steps_trans _ _ _ _ _ S1 (steps_trans _ _ _ _ _ S2 (steps_trans _ _ _ _ _ S3 S4))) as S.
    exact S.
  - rewrite F4. exact C3.
Qed.

Lemma checkbox_here_split t :
  checkbox_here t = true ->
  exists raw rest,
    drop_blanks t = 91%N :: raw :: 93%N :: rest
    /\ (ceqb raw 120 || ceqb raw 88 || ceqb raw 32) = true.
Proof.
  unfold checkbox_here. destruct (drop_blanks t) as [|a [|c [|b rest]]]; try discriminate.
  intros H. apply andb_true_iff in H. destruct H as [H Hb].
  apply andb_true_iff in H. destruct H as [Ha Hc].
  unfold ceqb in Ha, Hb. apply N.eqb_eq in Ha, Hb. subst a b.
  exists c, rest. auto.
Qed.

Lemma checkbox_match_here pre t :
  at_bol true (MState pre t no_captures) = true -> checkbox_here t = true ->
  rmatch true checkboxRgx (MState pre t no_captures) <> [].
Proof.
  intros B H. destruct (checkbox_here_split t H) as (raw & rest & D & Hr).
  unfold checkboxRgx.
  change (seq [?a1; ?a2; ?a3; ?a4; ?a5]) with (Seq a1 (Seq a2 (Seq a3 (Seq a4 a5)))).
  assert (E0 : rmatch true Bol (MState pre t no_captures) = [MState pre t no_captures]).
  { cbn [rmatch]. rewrite B. reflexivity. }
  assert (E1 : exists l, rmatch true (star blank) (MState pre t no_captures)
               = MState (rev (take_blanks t) ++ pre) (drop_blanks t) no_captures :: l).
  { unfold star. rewrite rmatch_rep_eq. cbn [after Nat.add groups_of blank set].
    apply star_blank_head. lia. }
  destruct E1 as [l1 E1]. rewrite D in E1.
  pose proof (chr_hit true 91%N (rev (take_blanks t) ++ pre) (raw :: 93%N :: rest) no_captures) as E2.
  assert (E3a : rmatch true (set (js "xX "))
                 (MState (91%N :: rev (take_blanks t) ++ pre) (raw :: 93%N :: rest) no_captures)
               = [MState (raw :: 91%N :: rev (take_blanks t) ++ pre) (93%N :: rest) no_captures]).
  { unfold set. rewrite cls_step. unfold cls_ok. cbn [xorb].
    rewrite token_char, Hr. reflexivity. }
  destruct (grp_head true 1 _ _ _ _ E3a) as [l3 E3]. cbn [before after caps] in E3.
  match type of E3 with
  | _ = MState _ _ ?c :: _ =>
      pose proof (chr_hit true 93%N (raw :: 91%N :: rev (take_blanks t) ++ pre) rest c) as E4
  end.
  destruct (seq_head true _ _ _ _ _ _ _ E3 E4) as [l5 E5].
  destruct (seq_head true _ _ _ _ _ _ _ E2 E5) as [l6 E6].
  destruct (seq_head true _ _ _ _ _ _ _ E1 E6) as [l7 E7].
  destruct (seq_head true _ _ _ _ _ _ _ E0 E7) as [l8 E8].
  rewrite E8. discriminate.
Qed.

End BoxFacts.

Section Checkbox.

Variable env : Env.
Import ReFacts MarkerFacts TextFacts GuardFacts BuildFacts StartFacts TrailFacts BoxFacts.


End Checkbox.

Module LeadMarkerFacts.
Import ReFacts MarkerFacts TextFacts GuardFacts BuildFacts StartFacts TrailFacts BoxFacts.

Lemma in_bullet' c : existsb (in_item c) (map CLit (js "-*+")) = is_bullet c.
Proof.
  simpl. unfold is_bullet. rewrite orb_false_r.
  destruct (ceqb c 45), (ceqb c 42), (ceqb c 43); reflexivity.
Qed.

Lemma guard_marker_eq s :
  guard_marker s
  = match rmatch false leadingMarkerRgx (MState [] s no_captures) with
    | [] => s
    | _ :: _ => js "¨A" ++ s
    end.
Proof.
  unfold guard_marker, replace_g, matches_g. cbn [collect].
  set (r' := seq [Grp 1 (Alt (set (js "-*+")) (Seq digit (chr 46)));
                  plus blank;
                  star (Cls false [CNonSpace; CLit LF; CLit SP])]).
  change leadingMarkerRgx with (Seq Bol r').
  destruct (rmatch false (Seq Bol r') (MState [] s no_captures)) as [|y l] eqn:E.
  - rewrite (scan_bol_only _ _ E). reflexivity.
  - rewrite (scan_first _ _ _ _ _ _ E).
    assert (I : In y (rmatch false (Seq Bol r') (MState [] s no_captures)))
      by (rewrite E; left; reflexivity).
    apply rmatch_shape in I; [|reflexivity].
    destruct I as (w & S1 & (w0 & w1 & -> & -> & (w2 & w3 & -> & P2 & _))).
    assert (N : w2 <> []).
    { destruct P2 as [(c & -> & _)|(a & b & -> & (c & -> & _) & _)]; discriminate. }
    pose proof (steps_length _ _ _ S1) as L. pose proof (between_steps _ _ _ S1) as B.
    destruct S1 as [A1 B1]. cbn [before after] in *.
    assert (Ne : Nat.eqb (length (after y)) (length s) = false).
    { apply Nat.eqb_neq. rewrite L, !length_app. destruct w2; [contradiction|]. simpl. lia. }
    rewrite Ne. rewrite collect_none.
    + cbn [flat_map fst snd m_whole mk_res app]. rewrite B.
      unfold between. cbn [before length firstn rev app].
      rewrite app_nil_r, A1, <- !app_assoc. reflexivity.
    + apply scan_bol_none. rewrite B1. destruct w2; [contradiction|].
      simpl. intros Hn. apply (f_equal (@length _)) in Hn.
      rewrite !length_app in Hn. simpl in Hn. lia.
Qed.

Lemma lead_sound s y :
  In y (rmatch false leadingMarkerRgx (MState [] s no_captures)) -> marker_lead s = true.
Proof.
  intros H. unfold leadingMarkerRgx in H.
  change (seq [?a1; ?a2; ?a3; ?a4]) with (Seq a1 (Seq a2 (Seq a3 a4))) in H.
  apply in_seq in H. destruct H as (x0 & H0 & H).
  apply in_bol in H0. destruct H0 as [-> _].
  apply in_seq in H. destruct H as (x1 & H1 & H).
  apply in_seq in H. destruct H as (x2 & H2 & _).
  apply rmatch_shape in H1; [|reflexivity]. destruct H1 as (w1 & [A1 _] & P1).
  apply rmatch_shape in H2; [|reflexivity]. destruct H2 as (w2 & [A2 _] & P2).
  cbn [after] in A1. rewrite A2 in A1. subst s.
  pose proof (shape_cls_run _ _ _ _ _ _ P2) as F2. unfold blank, set in F2.
  rewrite forallb_blank in F2.
  apply shape_rep_cls in P2. destruct P2 as (_ & L2 & _).
  destruct w2 as [|b w2]; [simpl in L2; lia|]. simpl in F2.
  apply andb_true_iff in F2. destruct F2 as [Fb _].
  destruct P1 as [(c & -> & E)|(wa & wb & -> & (c & -> & Ec) & (d & -> & Ed))].
  - unfold set in E. cbn [xorb] in E. rewrite in_bullet' in E.
    simpl. rewrite E. exact Fb.
  - simpl in Ec, Ed. rewrite orb_false_r in Ec, Ed.
    unfold ceqb in Ed. apply N.eqb_eq in Ed. subst d.
    cbn [app marker_lead starts_blank]. destruct (is_bullet c) eqn:Bc.
    + exfalso. eapply SplitFacts.digit_not_bullet; eassumption.
    + rewrite Ec, Fb. reflexivity.
Qed.

Lemma lead_complete s :
  marker_lead s = true ->
  rmatch false leadingMarkerRgx (MState [] s no_captures) <> [].
Proof.
  intros H. unfold leadingMarkerRgx.
  change (seq [?a1; ?a2; ?a3; ?a4]) with (Seq a1 (Seq a2 (Seq a3 a4))).
  assert (E0 : rmatch false Bol (MState [] s no_captures) = [MState [] s no_captures])
    by reflexivity.
  assert (E1 : exists pre t l c,
             rmatch false (Grp 1 (Alt (set (js "-*+")) (Seq digit (chr 46%N))))
               (MState [] s no_captures) = MState pre t c :: l
             /\ starts_blank t = true).
  { destruct s as [|a s]; [discriminate|]. cbn [marker_lead] in H.
    destruct (is_bullet a) eqn:Ba.
    - assert (Ea : rmatch false (set (js "-*+")) (MState [] (a :: s) no_captures)
                   = [MState [a] s no_captures]).
      { unfold set. rewrite cls_step. unfold cls_ok. cbn [xorb]. rewrite in_bullet', Ba.
        reflexivity. }
      assert (Eb : exists l, rmatch false (Alt (set (js "-*+")) (Seq digit (chr 46%N)))
                     (MState [] (a :: s) no_captures) = MState [a] s no_captures :: l).
      { cbn [rmatch] in Ea |- *. rewrite Ea. eexists. reflexivity. }
      destruct Eb as [l Eb]. destruct (grp_head false 1 _ _ _ _ Eb) as [l' E].
      eexists _, _, _, _. split; [exact E|exact H].
    - apply andb_true_iff in H. destruct H as [Da H].
      destruct s as [|d u]; [discriminate|].
      apply andb_true_iff in H. destruct H as [Hd Hu].
      unfold ceqb in Hd. apply N.eqb_eq in Hd. subst d.
      assert (Ea : rmatch false (set (js "-*+")) (MState [] (a :: 46%N :: u) no_captures) = []).
      { unfold set. rewrite cls_step. unfold cls_ok. cbn [xorb]. rewrite in_bullet', Ba.
        reflexivity. }
      assert (Ed : rmatch false digit (MState [] (a :: 46%N :: u) no_captures)
                   = [MState [a] (46%N :: u) no_captures]).
      { unfold digit. rewrite cls_step. unfold cls_ok. simpl. rewrite Da. reflexivity. }
      pose proof (chr_hit false 46%N [a] u no_captures) as Ep.
      destruct (seq_head false _ _ _ _ _ _ _ Ed Ep) as [l Es].
      assert (Eb : exists l, rmatch false (Alt (set (js "-*+")) (Seq digit (chr 46%N)))
                     (MState [] (a :: 46%N :: u) no_captures)
                   = MState [46%N; a] u no_captures :: l).
      { change (rmatch false (Alt ?p ?q) ?x) with (rmatch false p x ++ rmatch false q x).
        rewrite Ea, Es. eexists. reflexivity. }
      destruct Eb as [l' Eb]. destruct (grp_head false 1 _ _ _ _ Eb) as [l'' E].
      eexists _, _, _, _. split; [exact E|exact Hu]. }
  destruct E1 as (pre & t & l1 & c & E1 & Ht).
  assert (E2 : exists l, rmatch false (plus blank) (MState pre t c)
               = MState (rev (take_while (cls_ok false (map CLit (js " \t"))) t) ++ pre)
                        (drop_while (cls_ok false (map CLit (js " \t"))) t) c :: l).
  { unfold plus, blank, set. apply rmatch_at_least_cls.
    destruct t as [|b t]; [discriminate|]. simpl in Ht. cbn [take_while].
    unfold cls_ok at 1. rewrite in_blank. cbn [xorb]. rewrite Ht. simpl. lia. }
  destruct E2 as [l2 E2].
  assert (E3 : exists y l, rmatch false (star (Cls false [CNonSpace; CLit LF; CLit SP]))
               (MState (rev (take_while (cls_ok false (map CLit (js " \t"))) t) ++ pre)
                        (drop_while (cls_ok false (map CLit (js " \t"))) t) c) = y :: l).
  { unfold star. destruct (rmatch_at_least_cls false false [CNonSpace; CLit LF; CLit SP] 0
      (drop_while (cls_ok false (map CLit (js " \t"))) t)
      (rev (take_while (cls_ok false (map CLit (js " \t"))) t) ++ pre) c) as [l E]; [lia|].
    eexists _, _. exact E. }
  destruct E3 as (y3 & l3 & E3).
  destruct (seq_head false _ _ _ _ _ _ _ E2 E3) as [l4 E4].
  destruct (seq_head false _ _ _ _ _ _ _ E1 E4) as [l5 E5].
  destruct (seq_head false _ _ _ _ _ _ _ E0 E5) as [l6 E6].
  rewrite E6. discriminate.
Qed.

End LeadMarkerFacts.

Section Guard.
Import LeadMarkerFacts.

(** X10: the escape marker is put before an item body exactly when the body
    starts with a bullet or with one digit and a period, followed by a space
    or a tab; a body that starts with two digits is never guarded. *)
Theorem guard_marker_exact :
  (forall s, guard_marker s = if marker_lead s then js "¨A" ++ s else s)
  /\ (forall d1 d2 rest,
        is_digit d1 = true -> is_digit d2 = true ->
        guard_marker (d1 :: d2 :: rest) = d1 :: d2 :: rest).
Proof.
  assert (G : forall s, guard_marker s = if marker_lead s then js "¨A" ++ s else s).
  { intros s. rewrite guard_marker_eq.
    destruct (rmatch false leadingMarkerRgx (MState [] s no_captures)) as [|y l] eqn:E.
    - destruct (marker_lead s) eqn:M; [|reflexivity].
      exfalso. apply (lead_complete s M). exact E.
    - rewrite (lead_sound s y); [reflexivity|]. rewrite E. left. reflexivity. }
  split; [exact G|].
  intros d1 d2 rest D1 D2. rewrite G.
  assert (M : marker_lead (d1 :: d2 :: rest) = false).
  { cbn [marker_lead]. destruct (is_bullet d1) eqn:B.
    - exfalso. exact (SplitFacts.digit_not_bullet d1 D1 B).
    - rewrite D1. cbn [andb]. unfold ceqb.
      destruct (N.eqb_spec d2 46) as [->|]; [vm_compute in D2; discriminate|reflexivity]. }
  rewrite M. reflexivity.
Qed.

End Guard.

Module SentinelFacts.
Import ReFacts MarkerFacts TextFacts.

Lemma sentinel_hit ml pre s c :
  rmatch ml sentinelRgx (MState pre (168%N :: 48%N :: s) c)
  = [MState (48%N :: 168%N :: pre) s c].
Proof.
  change sentinelRgx with (Seq (chr 168%N) (chr 48%N)).
  cbn [rmatch]. rewrite (chr_hit ml 168%N). cbn [flat_map]. rewrite (chr_hit ml 48%N).
  reflexivity.
Qed.

Lemma is_prefix_sentinel s :
  is_prefix Z0 s = true -> exists s', s = 168%N :: 48%N :: s'.
Proof.
  destruct s as [|a [|b s]]; cbn [is_prefix Z0]; unfold ceqb; intros H;
    try discriminate.
  - rewrite andb_false_r in H. discriminate.
  - apply andb_true_iff in H. destruct H as [Ha H].
    apply andb_true_iff in H. destruct H as [Hb _].
    apply N.eqb_eq in Ha, Hb. subst. exists s. reflexivity.
Qed.

(** [text.replace(/¨0/, '')] takes out the first sentinel of the text. *)
Lemma strip_first_sentinel : forall s pre w,
  w = rev pre ++ s ->
  match scan false sentinelRgx pre s with
  | Some (x, y) => rev (before x) ++ after y
  | None => w
  end = rev pre ++ replace_str Z0 [] s.
Proof.
  induction s as [|c s IH]; intros pre w ->.
  - reflexivity.
  - destruct (is_prefix Z0 (c :: s)) eqn:P.
    + destruct (is_prefix_sentinel _ P) as [s' E]. inversion E; subst c s; clear E.
      cbn [scan]. rewrite sentinel_hit. cbn [before after replace_str].
      change (is_prefix Z0 (168%N :: 48%N :: s')) with true. reflexivity.
    + cbn [scan replace_str]. rewrite (sentinel_miss false pre (c :: s) P).
      rewrite P. rewrite (IH (c :: pre)).
      * cbn [rev]. rewrite <- app_assoc. reflexivity.
      * cbn [rev]. rewrite <- app_assoc. reflexivity.
Qed.

Lemma replace1_sentinel s :
  replace1 false sentinelRgx (fun _ => []) s = replace_str Z0 [] s.
Proof.
  unfold replace1. pose proof (strip_first_sentinel s [] s eq_refl) as H.
  destruct (scan false sentinelRgx [] s) as [[x y]|]; exact H.
Qed.

Lemma replace_str_first a t :
  occurs Z0 a = false -> replace_str Z0 [] (a ++ Z0 ++ t) = a ++ t.
Proof.
  induction a as [|c a IH]; intros H.
  - reflexivity.
  - cbn [occurs] in H. apply orb_false_iff in H. destruct H as [H1 H2].
    assert (P : is_prefix Z0 ((c :: a) ++ Z0 ++ t) = false).
    { destruct a as [|d a].
      - cbn. apply andb_false_r.
      - exact H1. }
    cbn [app replace_str] in *. change [168%N; 48%N] with Z0. rewrite P.
    f_equal. apply IH. exact H2.
Qed.

End SentinelFacts.

Section Sentinel.

Variable env : Env.
Import ReFacts MarkerFacts SentinelFacts.

(** X4: of a text without list marker line that holds the sentinel sequence,
    the first sentinel of the text is the one taken out, and the one the
    transform appended stays at the end of the result. *)
Theorem sentinel_of_the_input_is_stripped :
  forall depth a b g,
    has_marker_line (a ++ Z0 ++ b) = false ->
    occurs Z0 a = false ->
    (forall name t, ev_output (dispatch env (Event name t (Some t) None [] [])) = Some t) ->
    makehtml_list env (S depth) (a ++ Z0 ++ b) g = Some (Some (a ++ b ++ Z0), g).
Proof.
  intros depth a b g Hm Ha Hd. cbn [makehtml_list]. unfold list_body, output_string.
  rewrite Hd. change (js "¨0") with Z0 in *.
  assert (Hscan : forall lvl : bool,
             scan true (if lvl then subListRgx else mainListRgx) [] ((a ++ Z0 ++ b) ++ Z0) = None).
  { intros lvl. apply no_list_block. simpl. unfold has_marker_line.
    rewrite marker_line_sentinel. exact Hm. }
  assert (E : replace1 false sentinelRgx (fun _ => []) ((a ++ Z0 ++ b) ++ Z0) = a ++ b ++ Z0).
  { rewrite replace1_sentinel, <- !app_assoc. apply replace_str_first. exact Ha. }
  unfold bind, get_level, replace_gM, matches_g.
  destruct (negb (gListLevel g =? 0)%Z).
  - rewrite (collect_none _ _ _ _ _ _ (Hscan true)). simpl.
    change (168%N :: 48%N :: b) with (Z0 ++ b). change [168%N; 48%N] with Z0.
    rewrite E, Hd. reflexivity.
  - rewrite (collect_none _ _ _ _ _ _ (Hscan false)). simpl.
    change (168%N :: 48%N :: b) with (Z0 ++ b). change [168%N; 48%N] with Z0.
    rewrite E, Hd. reflexivity.
Qed.

End Sentinel.

Module LevelFacts.
Import MonadFacts.

Lemma above_here n self s g : (n < gListLevel g)%Z -> above n self s g = self s g.
Proof. intros H. unfold above. apply Z.ltb_lt in H. rewrite H. reflexivity. Qed.

Lemma bind_here {A B} (c c' : M A) (f f' : A -> M B) g :
  c g = c' g ->
  (forall a g1, c g = Some (a, g1) -> f a g1 = f' a g1) ->
  bind c f g = bind c' f' g.
Proof.
  intros E H. unfold bind. rewrite <- E. destruct (c g) as [[a g1]|]; [|reflexivity].
  apply H. reflexivity.
Qed.

Lemma replace_each_here (f f' : mres -> M jsstring) k : forall l g,
  gListLevel g = k ->
  (forall m g1, gListLevel g1 = k -> f m g1 = f' m g1) ->
  (forall m, preserves (f m)) ->
  replace_each f l g = replace_each f' l g.
Proof.
  induction l as [|[gap m] l IH]; intros g L E P; [reflexivity|].
  cbn [replace_each]. apply bind_here; [apply E; exact L|].
  intros r g1 H1. apply bind_here; [|reflexivity].
  apply IH; [|exact E|exact P].
  destruct (P m g r g1 H1) as [L1 _]. congruence.
Qed.

Lemma replace_gM_here ml r (f f' : mres -> M jsstring) s g :
  (forall m g1, gListLevel g1 = gListLevel g -> f m g1 = f' m g1) ->
  (forall m, preserves (f m)) ->
  replace_gM ml r f s g = replace_gM ml r f' s g.
Proof.
  intros E P. unfold replace_gM. destruct (matches_g ml r s) as [l tl].
  apply bind_here; [|reflexivity]. apply (replace_each_here f f' (gListLevel g)); auto.
Qed.

Lemma above_preserves n self :
  (forall s, preserves (self s)) -> forall s, preserves (above n self s).
Proof.
  intros P s g a g' H. unfold above in H.
  destruct (n <? gListLevel g)%Z; [|discriminate]. eapply P. exact H.
Qed.

End LevelFacts.

Section Level.

Variable env : Env.
Import MonadFacts LevelFacts.

Lemma listItem_above self isParagraphed m g n :
  (n < gListLevel g)%Z ->
  listItem env self isParagraphed m g = listItem env (above n self) isParagraphed m g.
Proof.
  intros L. unfold listItem. apply bind_here; [reflexivity|].
  intros m4 g1 H1. assert (g1 = g) by (destruct (m_group m 4); inversion H1; reflexivity).
  subst g1. apply bind_here; [|reflexivity].
  destruct (supplied _); [reflexivity|].
  apply bind_here; [reflexivity|]. intros item g1 H2.
  assert (g1 = g) by (destruct (listItem_of _); inversion H2; reflexivity). subst g1.
  unfold item_default, item_body.
  apply bind_here; [|reflexivity]. apply bind_here; [|reflexivity].
  destruct (multi_paragraph _ _).
  - unfold render_loose. apply bind_here; [|reflexivity].
    symmetry. apply above_here. exact L.
  - unfold render_tight. apply bind_here; [|reflexivity].
    symmetry. apply above_here. exact L.
Qed.

Lemma processListItems_above self listStr trimTrailing g n :
  (forall s, preserves (self s)) -> (n <= gListLevel g)%Z ->
  processListItems env self listStr trimTrailing g
  = processListItems env (above n self) listStr trimTrailing g.
Proof.
  intros P L. unfold processListItems.
  apply bind_here; [reflexivity|]. intros l g1 H1. inversion H1; subst l g1; clear H1.
  apply bind_here; [reflexivity|]. intros [] g1 H1. inversion H1; subst g1; clear H1.
  apply bind_here; [|reflexivity].
  apply replace_gM_here.
  - intros m g1 L1. apply listItem_above. rewrite L1. simpl. lia.
  - intros m. apply listItem_preserves. exact P.
Qed.

Lemma parseCL_above self list trimTrailing n :
  (forall s, preserves (self s)) ->
  forall depth otp listType attrs txt g,
    (n <= gListLevel g)%Z ->
    parseCL env depth self list trimTrailing otp listType attrs txt g
    = parseCL env depth (above n self) list trimTrailing otp listType attrs txt g.
Proof.
  intros P. induction depth as [|depth IH]; intros otp listType attrs txt g L; [reflexivity|].
  cbn [parseCL]. destruct (search true (counterRxg env listType) txt).
  - apply bind_here; [apply processListItems_above; assumption|].
    intros items g1 H1. apply IH.
    destruct (processListItems_preserves env self _ _ P g items g1 H1) as [L1 _]. lia.
  - apply bind_here; [apply processListItems_above; assumption|reflexivity].
Qed.

Lemma parseConsecutiveLists_above depth self pattern list listType trimTrailing g n :
  (forall s, preserves (self s)) -> (n <= gListLevel g)%Z ->
  parseConsecutiveLists env depth self pattern list listType trimTrailing g
  = parseConsecutiveLists env depth (above n self) pattern list listType trimTrailing g.
Proof.
  intros P L. unfold parseConsecutiveLists. destruct (supplied _); [reflexivity|].
  unfold run_default. destruct (search _ _ _).
  - apply parseCL_above; assumption.
  - apply bind_here; [apply processListItems_above; assumption|reflexivity].
Qed.

(** X5: the nested list sub-parser is entered only with the counter above the
    value it has when the transform is called: refusing every other call
    changes nothing. *)
Theorem nested_calls_above_entry :
  (forall self listStr trimTrailing g,
      (forall s, preserves (self s)) ->
      processListItems env self listStr trimTrailing g
      = processListItems env (above (gListLevel g) self) listStr trimTrailing g)
  /\ (forall depth text g,
      makehtml_list env (S depth) text g
      = list_body env depth (above (gListLevel g) (makehtml_list env depth)) text g).
Proof.
  split.
  - intros self listStr trimTrailing g P. apply processListItems_above; [exact P|lia].
  - intros depth text g. cbn [makehtml_list]. unfold list_body.
    pose proof (makehtml_list_preserves env depth) as P.
    apply bind_here; [reflexivity|]. intros level g1 H1. inversion H1; subst level g1; clear H1.
    apply bind_here; [|reflexivity].
    destruct (negb (gListLevel g =? 0)%Z); apply replace_gM_here.
    + intros m g1 L1. apply bind_here; [reflexivity|]. intros lst g2 H2.
      assert (g2 = g1) by (destruct (m_group m 1); inversion H2; reflexivity). subst g2.
      apply bind_here; [reflexivity|]. intros mk g2 H3.
      assert (g2 = g1) by (destruct (m_group m 2); inversion H3; reflexivity). subst g2.
      apply parseConsecutiveLists_above; [exact P|lia].
    + intros m. apply preserves_bind; [apply preserves_defined|]. intros lst.
      apply preserves_bind; [apply preserves_defined|]. intros mk.
      apply parseConsecutiveLists_preserves. exact P.
    + intros m g1 L1. apply bind_here; [reflexivity|]. intros lst g2 H2.
      assert (g2 = g1) by (destruct (m_group m 2); inversion H2; reflexivity). subst g2.
      apply bind_here; [reflexivity|]. intros mk g2 H3.
      assert (g2 = g1) by (destruct (m_group m 3); inversion H3; reflexivity). subst g2.
      apply parseConsecutiveLists_above; [exact P|lia].
    + intros m. apply preserves_bind; [apply preserves_defined|]. intros lst.
      apply preserves_bind; [apply preserves_defined|]. intros mk.
      apply parseConsecutiveLists_preserves. exact P.
Qed.

End Level.

Module PosFacts.
Import ReFacts MarkerFacts TextFacts.

Lemma pos_flat_map (f f' : mstate -> list mstate) : forall l l',
  map place l = map place l' ->
  (forall y y', place y = place y' -> map place (f y) = map place (f' y')) ->
  map place (flat_map f l) = map place (flat_map f' l').
Proof.
  induction l as [|y l IH]; intros [|y' l'] E H; try discriminate; [reflexivity|].
  pose proof (f_equal (@hd _ (place y)) E) as E1. pose proof (f_equal (@tl _) E) as E2.
  cbn [map hd tl] in E1, E2. cbn [flat_map]. rewrite !map_app. f_equal.
  - apply H. exact E1.
  - apply IH; assumption.
Qed.

Lemma pos_advance1 x x' : place x = place x' -> place (advance 1 x) = place (advance 1 x').
Proof.
  destruct x as [b a c], x' as [b' a' c']. unfold place. cbn [before after].
  intros E. inversion E; subst. destruct a' as [|d [|e a']]; reflexivity.
Qed.

Lemma pos_rep (step step' : mstate -> list mstate) gs gs' greedy :
  (forall y y', place y = place y' -> map place (step y) = map place (step' y')) ->
  forall fuel min max x x',
    place x = place x' ->
    map place (rep step gs greedy fuel min max x)
    = map place (rep step' gs' greedy fuel min max x').
Proof.
  intros Hs. induction fuel as [|fuel IH]; intros min max x x' E; [reflexivity|].
  assert (Ex := E). unfold place in Ex. inversion Ex as [[B A]].
  assert (It : forall max',
    map place (flat_map (fun y => if Nat.eqb min 0 && Nat.eqb (length (after y)) (length (after x))
                       then [] else rep step gs greedy fuel (pred min) max' y)
             (step (MState (before x) (after x) (clear_caps gs (caps x)))))
    = map place (flat_map (fun y => if Nat.eqb min 0 && Nat.eqb (length (after y)) (length (after x'))
                       then [] else rep step' gs' greedy fuel (pred min) max' y)
             (step' (MState (before x') (after x') (clear_caps gs' (caps x')))))).
  { intros max'. apply pos_flat_map.
    - apply Hs. unfold place. simpl. rewrite A, B. reflexivity.
    - intros y y' Ey. assert (Ey' := Ey). unfold place in Ey'. inversion Ey' as [[By Ay]].
      rewrite A, Ay. destruct (Nat.eqb min 0 && Nat.eqb (length (after y')) (length (after x')));
        [reflexivity|]. apply IH. exact Ey. }
  cbn [rep]. destruct max as [[|k]|].
  - simpl. rewrite E. reflexivity.
  - cbv zeta. destruct (negb (Nat.eqb min 0)); [apply It|].
    destruct greedy; rewrite ?map_app; cbn [map]; rewrite It, E; reflexivity.
  - cbv zeta. destruct (negb (Nat.eqb min 0)); [apply It|].
    destruct greedy; rewrite ?map_app; cbn [map]; rewrite It, E; reflexivity.
Qed.

Lemma pos_map_caps (f : mstate -> captures) l :
  map place (map (fun y => MState (before y) (after y) (f y)) l) = map place l.
Proof. induction l as [|y l IH]; simpl; [reflexivity|]. rewrite IH. reflexivity. Qed.

(** Without backreferences, where a pattern matches does not depend on the
    captures nor on the numbers of its groups. *)
Theorem pos_erase ml : forall r x x',
  bref_free r = true -> place x = place x' ->
  map place (rmatch ml r x) = map place (rmatch ml (erase r) x').
Proof.
  induction r; intros x x' F E; cbn [erase]; cbn [bref_free] in F;
    assert (Ex := E); unfold place in Ex; inversion Ex as [[B A]].
  - simpl. rewrite E. reflexivity.
  - cbn [rmatch]. rewrite A. destruct (after x') as [|c s] eqn:A'; [reflexivity|].
    destruct (xorb neg (existsb (in_item c) items)); [|reflexivity].
    cbn [map]. rewrite (pos_advance1 x x' E). reflexivity.
  - cbn [rmatch]. rewrite A. destruct (after x') as [|c s] eqn:A'; [reflexivity|].
    destruct (is_line_terminator c); [reflexivity|].
    cbn [map]. rewrite (pos_advance1 x x' E). reflexivity.
  - cbn [rmatch]. unfold at_bol. rewrite B. destruct (before x') as [|c s]; simpl;
      [rewrite E; reflexivity|].
    destruct (ml && is_line_terminator c); simpl; [rewrite E|]; reflexivity.
  - cbn [rmatch]. unfold at_eol. rewrite A. destruct (after x') as [|c s]; simpl;
      [rewrite E; reflexivity|].
    destruct (ml && is_line_terminator c); simpl; [rewrite E|]; reflexivity.
  - apply andb_true_iff in F. destruct F as [F1 F2]. cbn [rmatch].
    apply pos_flat_map; [apply IHr1; assumption|]. intros y y' Ey. apply IHr2; assumption.
  - apply andb_true_iff in F. destruct F as [F1 F2]. cbn [rmatch].
    rewrite !map_app. f_equal; [apply IHr1|apply IHr2]; assumption.
  - cbn [rmatch]. rewrite A. apply pos_rep; [|exact E].
    intros y y' Ey. apply IHr; assumption.
  - cbn [rmatch]. rewrite !pos_map_caps. apply IHr; assumption.
  - pose proof (IHr x x' F E) as H. cbn [rmatch].
    destruct (rmatch ml r x) as [|y l]; destruct (rmatch ml (erase r) x') as [|y' l'];
      try discriminate; destruct positive; try reflexivity; simpl; rewrite ?E;
      unfold place; simpl; rewrite ?A, ?B; reflexivity.
  - discriminate.
Qed.

Lemma pos_same ml r r' x x' :
  bref_free r = true -> bref_free r' = true -> erase r = erase r' ->
  place x = place x' ->
  rmatch ml r x <> [] -> rmatch ml r' x' <> [].
Proof.
  intros F F' Er E N.
  pose proof (pos_erase ml r x x F eq_refl) as H1.
  pose proof (pos_erase ml r' x' x F' (eq_sym E)) as H2.
  rewrite Er in H1. rewrite <- H2 in H1.
  destruct (rmatch ml r x); [contradiction|].
  destruct (rmatch ml r' x'); [discriminate|discriminate].
Qed.

End PosFacts.

Module BoundaryFacts.
Import ReFacts MarkerFacts TextFacts GuardFacts BuildFacts TrailFacts PosFacts.

Lemma grp_nonempty ml n a x : rmatch ml a x <> [] -> rmatch ml (Grp n a) x <> [].
Proof. cbn [rmatch]. destruct (rmatch ml a x); [contradiction|discriminate]. Qed.

Lemma grp_nonempty_inv ml n a x : rmatch ml (Grp n a) x <> [] -> rmatch ml a x <> [].
Proof. cbn [rmatch]. destruct (rmatch ml a x); [contradiction|discriminate]. Qed.

Lemma in_nonempty {A} (y : A) l : In y l -> l <> [].
Proof. destruct l; [contradiction|discriminate]. Qed.

Lemma seq_in ml a b x y1 :
  In y1 (rmatch ml a x) -> rmatch ml b y1 <> [] -> rmatch ml (Seq a b) x <> [].
Proof.
  intros I N. cbn [rmatch]. destruct (rmatch ml b y1) as [|y l] eqn:E; [contradiction|].
  apply (in_nonempty y). apply in_flat_map. exists y1. split; [exact I|].
  rewrite E. left. reflexivity.
Qed.

(** A block of the nested level is a block of the top level, at the same
    place. *)
Lemma sub_then_main x :
  rmatch true subListRgx x <> [] -> rmatch true mainListRgx x <> [].
Proof.
  intros N. destruct (rmatch true subListRgx x) as [|y l] eqn:E; [contradiction|]. clear N.
  assert (I : In y (rmatch true subListRgx x)) by (rewrite E; left; reflexivity).
  change subListRgx with (Seq Bol (Grp 1 bodySub)) in I.
  apply in_seq in I. destruct I as (x0 & H0 & I).
  apply in_bol in H0. destruct H0 as [-> B].
  apply in_nonempty, grp_nonempty_inv in I.
  change mainListRgx
    with (Seq (Grp 1 (Alt (str (js "\n\n")) (Seq Bol (opt (chr LF))))) (Grp 2 bodyMain)).
  set (x1 := MState (before x) (after x) (set_cap 1 (between x x) (caps x))).
  apply (seq_in true _ _ x x1).
  - cbn [rmatch]. apply in_map_iff. exists x. split; [reflexivity|].
    apply in_or_app. right. rewrite B. cbn [flat_map]. rewrite app_nil_r.
    unfold opt. rewrite rmatch_rep_eq. cbn [rep Nat.eqb negb andb].
    apply in_or_app. right. left. reflexivity.
  - apply grp_nonempty.
    apply (pos_same true bodySub bodyMain x x1); try reflexivity. exact I.
Qed.

(** A block of the top level holds a block of the nested level, after the
    line feeds it starts with. *)
Lemma main_then_sub x :
  rmatch true mainListRgx x <> [] ->
  exists w x1, steps x x1 w /\ rmatch true subListRgx (MState (before x1) (after x1) no_captures) <> [].
Proof.
  intros N. destruct (rmatch true mainListRgx x) as [|y l] eqn:E; [contradiction|]. clear N.
  assert (I : In y (rmatch true mainListRgx x)) by (rewrite E; left; reflexivity).
  change mainListRgx
    with (Seq (Grp 1 (Alt (str (js "\n\n")) (Seq Bol (opt (chr LF))))) (Grp 2 bodyMain)) in I.
  apply in_seq in I. destruct I as (x1 & H1 & I).
  apply in_nonempty, grp_nonempty_inv in I.
  assert (S1 : exists w, steps x x1 w).
  { apply rmatch_shape in H1; [|reflexivity]. destruct H1 as (w & S1 & _). exists w. exact S1. }
  destruct S1 as [w S1].
  assert (B1 : at_bol true x1 = true).
  { apply in_grp in H1. destruct H1 as (x0 & H1 & B1 & A1 & _).
    unfold at_bol. rewrite B1. apply in_alt in H1. destruct H1 as [H1|H1].
    - apply rmatch_shape in H1; [|reflexivity].
      destruct H1 as (w' & S' & (w1 & w2 & -> & (c1 & -> & E1) & (c2 & -> & E2))).
      destruct S' as [_ S']. rewrite S'. simpl.
      simpl in E2. rewrite orb_false_r in E2. apply N.eqb_eq in E2. subst c2. reflexivity.
    - apply in_seq in H1. destruct H1 as (x3 & H3 & H1).
      apply in_bol in H3. destruct H3 as [-> B].
      apply rmatch_shape in H1; [|reflexivity].
      destruct H1 as (w' & S' & H1). apply shape_rep_cls in H1.
      destruct H1 as (F & _ & L).
      destruct S' as [_ S']. rewrite S'.
      destruct w' as [|c [|d w']]; simpl in L; try lia.
      + simpl. exact B.
      + inversion F as [|? ? Hc Hw]; subst. simpl in Hc. rewrite orb_false_r in Hc.
        apply N.eqb_eq in Hc. subst c. reflexivity. }
  exists w, x1. split; [exact S1|].
  change subListRgx with (Seq Bol (Grp 1 bodySub)).
  apply (seq_in true _ _ _ (MState (before x1) (after x1) no_captures)).
  - cbn [rmatch]. unfold at_bol in *. cbn [before]. rewrite B1. left. reflexivity.
  - apply grp_nonempty.
    apply (pos_same true bodyMain bodySub x1 _); try reflexivity. exact I.
Qed.

Lemma scan_found ml r : forall suf pre a b,
  suf = a ++ b -> rmatch ml r (MState (rev a ++ pre) b no_captures) <> [] ->
  scan ml r pre suf <> None.
Proof.
  intros suf pre a b E N H. apply N. eapply scan_none_inv; eassumption.
Qed.

End BoundaryFacts.

Section Boundary.
Import ReFacts BoundaryFacts TrailFacts.

(** X3: the pattern of the top level and the pattern of the nested levels
    find a list block in the same texts. *)
Theorem same_texts_hold_a_block :
  forall t, finds mainListRgx t = finds subListRgx t.
Proof.
  intros t. unfold finds.
  destruct (scan true mainListRgx [] t) as [[x y]|] eqn:Sm;
    destruct (scan true subListRgx [] t) as [[x' y']|] eqn:Ss; try reflexivity; exfalso.
  - apply scan_some in Sm. destruct Sm as (sk & rest & -> & -> & (l & Hm) & _).
    destruct (main_then_sub (MState (rev sk ++ []) rest no_captures)) as (w & x1 & [A B] & N).
    { rewrite Hm. discriminate. }
    cbn [before after] in A, B.
    apply (scan_found true subListRgx (sk ++ rest) [] (sk ++ w) (after x1)).
    + rewrite A, app_assoc. reflexivity.
    + replace (rev (sk ++ w) ++ []) with (before x1)
        by (rewrite B, rev_app_distr, !app_nil_r; reflexivity).
      exact N.
    + exact Ss.
  - apply scan_some in Ss. destruct Ss as (sk & rest & -> & -> & (l & Hm) & _).
    apply (scan_found true mainListRgx (sk ++ rest) [] sk rest eq_refl).
    + apply sub_then_main. rewrite Hm. discriminate.
    + exact Sm.
Qed.

End Boundary.

Module KindFacts.
Import ReFacts MarkerFacts TextFacts SplitFacts GuardFacts BuildFacts StartFacts TrailFacts BoxFacts BoundaryFacts.

Lemma scan_bullet ml : forall s pre,
  match scan ml listTypeRgx pre s with Some _ => true | None => false end
  = existsb is_bullet s.
Proof.
  induction s as [|a s IH]; intros pre; [reflexivity|].
  unfold listTypeRgx, set. cbn [scan]. rewrite cls_step. unfold cls_ok. cbn [xorb existsb].
  rewrite in_bullet. destruct (is_bullet a); [reflexivity|]. apply IH.
Qed.

Lemma type_of_marker_spec m :
  type_of_marker m = if existsb is_bullet m then Ul else Ol.
Proof.
  unfold type_of_marker. rewrite <- (scan_bullet false m []).
  unfold search, exec. destruct (scan false listTypeRgx [] m) as [[x y]|]; reflexivity.
Qed.

Lemma no_bullet (p : char -> bool) s :
  (forall c, p c = true -> is_bullet c = false) ->
  forallb p s = true -> existsb is_bullet s = false.
Proof.
  intros H. induction s as [|a s IH]; simpl; [reflexivity|]. intros F.
  apply andb_true_iff in F. destruct F as [F1 F2]. rewrite (H a F1), (IH F2). reflexivity.
Qed.

Lemma space_not_bullet c : ceqb c 32 = true -> is_bullet c = false.
Proof. unfold ceqb. intros H. apply N.eqb_eq in H. subst. reflexivity. Qed.

Lemma blank_not_bullet c : is_blank c = true -> is_bullet c = false.
Proof.
  unfold is_blank, ceqb. intros H. apply orb_true_iff in H.
  destruct H as [H|H]; apply N.eqb_eq in H; subst; reflexivity.
Qed.

Lemma digit_no_bullet c : is_digit c = true -> is_bullet c = false.
Proof.
  intros D. destruct (is_bullet c) eqn:B; [|reflexivity].
  exfalso. exact (digit_not_bullet c D B).
Qed.

Lemma bullet_not_space c : is_bullet c = true -> ceqb c 32 = false.
Proof.
  intros B. destruct (ceqb c 32) eqn:E; [|reflexivity].
  rewrite (space_not_bullet c E) in B. discriminate.
Qed.

Lemma digit_not_space c : is_digit c = true -> ceqb c 32 = false.
Proof.
  unfold is_digit, ceqb. intros D. apply andb_true_iff in D. destruct D as [D1 D2].
  apply N.leb_le in D1, D2. apply N.eqb_neq. lia.
Qed.

(** The marker group of a block: its kind is the kind of the first marker. *)
Lemma marker_group_kind m rest :
  shape (seq [fromto 0 3 (chr SP); Grp 3 marker; plus blank]) m ->
  type_of_marker m = kind_of_first (m ++ rest).
Proof.
  intros (sp & w & -> & Hsp & (mk & bl & -> & Hmk & Hbl)).
  pose proof (shape_cls_run _ _ _ _ _ _ Hsp) as Fsp. rewrite <- forallb_cls_lit in Fsp.
  pose proof (shape_cls_run _ _ _ _ _ _ Hbl) as Fbl. unfold blank, set in Fbl.
  rewrite forallb_blank in Fbl.
  assert (Fsp' : Forall (fun a => ceqb a 32 = true) sp).
  { apply Forall_forall. apply (proj1 (forallb_forall _ sp)). exact Fsp. }
  rewrite type_of_marker_spec, !existsb_app.
  rewrite (no_bullet _ sp space_not_bullet Fsp), (no_bullet _ bl blank_not_bullet Fbl).
  rewrite orb_false_r. cbn [orb]. unfold kind_of_first.
  destruct Hmk as [(c & -> & E)|(ds & pt & -> & Hds & (d & -> & Ed))].
  - unfold set in E. cbn [xorb] in E. rewrite in_bullet in E.
    cbn [existsb]. rewrite E. cbn [orb].
    rewrite <- !app_assoc. cbn [app].
    rewrite (first_after_spaces_app sp c _ Fsp' (bullet_not_space c E)), E. reflexivity.
  - pose proof (shape_cls_run _ _ _ _ _ _ Hds) as Fds. rewrite <- forallb_cls_digit in Fds.
    apply shape_rep_cls in Hds. destruct Hds as (_ & L & _).
    simpl in Ed. rewrite orb_false_r in Ed. unfold ceqb in Ed. apply N.eqb_eq in Ed. subst d.
    rewrite existsb_app, (no_bullet _ ds digit_no_bullet Fds). cbn [existsb orb].
    change (is_bullet 46%N) with false. cbn [orb].
    destruct ds as [|d ds]; [simpl in L; lia|]. cbn [forallb] in Fds.
    apply andb_true_iff in Fds. destruct Fds as [Dd _].
    rewrite <- !app_assoc. cbn [app].
    rewrite (first_after_spaces_app sp d _ Fsp' (digit_not_space d Dd)).
    rewrite (digit_no_bullet d Dd). reflexivity.
Qed.

End KindFacts.

Module KindMatchFacts.
Import ReFacts MarkerFacts TextFacts SplitFacts GuardFacts BuildFacts StartFacts TrailFacts BoxFacts BoundaryFacts KindFacts.

Lemma block_body_kind ml n j k x y0 :
  n <> k -> n <> j ->
  In y0 (rmatch ml (seq [Grp n (seq [fromto 0 3 (chr SP); Grp j marker; plus blank]);
                         plus_lazy (nset (js "\r")); Grp k block_end]) x) ->
  exists m, caps y0 n = Some m /\ type_of_marker m = kind_of_first (between x y0).
Proof.
  intros Nk Nj H.
  change (seq [?a; ?b; ?c]) with (Seq a (Seq b c)) in H.
  apply in_seq in H. destruct H as (x2 & H2 & H).
  apply in_grp_cap in H2; [|reflexivity]. destruct H2 as (m & S2 & P2 & C2).
  assert (G : ~ In n (groups_of (Seq (plus_lazy (nset (js "\r"))) (Grp k block_end)))).
  { simpl. intros [E|[]]. apply Nk. symmetry. exact E. }
  pose proof (rmatch_frame ml n _ _ _ G H) as F.
  apply rmatch_shape in H; [|reflexivity]. destruct H as (w & S3 & _).
  exists m. split; [rewrite F; exact C2|].
  rewrite (between_steps _ _ _ (steps_trans _ _ _ _ _ S2 S3)).
  apply marker_group_kind. exact P2.
Qed.

End KindMatchFacts.

Section Kind.
Import ReFacts KindMatchFacts.

(** X2: the kind handed to [parseConsecutiveLists] is the kind of the first
    marker of the block: [ul] when the first character after the leading
    spaces is a bullet, [ol] otherwise. *)
Theorem kind_is_first_marker :
  (forall pre suf x y,
      scan true subListRgx pre suf = Some (x, y) ->
      exists l m, caps y 1 = Some l /\ caps y 2 = Some m
                  /\ type_of_marker m = kind_of_first l)
  /\ (forall pre suf x y,
      scan true mainListRgx pre suf = Some (x, y) ->
      exists l m, caps y 2 = Some l /\ caps y 3 = Some m
                  /\ type_of_marker m = kind_of_first l).
Proof.
  split; intros pre suf x y S1;
    apply scan_some in S1; destruct S1 as (sk & rest & _ & _ & (l0 & Hm) & _);
    assert (I : In y (rmatch true _ x)) by (rewrite Hm; left; reflexivity); clear Hm.
  - unfold subListRgx in I. apply in_seq in I. destruct I as (x0 & H0 & I).
    apply in_bol in H0. destruct H0 as [-> _].
    apply in_grp in I. destruct I as (y0 & I & _ & _ & C).
    apply block_body_kind in I; [|discriminate|discriminate].
    destruct I as (m & Cm & K).
    exists (between x y0), m. rewrite C. unfold set_cap. cbn [Nat.eqb]. auto.
  - unfold mainListRgx in I. apply in_seq in I. destruct I as (x1 & _ & I).
    apply in_grp in I. destruct I as (y0 & I & _ & _ & C).
    apply block_body_kind in I; [|discriminate|discriminate].
    destruct I as (m & Cm & K).
    exists (between x1 y0), m. rewrite C. unfold set_cap. cbn [Nat.eqb]. auto.
Qed.

End Kind.

Module HeadingFacts.
Import ReFacts MarkerFacts TextFacts SplitFacts GuardFacts BuildFacts StartFacts TrailFacts BoxFacts BoundaryFacts.

Lemma cls_ok_lt c : cls_ok true line_terminators c = not_lt c.
Proof.
  unfold cls_ok, not_lt, is_line_terminator, line_terminators. simpl. rewrite orb_false_r, !orb_assoc.
  reflexivity.
Qed.

Lemma dot_as_cls ml x : rmatch ml Dot x = rmatch ml (Cls true line_terminators) x.
Proof.
  cbn [rmatch]. destruct (after x) as [|c s]; [reflexivity|].
  change (xorb true (existsb (in_item c) line_terminators)) with (cls_ok true line_terminators c).
  rewrite cls_ok_lt. unfold not_lt. destruct (is_line_terminator c); reflexivity.
Qed.

Lemma rep_ext (step step' : mstate -> list mstate) gs greedy :
  (forall x, step x = step' x) ->
  forall fuel min max x, rep step gs greedy fuel min max x = rep step' gs greedy fuel min max x.
Proof.
  intros E. induction fuel as [|fuel IH]; intros min max x; [reflexivity|].
  cbn [rep]. rewrite E.
  assert (F : forall max' l,
    flat_map (fun y => if Nat.eqb min 0 && Nat.eqb (length (after y)) (length (after x))
                       then [] else rep step gs greedy fuel (pred min) max' y) l
    = flat_map (fun y => if Nat.eqb min 0 && Nat.eqb (length (after y)) (length (after x))
                       then [] else rep step' gs greedy fuel (pred min) max' y) l).
  { intros max' l. apply FuelFacts.flat_map_ext_in. intros y _. rewrite IH. reflexivity. }
  destruct max as [[|k]|]; [reflexivity| |]; cbv zeta; rewrite F; reflexivity.
Qed.

Lemma rep_dot_as_cls ml n max g x :
  rmatch ml (Rep n max g Dot) x = rmatch ml (Rep n max g (Cls true line_terminators)) x.
Proof. rewrite !rmatch_rep_eq. apply rep_ext. intros y. apply dot_as_cls. Qed.

(** Every number of characters of the run, from the lower bound on, is one
    of the matches of a repeated class. *)
Lemma rep_cls_in ml neg items greedy : forall k min s pre c f,
  min <= k -> k <= length (take_while (cls_ok neg items) s) -> min + length s < f ->
  In (MState (rev (firstn k s) ++ pre) (skipn k s) c)
     (rep (rmatch ml (Cls neg items)) [] greedy f min None (MState pre s c)).
Proof.
  induction k as [|k IH]; intros min s pre c f Lm Lk Lf; (destruct f as [|f]; [lia|]).
  - assert (min = 0) by lia. subst min. cbn [rep Nat.eqb negb firstn skipn rev app].
    destruct greedy; [apply in_or_app; right|]; left; reflexivity.
  - destruct s as [|a s]; [simpl in Lk; lia|]. cbn [take_while] in Lk.
    destruct (cls_ok neg items a) eqn:Pa; [|simpl in Lk; lia].
    cbn [firstn skipn rev]. rewrite <- app_assoc. cbn [app].
    assert (I : forall m', m' <= k -> m' <= min ->
              In (MState (rev (firstn k s) ++ a :: pre) (skipn k s) c)
                 (rep (rmatch ml (Cls neg items)) [] greedy f m' None
                    (MState (a :: pre) s (clear_caps [] c)))).
    { intros m' Lm' Lm''. apply (IH m' s (a :: pre) (clear_caps [] c) f); simpl in *; lia. }
    cbn [rep before after caps option_map]. rewrite cls_step, Pa. cbn [flat_map after length].
    rewrite app_nil_r.
    destruct min as [|m].
    + cbn [Nat.eqb andb negb pred]. rewrite eqb_length_succ.
      destruct greedy; [apply in_or_app; left|right]; apply I; lia.
    + cbn [Nat.eqb andb negb pred]. apply I; lia.
Qed.

Lemma rmatch_cls_in ml neg items greedy min k s pre c :
  min <= k -> k <= length (take_while (cls_ok neg items) s) ->
  In (MState (rev (firstn k s) ++ pre) (skipn k s) c)
     (rmatch ml (Rep min None greedy (Cls neg items)) (MState pre s c)).
Proof.
  intros Lm Lk. rewrite rmatch_rep_eq. cbn [groups_of after].
  apply rep_cls_in; [exact Lm|exact Lk|lia].
Qed.

Lemma in_head {A} (l : list A) y l' : l = y :: l' -> In y l.
Proof. intros ->. left. reflexivity. Qed.

Lemma seq_in_intro ml a b x y1 y :
  In y1 (rmatch ml a x) -> In y (rmatch ml b y1) -> In y (rmatch ml (Seq a b) x).
Proof. intros I1 I2. cbn [rmatch]. apply in_flat_map. exists y1. auto. Qed.

Lemma shape_rep_dot min max g w :
  shape (Rep min max g Dot) w -> forallb not_lt w = true /\ min <= length w.
Proof.
  intros (ws & -> & F & L & _).
  assert (H : forallb not_lt (concat ws) = true /\ length (concat ws) = length ws).
  { clear L. induction F as [|w ws (c & -> & Hc) F IH]; [split; reflexivity|].
    destruct IH as [IH1 IH2]. simpl. unfold not_lt at 1. rewrite Hc, IH1, IH2.
    split; reflexivity. }
  destruct H as [H1 H2]. split; [exact H1|lia].
Qed.

Lemma hash_not_lt s : forallb (cls_ok false [CLit 35%N]) s = true -> forallb not_lt s = true.
Proof.
  induction s as [|a s IH]; simpl; [reflexivity|]. intros H.
  apply andb_true_iff in H. destruct H as [H1 H2]. rewrite (IH H2), andb_true_r.
  unfold cls_ok in H1. simpl in H1. rewrite orb_false_r in H1. unfold ceqb in H1.
  apply N.eqb_eq in H1. subst a. reflexivity.
Qed.

Lemma take_while_length_firstn p : forall s k,
  k <= length (take_while p s) -> firstn k s = firstn k (take_while p s).
Proof.
  induction s as [|a s IH]; intros k L; simpl in *.
  - reflexivity.
  - destruct (p a); simpl in *; [|assert (k = 0) by lia; subst; reflexivity].
    destruct k; [reflexivity|]. simpl. f_equal. apply IH. lia.
Qed.

Lemma take_while_all p s : firstn (length (take_while p s)) s = take_while p s
                           /\ skipn (length (take_while p s)) s = drop_while p s.
Proof.
  induction s as [|a s [IH1 IH2]]; simpl; [split; reflexivity|].
  destruct (p a); simpl; [rewrite IH1, IH2|]; split; reflexivity.
Qed.

Lemma take_while_forallb p s : forallb p (take_while p s) = true.
Proof.
  induction s as [|a s IH]; simpl; [reflexivity|].
  destruct (p a) eqn:E; simpl; [rewrite E, IH|]; reflexivity.
Qed.

(** The line a heading match takes: the whole first line. *)
Lemma heading_line_sound s y :
  In y (rmatch true headingLineRgx (MState [] s no_captures)) ->
  steps (MState [] s no_captures) y (take_while not_lt s)
  /\ after y = drop_while not_lt s
  /\ caps y 1 = Some (take_while not_lt s).
Proof.
  intros H. unfold headingLineRgx in H.
  change (seq [?a1; ?a2; ?a3]) with (Seq a1 (Seq a2 a3)) in H.
  apply in_seq in H. destruct H as (x0 & H0 & H).
  apply in_bol in H0. destruct H0 as [-> _].
  apply in_seq in H. destruct H as (x1 & H1 & H2).
  apply in_eol in H2. destruct H2 as [-> E].
  apply in_grp_cap in H1; [|reflexivity].
  destruct H1 as (w & S1 & (w1 & w2 & -> & P1 & P2) & C).
  pose proof (hash_not_lt _ (shape_cls_run _ _ _ _ _ _ P1)) as F1.
  apply shape_rep_dot in P2. destruct P2 as [F2 _].
  assert (F : forallb not_lt (w1 ++ w2) = true) by (rewrite forallb_app, F1, F2; reflexivity).
  pose proof S1 as [A _]. cbn [after] in A.
  assert (T : take_while not_lt s = w1 ++ w2 /\ drop_while not_lt s = after x1).
  { rewrite A. apply take_while_app; [exact F|].
    unfold at_eol in E. destruct (after x1) as [|c r]; [exact I|].
    cbn [andb] in E. unfold not_lt. rewrite E. reflexivity. }
  destruct T as [T1 T2]. rewrite T1, T2. auto.
Qed.

Lemma heading_line_complete s :
  heading_then_text s = true ->
  rmatch true headingLineRgx (MState [] s no_captures) <> [].
Proof.
  intros H. destruct s as [|c s]; [discriminate|]. cbn [heading_then_text] in H.
  apply andb_true_iff in H. destruct H as [H H3].
  apply andb_true_iff in H. destruct H as [H1 H2].
  unfold ceqb in H1. apply N.eqb_eq in H1. subst c. apply Nat.leb_le in H2.
  change (2 <= length (35%N :: take_while not_lt s)) in H2. cbn [length] in H2.
  revert H3.
  match goal with
  | |- context [drop_while not_lt ?t] =>
      destruct (drop_while not_lt t) as [|a [|b r]] eqn:D
  end; intros H3; try discriminate.
  apply andb_true_iff in H3. destruct H3 as [Ha _].
  unfold ceqb in Ha. apply N.eqb_eq in Ha. subst a.
  unfold headingLineRgx.
  change (seq [?a1; ?a2; ?a3]) with (Seq a1 (Seq a2 a3)).
  assert (I1 : In (MState [35%N] s no_captures)
                 (rmatch true (plus (chr 35%N)) (MState [] (35%N :: s) no_captures))).
  { apply (rmatch_cls_in true false [CLit 35%N] true 1 1 (35%N :: s) [] no_captures); [lia|].
    cbn [take_while]. unfold cls_ok. simpl. lia. }
  assert (D' : drop_while not_lt s = 10%N :: b :: r) by exact D.
  assert (I2 : In (MState (rev (take_while not_lt s) ++ [35%N]) (10%N :: b :: r) no_captures)
                 (rmatch true (plus Dot) (MState [35%N] s no_captures))).
  { unfold plus. rewrite rep_dot_as_cls.
    pose proof (rmatch_cls_in true true line_terminators true 1 (length (take_while not_lt s)) s [35%N] no_captures) as R.
    assert (Eq : take_while (cls_ok true line_terminators) s = take_while not_lt s).
    { clear. induction s as [|a s IH]; cbn [take_while]; [reflexivity|].
      rewrite cls_ok_lt, IH. reflexivity. }
    rewrite Eq in R. destruct (take_while_all not_lt s) as [T1 T2].
    rewrite T1, T2, D' in R. apply R; [apply le_S_n; exact H2|apply le_n]. }
  pose proof (seq_in_intro true _ _ _ _ _ I1 I2) as I3.
  assert (I4 : In (MState (rev (take_while not_lt s) ++ [35%N]) (10%N :: b :: r)
                     (set_cap 1 (between (MState [] (35%N :: s) no_captures)
                                   (MState (rev (take_while not_lt s) ++ [35%N]) (10%N :: b :: r) no_captures))
                        no_captures))
                 (rmatch true (Grp 1 (Seq (plus (chr 35%N)) (plus Dot)))
                    (MState [] (35%N :: s) no_captures))).
  { cbn [rmatch] in I3 |- *. apply in_map_iff. eexists. split; [|exact I3]. reflexivity. }
  assert (I5 : forall st, after st = 10%N :: b :: r -> In st (rmatch true Eol st)).
  { intros st A. cbn [rmatch]. unfold at_eol. rewrite A. left. reflexivity. }
  match type of I4 with
  | In ?st _ => pose proof (seq_in_intro true _ _ _ _ _ I4 (I5 st eq_refl)) as I6
  end.
  assert (I0 : In (MState [] (35%N :: s) no_captures)
                 (rmatch true Bol (MState [] (35%N :: s) no_captures))) by (left; reflexivity).
  pose proof (seq_in_intro true _ _ _ _ _ I0 I6) as I7.
  exact (in_nonempty _ _ I7).
Qed.

(** The test before the heading case. *)
Lemma heading_test_sound s :
  test false headingThenTextRgx s = true -> heading_then_text s = true.
Proof.
  unfold test, exec. destruct (scan false headingThenTextRgx [] s) as [[x y]|] eqn:S1; [|discriminate].
  intros _. apply scan_some in S1. destruct S1 as (sk & rest & -> & -> & (l & Hm) & _).
  assert (I : In y (rmatch false headingThenTextRgx (MState (rev sk ++ []) rest no_captures)))
    by (rewrite Hm; left; reflexivity).
  unfold headingThenTextRgx in I.
  change (seq [?a1; ?a2; ?a3; ?a4; ?a5]) with (Seq a1 (Seq a2 (Seq a3 (Seq a4 a5)))) in I.
  apply in_seq in I. destruct I as (x0 & H0 & I).
  apply in_bol in H0. destruct H0 as [-> B0].
  unfold at_bol in B0. cbn [before] in B0. rewrite app_nil_r in B0.
  destruct (rev sk) as [|c0 r0] eqn:Er; [|discriminate].
  assert (sk = []) by (destruct sk; [reflexivity|]; simpl in Er; destruct (rev sk); discriminate).
  subst sk. cbn [app] in *.
  apply rmatch_shape in I; [|reflexivity].
  destruct I as (w & [A _] & (w1 & w' & -> & P1 & (w2 & w'' & -> & P2 & (w3 & w4 & -> & P3 & P4)))).
  cbn [after] in A.
  pose proof (hash_not_lt _ (shape_cls_run _ _ _ _ _ _ P1)) as F1.
  pose proof (shape_cls_run _ _ _ _ _ _ P1) as F1'.
  apply shape_rep_cls in P1. destruct P1 as (_ & L1 & _).
  apply shape_rep_dot in P2. destruct P2 as [F2 L2].
  destruct P3 as (c3 & -> & E3). simpl in E3. rewrite orb_false_r in E3.
  unfold ceqb in E3. apply N.eqb_eq in E3. subst c3.
  apply shape_rep_dot in P4. destruct P4 as [F4 L4].
  assert (F : forallb not_lt (w1 ++ w2) = true) by (rewrite forallb_app, F1, F2; reflexivity).
  assert (T : take_while not_lt rest = w1 ++ w2
              /\ drop_while not_lt rest = [LF] ++ w4 ++ after y).
  { rewrite A, <- !app_assoc, (app_assoc w1 w2). apply take_while_app; [exact F|reflexivity]. }
  destruct T as [T1 T2].
  destruct w1 as [|h w1]; [simpl in L1; lia|].
  cbn [forallb] in F1'. apply andb_true_iff in F1'. destruct F1' as [Hh _].
  unfold cls_ok in Hh. simpl in Hh. rewrite orb_false_r in Hh.
  rewrite A. cbn [app heading_then_text]. rewrite Hh. cbn [andb].
  rewrite A in T1, T2. cbn [app] in T1, T2. rewrite T1, T2.
  destruct w4 as [|d w4]; [simpl in L4; lia|]. cbn [forallb] in F4.
  apply andb_true_iff in F4. destruct F4 as [Fd _]. cbn [app]. rewrite Fd.
  rewrite andb_true_r. apply Nat.leb_le. simpl. rewrite length_app. simpl in L1. lia.
Qed.

Lemma heading_test_complete s :
  heading_then_text s = true -> test false headingThenTextRgx s = true.
Proof.
  intros H. destruct s as [|c s]; [discriminate|]. cbn [heading_then_text] in H.
  apply andb_true_iff in H. destruct H as [H H3].
  apply andb_true_iff in H. destruct H as [H1 H2].
  unfold ceqb in H1. apply N.eqb_eq in H1. subst c. apply Nat.leb_le in H2.
  revert H3.
  match goal with
  | |- context [drop_while not_lt ?t] =>
      destruct (drop_while not_lt t) as [|a [|b r]] eqn:D
  end; intros H3; try discriminate.
  apply andb_true_iff in H3. destruct H3 as [Ha Hb].
  unfold ceqb in Ha. apply N.eqb_eq in Ha. subst a.
  assert (D' : drop_while not_lt s = 10%N :: b :: r) by exact D.
  change (2 <= length (35%N :: take_while not_lt s)) in H2. cbn [length] in H2.
  assert (Eq : forall t, take_while (cls_ok true line_terminators) t = take_while not_lt t).
  { induction t as [|a t IH]; cbn [take_while]; [reflexivity|].
    rewrite cls_ok_lt, IH. reflexivity. }
  assert (I1 : In (MState [35%N] s no_captures)
                 (rmatch false (plus (chr 35%N)) (MState [] (35%N :: s) no_captures))).
  { apply (rmatch_cls_in false false [CLit 35%N] true 1 1 (35%N :: s) [] no_captures); [lia|].
    cbn [take_while]. unfold cls_ok. simpl. lia. }
  assert (I2 : In (MState (rev (take_while not_lt s) ++ [35%N]) (10%N :: b :: r) no_captures)
                 (rmatch false (plus Dot) (MState [35%N] s no_captures))).
  { unfold plus. rewrite rep_dot_as_cls.
    pose proof (rmatch_cls_in false true line_terminators true 1 (length (take_while not_lt s)) s [35%N] no_captures) as R.
    rewrite Eq in R. destruct (take_while_all not_lt s) as [T1 T2].
    rewrite T1, T2, D' in R. apply R; [apply le_S_n; exact H2|apply le_n]. }
  pose proof (chr_hit false 10%N (rev (take_while not_lt s) ++ [35%N]) (b :: r) no_captures) as E3.
  assert (I3 : In (MState (10%N :: rev (take_while not_lt s) ++ [35%N]) (b :: r) no_captures)
                 (rmatch false (chr LF)
                    (MState (rev (take_while not_lt s) ++ [35%N]) (10%N :: b :: r) no_captures))).
  { apply (in_head _ _ []). exact E3. }
  assert (I4 : In (MState (rev (firstn 1 (b :: r)) ++ 10%N :: rev (take_while not_lt s) ++ [35%N])
                     (skipn 1 (b :: r)) no_captures)
                 (rmatch false (plus Dot)
                    (MState (10%N :: rev (take_while not_lt s) ++ [35%N]) (b :: r) no_captures))).
  { unfold plus. rewrite rep_dot_as_cls. apply rmatch_cls_in; [lia|].
    cbn [take_while]. rewrite cls_ok_lt, Hb. simpl. lia. }
  pose proof (seq_in_intro false _ _ _ _ _ I3 I4) as I5.
  pose proof (seq_in_intro false _ _ _ _ _ I2 I5) as I6.
  pose proof (seq_in_intro false _ _ _ _ _ I1 I6) as I7.
  assert (I0 : In (MState [] (35%N :: s) no_captures)
                 (rmatch false Bol (MState [] (35%N :: s) no_captures))) by (left; reflexivity).
  pose proof (seq_in_intro false _ _ _ _ _ I0 I7) as I8.
  unfold test, exec.
  match goal with
  | |- context [scan false headingThenTextRgx [] ?t] =>
      destruct (scan false headingThenTextRgx [] t) as [[x y]|] eqn:S1
  end; [reflexivity|].
  exfalso. pose proof (scan_none_inv _ _ _ _ S1 [] (35%N :: s) eq_refl) as Hm.
  cbn [rev app] in Hm. unfold headingThenTextRgx in Hm.
  change (seq [?a1; ?a2; ?a3; ?a4; ?a5]) with (Seq a1 (Seq a2 (Seq a3 (Seq a4 a5)))) in Hm.
  exact (in_nonempty _ _ I8 Hm).
Qed.

End HeadingFacts.

Section Heading.
Import ReFacts GuardFacts HeadingFacts TextFacts.

(** X11: the heading case.  When the first line of an item body is a heading
    (a [#] and at least one more character) and the next line follows after
    one line feed, a second line feed is put after the heading, so that the
    item is rendered on the multi-paragraph path; any other body is left as
    it is. *)
Theorem heading_gets_a_blank_line :
  (forall s, guard_heading s
             = if heading_then_text s
               then take_while not_lt s ++ LF :: drop_while not_lt s
               else s)
  /\ (forall m1 s, heading_then_text s = true ->
                   multi_paragraph m1 (guard_heading s) = true).
Proof.
  assert (G : forall s, guard_heading s
             = if heading_then_text s
               then take_while not_lt s ++ LF :: drop_while not_lt s
               else s).
  { intros s. unfold guard_heading.
    destruct (heading_then_text s) eqn:H.
    - rewrite (heading_test_complete s H). unfold replace1.
      destruct (rmatch true headingLineRgx (MState [] s no_captures)) as [|y l] eqn:E.
      + exfalso. apply (heading_line_complete s H). exact E.
      + rewrite (scan_first _ _ _ _ _ _ E).
        assert (I : In y (rmatch true headingLineRgx (MState [] s no_captures)))
          by (rewrite E; left; reflexivity).
        apply heading_line_sound in I. destruct I as (_ & A & C).
        cbn [before rev app m_group mk_res]. rewrite C, A, <- app_assoc. reflexivity.
    - destruct (test false headingThenTextRgx s) eqn:T; [|reflexivity].
      apply heading_test_sound in T. congruence. }
  split; [exact G|].
  intros m1 s H. rewrite multi_paragraph_spec, G, H.
  assert (D : exists b r, drop_while not_lt s = LF :: b :: r).
  { destruct s as [|c s]; [discriminate|]. cbn [heading_then_text] in H.
    apply andb_true_iff in H. destruct H as [_ H].
    revert H. destruct (drop_while not_lt (c :: s)) as [|a [|b r]]; intros H;
      try discriminate.
    apply andb_true_iff in H. destruct H as [Ha _]. unfold ceqb in Ha.
    apply N.eqb_eq in Ha. subst a. exists b, r. reflexivity. }
  destruct D as (b & r & D). rewrite D.
  assert (O : forall p t, has_blank_line (p ++ LF :: LF :: t) = true).
  { induction p as [|a p IH]; intros t.
    - reflexivity.
    - unfold has_blank_line in *. cbn [app occurs]. rewrite IH. apply orb_true_r. }
  rewrite O. apply orb_true_r.
Qed.

End Heading.

Module StripFacts.
Import ReFacts MarkerFacts TextFacts SplitFacts GuardFacts BuildFacts StartFacts TrailFacts TrimFacts BoxFacts BoundaryFacts HeadingFacts.

Lemma cls_ok_lf c : cls_ok false [CLit LF] c = is_lf c.
Proof. unfold cls_ok, is_lf. simpl. apply orb_false_r. Qed.

Lemma while_lf s :
  take_while (cls_ok false [CLit LF]) s = take_while is_lf s
  /\ drop_while (cls_ok false [CLit LF]) s = drop_while is_lf s.
Proof.
  induction s as [|a s [IH1 IH2]]; cbn [take_while drop_while]; [split; reflexivity|].
  rewrite cls_ok_lf, IH1, IH2. split; reflexivity.
Qed.

(** [item.replace(/^\n+/g, '')] *)
Lemma strip_leading s :
  replace_g false leadingNewlinesRgx (fun _ => []) s = drop_while is_lf s.
Proof.
  unfold replace_g, matches_g. cbn [collect].
  change leadingNewlinesRgx with (Seq Bol (plus (chr LF))).
  destruct s as [|a s]; [reflexivity|].
  destruct (is_lf a) eqn:La.
  - destruct (rmatch_at_least_cls false false [CLit LF] 1 (a :: s) [] no_captures) as [l1 E1].
    { cbn [take_while]. rewrite cls_ok_lf, La. simpl. lia. }
    destruct (while_lf (a :: s)) as [W1 W2]. rewrite W1, W2 in E1.
    assert (E0 : rmatch false Bol (MState [] (a :: s) no_captures)
                 = [MState [] (a :: s) no_captures]) by reflexivity.
    destruct (seq_head false Bol _ _ _ _ _ _ E0 E1) as [l E].
    change (Rep 1 None true (Cls false [CLit LF])) with (plus (chr LF)) in E.
    rewrite (scan_first _ _ _ _ _ _ E). cbn [after before].
    assert (L : Nat.eqb (length (drop_while is_lf (a :: s))) (length (a :: s)) = false).
    { apply Nat.eqb_neq. pose proof (take_drop_while is_lf (a :: s)) as T.
      apply (f_equal (@length _)) in T. rewrite length_app in T.
      cbn [take_while] in T. rewrite La in T. simpl in T. simpl. lia. }
    rewrite L. rewrite collect_none.
    + cbn [flat_map fst snd app]. unfold between. cbn [before length Nat.sub firstn rev app].
      reflexivity.
    + apply scan_bol_none. cbn [take_while]. rewrite La. cbn [rev].
      intros Hn. apply (f_equal (@length _)) in Hn.
      rewrite !length_app in Hn. simpl in Hn. lia.
  - assert (E : rmatch false (Seq Bol (plus (chr LF))) (MState [] (a :: s) no_captures) = []).
    { destruct (rmatch false (Seq Bol (plus (chr LF))) (MState [] (a :: s) no_captures))
        as [|y l] eqn:E; [reflexivity|]. exfalso.
      assert (I : In y (rmatch false (Seq Bol (plus (chr LF))) (MState [] (a :: s) no_captures)))
        by (rewrite E; left; reflexivity).
      apply rmatch_shape in I; [|reflexivity].
      destruct I as (w & [A _] & (w0 & w1 & -> & -> & P)).
      pose proof (shape_cls_run _ _ _ _ _ _ P) as F.
      apply shape_rep_cls in P. destruct P as (_ & L & _).
      destruct w1 as [|c w1]; [simpl in L; lia|]. cbn [after app] in A.
      inversion A; subst c. cbn [forallb] in F. rewrite cls_ok_lf, La in F. discriminate. }
    rewrite (scan_bol_only _ _ E). cbn [flat_map app drop_while]. rewrite La. reflexivity.
Qed.

(** [item.replace(/\n+$/g, '')]: with the flag [g] as without it. *)
Lemma replace_g_run n neg items r s :
  1 <= n ->
  replace_g false (run_end n neg items) (fun _ => r) s
  = replace1 false (run_end n neg items) (fun _ => r) s.
Proof.
  intros Hn. unfold replace_g, replace1, matches_g. cbn [collect].
  destruct (scan false (run_end n neg items) [] s) as [[x y]|] eqn:S1; [|reflexivity].
  pose proof S1 as S1'.
  apply scan_some in S1'. destruct S1' as (sk & rest & -> & -> & (l & Hm) & _).
  assert (I : In y (rmatch false (run_end n neg items) (MState (rev sk ++ []) rest no_captures)))
    by (rewrite Hm; left; reflexivity).
  apply run_only in I. cbn [before after] in I. destruct I as (F & L & A & B).
  rewrite A. cbn [after length].
  destruct rest as [|c rest]; [simpl in L; lia|]. cbn [length Nat.eqb].
  assert (N : scan false (run_end n neg items) (before y) [] = None).
  { cbn [scan]. destruct (rmatch false (run_end n neg items) (MState (before y) [] no_captures))
      as [|y' l'] eqn:E; [reflexivity|].
    assert (I : In y' (rmatch false (run_end n neg items) (MState (before y) [] no_captures)))
      by (rewrite E; left; reflexivity).
    apply run_only in I. cbn [after] in I. destruct I as (_ & L' & _). simpl in L'. lia. }
  rewrite (collect_none _ _ _ _ _ _ N).
  cbn [flat_map fst snd app m_whole mk_res].
  rewrite (between_steps _ _ sk) by (split; reflexivity).
  cbn [before]. rewrite (app_nil_r (rev sk)), rev_involutive.
  repeat rewrite (app_nil_r (A:=char)). repeat rewrite (app_nil_r (A:=N)). reflexivity.
Qed.

Lemma strip_trailing s :
  exists j,
    s = replace_g false trailingNewlinesRgx (fun _ => []) s ++ repeat LF j
    /\ forall t, replace_g false trailingNewlinesRgx (fun _ => []) s <> t ++ [LF].
Proof.
  change trailingNewlinesRgx with (run_end 1 false [CLit LF]).
  rewrite replace_g_run by lia.
  destruct (replace_trailing_run 1 false [CLit LF] [] s)
    as [(a & b & -> & F & L & N & E)|[N E]]; rewrite E.
  - exists (length b). rewrite app_nil_r. split; [rewrite <- (forallb_lf_repeat b F); reflexivity|].
    intros t Et. destruct (N t LF Et) as [H|H]; discriminate.
  - exists 0. rewrite app_nil_r. split; [reflexivity|].
    intros t ->. specialize (N t [LF] eq_refl eq_refl). simpl in N. lia.
Qed.

Lemma drop_while_head p s c t : drop_while p s = c :: t -> p c = false.
Proof.
  induction s as [|a s IH]; simpl; [discriminate|].
  destruct (p a) eqn:E; [exact IH|]. intros H. inversion H; subst. exact E.
Qed.

End StripFacts.

Section Strip.
Import StripFacts TrimFacts BuildFacts.

(** X12: stripping the leading and trailing lines of an item takes away the
    line feeds at both ends and nothing else, so the content of a
    multi-paragraph item neither starts nor ends with a line feed. *)
Theorem strip_lines_trims :
  (forall s, exists i j,
      s = repeat LF i ++ strip_lines s ++ repeat LF j
      /\ (forall t, strip_lines s <> LF :: t)
      /\ (forall t, strip_lines s <> t ++ [LF]))
  /\ (forall env item t,
      wrap_paragraphs env item <> LF :: t /\ wrap_paragraphs env item <> t ++ [LF]).
Proof.
  assert (G : forall s, exists i j,
      s = repeat LF i ++ strip_lines s ++ repeat LF j
      /\ (forall t, strip_lines s <> LF :: t)
      /\ (forall t, strip_lines s <> t ++ [LF])).
  { intros s. unfold strip_lines. rewrite strip_leading.
    destruct (strip_trailing (drop_while is_lf s)) as (j & E & N).
    set (out := replace_g false trailingNewlinesRgx (fun _ => []) (drop_while is_lf s)) in *.
    exists (length (take_while is_lf s)), j. split; [|split].
    - rewrite <- E.
      assert (R : take_while is_lf s = repeat LF (length (take_while is_lf s))).
      { apply forallb_lf_repeat. clear. induction s as [|a s IH]; simpl; [reflexivity|].
        destruct (is_lf a) eqn:La; simpl; [|reflexivity].
        rewrite IH, andb_true_r. unfold cls_ok. simpl. rewrite orb_false_r. exact La. }
      rewrite <- R. symmetry. apply take_drop_while.
    - intros t Et. rewrite Et in E. cbn [app] in E.
      apply drop_while_head in E. discriminate.
    - exact N. }
  split; [exact G|].
  intros env item t. unfold wrap_paragraphs.
  match goal with |- strip_lines ?u <> _ /\ _ => destruct (G u) as (i & j & _ & N1 & N2) end.
  split; [apply N1|apply N2].
Qed.

End Strip.

Section StartNumber.
Import StartFacts.

(** X1: [styleStartNumber] gives a number for an ordinal block only, and it
    is then the digits that stand, after spaces, at the very start of the
    text before a period, unless they are the one digit 1; the digits are
    compared as text, so 01 is a start number. *)
Theorem start_number_read :
  (forall list, styleStartNumber list Ul = None)
  /\ (forall sp n rest,
        forallb (fun c => ceqb c 32) sp = true -> n <> [] -> forallb is_digit n = true ->
        styleStartNumber (sp ++ n ++ 46%N :: rest) Ol
        = if str_eqb n (js "1") then None else Some n)
  /\ (forall list n,
        styleStartNumber list Ol = Some n ->
        str_eqb n (js "1") = false /\ n <> [] /\ forallb is_digit n = true
        /\ exists sp rest, list = sp ++ n ++ 46%N :: rest
                           /\ forallb (fun c => ceqb c 32) sp = true).
Proof.
  split; [reflexivity|]. split.
  - intros sp n rest Hsp Hn Hd. unfold styleStartNumber.
    destruct (start_number_match sp n rest Hsp Hn Hd) as (res & E & C).
    rewrite E, C. destruct (str_eqb n (js "1")); reflexivity.
  - intros list n H. unfold styleStartNumber in H.
    destruct (exec false startNumberRgx list) as [res|] eqn:E; [|discriminate].
    destruct (m_group res 1) as [n'|] eqn:C; [|discriminate].
    destruct (str_eqb n' (js "1")) eqn:N; [discriminate|]. cbn [negb] in H.
    inversion H; subst n'. split; [exact N|].
    exact (start_number_sound list res n E C).
Qed.

End StartNumber.

Section Cut.
Import ReFacts SplitFacts.

Variable env : Env.


End Cut.

Module ParaFacts.
Import ReFacts MarkerFacts TextFacts SplitFacts GuardFacts BuildFacts StartFacts TrailFacts BoxFacts BoundaryFacts SentinelFacts HeadingFacts.

Lemma sentinel_miss_any ml pre s c :
  is_prefix Z0 s = false -> rmatch ml sentinelRgx (MState pre s c) = [].
Proof.
  intros H. destruct (rmatch ml sentinelRgx (MState pre s c)) as [|y l] eqn:E; [reflexivity|].
  exfalso. assert (I : In y (rmatch ml sentinelRgx (MState pre s c)))
    by (rewrite E; left; reflexivity).
  apply rmatch_shape in I; [|reflexivity].
  destruct I as (w & [A _] & (w1 & w2 & -> & (c1 & -> & E1) & (c2 & -> & E2))).
  cbn [after app] in A. subst s. simpl in E1, E2. rewrite orb_false_r in E1, E2.
  unfold ceqb in E1, E2. apply N.eqb_eq in E1, E2. subst. discriminate.
Qed.

Lemma scan_any ml r (P : jsstring -> bool) :
  (forall pre s, P s = true -> rmatch ml r (MState pre s no_captures) <> []) ->
  (forall pre s, P s = false -> rmatch ml r (MState pre s no_captures) = []) ->
  forall s pre,
    match scan ml r pre s with Some _ => true | None => false end = any_suffix P s.
Proof.
  intros H1 H0. induction s as [|a s IH]; intros pre; cbn [scan any_suffix].
  - destruct (P []) eqn:E.
    + specialize (H1 pre [] E). destruct (rmatch ml r (MState pre [] no_captures));
        [contradiction|reflexivity].
    + rewrite (H0 pre [] E). reflexivity.
  - destruct (P (a :: s)) eqn:E.
    + specialize (H1 pre (a :: s) E).
      destruct (rmatch ml r (MState pre (a :: s) no_captures)); [contradiction|reflexivity].
    + rewrite (H0 pre (a :: s) E). apply IH.
Qed.

Lemma empty_line_complete pre s :
  empty_line_here s = true -> rmatch false paragraphedRgx (MState pre s no_captures) <> [].
Proof.
  intros H. destruct s as [|a t]; [discriminate|]. cbn [empty_line_here] in H.
  apply andb_true_iff in H. destruct H as [Ha H].
  unfold ceqb in Ha. apply N.eqb_eq in Ha. subst a.
  destruct (drop_blanks t) as [|b u] eqn:D; [discriminate|].
  apply andb_true_iff in H. destruct H as [Hb Hu].
  unfold ceqb in Hb. apply N.eqb_eq in Hb. subst b.
  apply negb_true_iff in Hu.
  unfold paragraphedRgx.
  change (seq [?a1; ?a2; ?a3; ?a4]) with (Seq a1 (Seq a2 (Seq a3 a4))).
  pose proof (chr_hit false 10%N pre t no_captures) as E1.
  assert (E2 : exists l, rmatch false (star blank) (MState (10%N :: pre) t no_captures)
               = MState (rev (take_blanks t) ++ 10%N :: pre) (drop_blanks t) no_captures :: l).
  { unfold star. rewrite rmatch_rep_eq. cbn [after Nat.add groups_of blank set].
    apply star_blank_head. lia. }
  destruct E2 as [l2 E2]. rewrite D in E2.
  pose proof (chr_hit false 10%N (rev (take_blanks t) ++ 10%N :: pre) u no_captures) as E3.
  assert (E4 : rmatch false (Look false (str (js "¨0")))
                 (MState (10%N :: rev (take_blanks t) ++ 10%N :: pre) u no_captures)
               = [MState (10%N :: rev (take_blanks t) ++ 10%N :: pre) u no_captures]).
  { cbn [rmatch]. change (str (js "¨0")) with sentinelRgx.
    rewrite (sentinel_miss_any false _ _ _ Hu). reflexivity. }
  destruct (seq_head false _ _ _ _ _ _ _ E3 E4) as [l5 E5].
  destruct (seq_head false _ _ _ _ _ _ _ E2 E5) as [l6 E6].
  destruct (seq_head false _ _ _ _ _ _ _ E1 E6) as [l7 E7].
  intros N. apply (in_nonempty _ _ (in_head _ _ _ E7)). exact N.
Qed.

Lemma empty_line_sound pre s :
  empty_line_here s = false -> rmatch false paragraphedRgx (MState pre s no_captures) = [].
Proof.
  intros H. destruct (rmatch false paragraphedRgx (MState pre s no_captures)) as [|y l] eqn:E;
    [reflexivity|]. exfalso.
  assert (I : In y (rmatch false paragraphedRgx (MState pre s no_captures)))
    by (rewrite E; left; reflexivity). clear E.
  unfold paragraphedRgx in I.
  change (seq [?a1; ?a2; ?a3; ?a4]) with (Seq a1 (Seq a2 (Seq a3 a4))) in I.
  apply in_seq in I. destruct I as (x1 & H1 & I).
  apply in_seq in I. destruct I as (x2 & H2 & I).
  apply in_seq in I. destruct I as (x3 & H3 & H4).
  apply in_cls in H1. destruct H1 as (c1 & A1 & _ & _ & E1).
  simpl in E1. rewrite orb_false_r in E1. unfold ceqb in E1. apply N.eqb_eq in E1. subst c1.
  apply rmatch_shape in H2; [|reflexivity]. destruct H2 as (bl & [A2 _] & P2).
  pose proof (shape_cls_run _ _ _ _ _ _ P2) as F2. unfold blank, set in F2.
  rewrite forallb_blank in F2.
  apply in_cls in H3. destruct H3 as (c3 & A3 & _ & _ & E3).
  simpl in E3. rewrite orb_false_r in E3. unfold ceqb in E3. apply N.eqb_eq in E3. subst c3.
  cbn [rmatch] in H4. change (str (js "¨0")) with sentinelRgx in H4.
  destruct (is_prefix Z0 (after x3)) eqn:Pz.
  - destruct (is_prefix_sentinel _ Pz) as [s' Es].
    destruct x3 as [b3 a3 c3]. cbn [after] in Es. subst a3.
    rewrite sentinel_hit in H4. contradiction.
  - cbn [after] in A1. rewrite A2, A3 in A1. subst s.
    cbn [empty_line_here] in H.
    destruct (drop_blanks_app bl (LF :: after x3) F2 eq_refl) as [_ D].
    rewrite D in H. change (ceqb LF 10) with true in H. cbn [andb] in H.
    rewrite Pz in H. discriminate.
Qed.

End ParaFacts.

Section Paragraphed.
Import ParaFacts.

(** X8: the test for a paragraphed run: the run holds a line of spaces and
    tabs only, between two line feeds, that the sentinel does not follow. *)
Theorem paragraphed_is_an_inner_empty_line :
  forall s, test false paragraphedRgx s = any_suffix empty_line_here s.
Proof.
  intros s. unfold test, exec.
  rewrite <- (scan_any false paragraphedRgx empty_line_here
                empty_line_complete empty_line_sound s []).
  destruct (scan false paragraphedRgx [] s) as [[x y]|]; reflexivity.
Qed.

End Paragraphed.

(** ** Instances of the further properties *)

Lemma start_number_read_witness :
  styleStartNumber (js "  " ++ js "42" ++ 46%N :: js " x") Ol
  = (if str_eqb (js "42") (js "1") then None else Some (js "42"))
  /\ (str_eqb (js "5") (js "1") = false /\ js "5" <> []).
Proof.
  split.
  - apply (proj1 (proj2 start_number_read) (js "  ") (js "42") (js " x"));
      [reflexivity|discriminate|reflexivity].
  - destruct (proj2 (proj2 start_number_read) (js "5. b\n") (js "5")) as (A & B & _).
    + vm_compute. reflexivity.
    + split; assumption.
Defined.

Lemma trim_trailing_is_trim_end_witness :
  exists kept run,
    js "<li>a</li>\n" = kept ++ run /\ forallb is_space run = true
    /\ (forall k0 c, kept = k0 ++ [c] -> is_space c = false)
    /\ processListItems (sample_env defaults) (makehtml_list (sample_env defaults) 2)
         (js "- a\n") true fresh = Some (kept, Globals 0 [0; 1]%Z).
Proof.
  apply (trim_trailing_is_trim_end (sample_env defaults)
           (makehtml_list (sample_env defaults) 2) (js "- a\n") fresh).
  vm_compute. reflexivity.
Defined.

Lemma trailing_blank_lines_collapse_witness :
  processListItems (sample_env defaults) (makehtml_list (sample_env defaults) 2)
    (js "- a" ++ repeat LF (2 + 1)) false fresh
  = processListItems (sample_env defaults) (makehtml_list (sample_env defaults) 2)
      (js "- a" ++ [LF]) false fresh.
Proof.
  apply (trailing_blank_lines_collapse (sample_env defaults)). reflexivity.
Defined.


Lemma guard_marker_exact_witness :
  guard_marker (js "10. a\n") = js "10. a\n".
Proof.
  apply (proj2 guard_marker_exact 49%N 48%N (js ". a\n")); reflexivity.
Defined.

Lemma heading_gets_a_blank_line_witness :
  multi_paragraph None (guard_heading (js "# foo\nbar is great\n")) = true.
Proof.
  apply (proj2 heading_gets_a_blank_line None (js "# foo\nbar is great\n")). reflexivity.
Defined.

Lemma sentinel_of_the_input_is_stripped_witness :
  makehtml_list (sample_env defaults) 1 (js "a" ++ Z0 ++ js "b") fresh
  = Some (Some (js "a" ++ js "b" ++ Z0), fresh).
Proof.
  apply (sentinel_of_the_input_is_stripped (sample_env defaults) 0 (js "a") (js "b") fresh).
  - reflexivity.
  - reflexivity.
  - intros name t. reflexivity.
Defined.

Lemma nested_calls_above_entry_witness :
  processListItems (sample_env defaults) (makehtml_list (sample_env defaults) 3)
    (js "- a\n    - b\n") false fresh
  = processListItems (sample_env defaults)
      (above (gListLevel fresh) (makehtml_list (sample_env defaults) 3))
      (js "- a\n    - b\n") false fresh.
Proof.
  apply (proj1 (nested_calls_above_entry (sample_env defaults))).
  apply makehtml_list_preserves.
Defined.

Lemma kind_is_first_marker_witness :
  exists l m,
    caps (snd sample_block_match) 2 = Some l /\ caps (snd sample_block_match) 3 = Some m
    /\ type_of_marker m = kind_of_first l.
Proof.
  apply (proj2 kind_is_first_marker [] (js "  3. a\n¨0") (fst sample_block_match)).
  vm_compute. reflexivity.
Defined.

